(** * Draco chart-specification generation

    A shallow embedding of [draco/generation/model.py] (classes [Model] and
    [Improvements]) and [draco/generation/generator.py] (class [Generator]),
    followed by the properties of the sampler, the spec generator, the
    mutation step and the recursive enumeration.

    Conventions of the embedding.
    - Python dicts are association lists in insertion order with unique keys
      ([dget], [dset], [ddel]); this is the iteration order of a dict. A set
      of strings is a duplicate-free list, in some iteration order.
    - Floats are idealised as rationals ([Q]).
    - The module-level [random] generator is a stream of draws carried in the
      [world]; so are the model's working pools ([curr_enums], [curr_probs])
      and the store of list objects that are shared by reference.
    - A function that raises is a computation whose outcome is [Raise e];
      functions that mutate a spec in place run on the pair of the spec and
      the world, so that the spec is still observable after a raise. *)

From Stdlib Require Import List String Ascii Bool Arith Lia QArith Lqa Sorted
  DecimalString DecimalNat DecimalFacts Permutation.
Import ListNotations.
Local Close Scope Q_scope.
Local Open Scope nat_scope.
Local Open Scope string_scope.

(** ** Python values and dicts *)

#[warnings="-register-all"]
Inductive value : Type :=
| VStr (s : string)
| VBool (b : bool)
| VDict (d : list (string * value)).

Definition dict (V : Type) : Type := list (string * V).

Section Dict.
Context {V : Type}.

(** [d[k]], [None] when the key is absent. *)
Fixpoint dget (k : string) (d : dict V) : option V :=
  match d with
  | [] => None
  | (k', v) :: d' => if String.eqb k k' then Some v else dget k d'
  end.

(** [d[k] = v]: overwrite in place, or append a new key at the end. *)
Fixpoint dset (k : string) (v : V) (d : dict V) : dict V :=
  match d with
  | [] => [(k, v)]
  | (k', v') :: d' =>
      if String.eqb k k' then (k, v) :: d' else (k', v') :: dset k v d'
  end.

(** [del d[k]] for a key that is present. *)
Fixpoint ddel (k : string) (d : dict V) : dict V :=
  match d with
  | [] => []
  | (k', v') :: d' => if String.eqb k k' then d' else (k', v') :: ddel k d'
  end.

(** [list(d.keys())], also the order of [for k in d]. *)
Definition dkeys (d : dict V) : list string := map fst d.

(** [k in d]. *)
Definition dmem (k : string) (d : dict V) : bool :=
  match dget k d with Some _ => true | None => false end.
End Dict.

(** [x in l] for a list or set of strings. *)
Definition mem (x : string) (l : list string) : bool :=
  existsb (String.eqb x) l.

(** [v == s] for a string literal [s]. *)
Definition is_str (v : value) (s : string) : bool :=
  match v with VStr t => String.eqb t s | _ => false end.

(** [l.pop(i)], keeping the list that remains. *)
Fixpoint pop {A : Type} (i : nat) (l : list A) : option (list A) :=
  match i, l with
  | _, [] => None
  | O, _ :: l' => Some l'
  | S i', x :: l' => option_map (cons x) (pop i' l')
  end.

(** [str(n)] for a non-negative integer. *)
Definition str (n : nat) : string := NilZero.string_of_uint (Nat.to_uint n).

(** ** Exceptions and the state-and-error monad *)

Inductive exn : Type :=
| KeyError (k : string)
| IndexError
| TypeError
| ValueError (msg : string)
| RecursionError.

Inductive result (A : Type) : Type :=
| Return (a : A)
| Raise (e : exn).
Arguments Return {A} a.
Arguments Raise {A} e.

Definition M (S A : Type) : Type := S -> result A * S.

Definition ret {S A : Type} (a : A) : M S A := fun s => (Return a, s).
Definition raise {S A : Type} (e : exn) : M S A := fun s => (Raise e, s).
Definition bind {S A B : Type} (c : M S A) (k : A -> M S B) : M S B :=
  fun s =>
    match c s with
    | (Return a, s') => k a s'
    | (Raise e, s') => (Raise e, s')
    end.

Declare Scope py_scope.
Delimit Scope py_scope with py.
Notation "x <- c ;; k" := (bind c (fun x => k))
  (at level 61, c at next level, right associativity) : py_scope.
Notation "' p <- c ;; k" := (bind c (fun x => let p := x in k))
  (at level 61, p pattern, c at next level, right associativity) : py_scope.
Notation "c ;;; k" := (bind c (fun _ => k))
  (at level 61, right associativity) : py_scope.
Local Open Scope py_scope.

(** A loop [for x in l: acc = body(acc, x)] over local variables [acc]. *)
Fixpoint foldM {S A B : Type} (body : B -> A -> M S B) (l : list A) (acc : B)
  : M S B :=
  match l with
  | [] => ret acc
  | x :: l' => acc' <- body acc x ;; foldM body l' acc'
  end.

(** A loop [for _ in range(n)]. *)
Fixpoint repeatM {S B : Type} (n : nat) (body : B -> M S B) (acc : B) : M S B :=
  match n with
  | O => ret acc
  | S n' => acc' <- body acc ;; repeatM n' body acc'
  end.

(** [[f(x) for x in l]]. *)
Fixpoint mapM {S A B : Type} (f : A -> M S B) (l : list A) : M S (list B) :=
  match l with
  | [] => ret []
  | x :: l' => y <- f x ;; ys <- mapM f l' ;; ret (y :: ys)
  end.

(** Subscripting, with the exception Python raises on a miss. *)
Definition getitem {S V : Type} (k : string) (d : dict V) : M S V :=
  match dget k d with Some v => ret v | None => raise (KeyError k) end.

Definition item {S A : Type} (l : list A) (i : nat) : M S A :=
  match nth_error l i with Some a => ret a | None => raise IndexError end.

(** [l[-1]]. *)
Definition item_last {S A : Type} (l : list A) : M S A :=
  item l (List.length l - 1).

(** A value used where a dict is required. *)
Definition as_dict {S : Type} (v : value) : M S (dict value) :=
  match v with VDict d => ret d | _ => raise TypeError end.

(** A value used where a string is required (a dict key, a slice). *)
Definition as_str {S : Type} (v : value) : M S string :=
  match v with VStr s => ret s | _ => raise TypeError end.

(** ** The world: randomness, working pools, shared lists *)

Record world : Type := mkWorld {
  rng : nat -> Q;                     (* the draws [random.random()] will return *)
  curr_enums : dict (list string);    (* [self.curr_enums] *)
  curr_probs : dict (list Q);         (* [self.curr_probs] *)
  heap : list (list string)           (* list objects passed by reference *)
}.

(** [random.random()]. *)
Definition random : M world Q :=
  fun w => (Return (rng w O),
            mkWorld (fun n => rng w (S n)) (curr_enums w) (curr_probs w) (heap w)).

(** [random.uniform(a, b)], which is [a + (b - a) * random()]. *)
Definition uniform (a b : Q) : M world Q :=
  u <- random ;; ret (a + (b - a) * u)%Q.

(** In-place computations on a spec: the spec object and the world. *)
Definition SM (A : Type) : Type := M (dict value * world) A.

Definition lift {A : Type} (c : M world A) : SM A :=
  fun sw => let (r, w') := c (snd sw) in (r, (fst sw, w')).

Definition get_spec : SM (dict value) := fun sw => (Return (fst sw), sw).
Definition put_spec (s : dict value) : SM unit := fun sw => (Return tt, (s, snd sw)).

(** Run an in-place computation on a spec held in a local variable. *)
Definition on_spec {A : Type} (spec : dict value) (c : SM A)
  : M world (A * dict value) :=
  fun w =>
    match c (spec, w) with
    | (Return a, (spec', w')) => (Return (a, spec'), w')
    | (Raise e, (_, w')) => (Raise e, w')
    end.

(** ** External collaborators *)

(** [prop_objects.PropObjects]: expansion of the special enums. *)
Class PropObjects : Type := {
  get_bin : string -> value;
  get_scale : string -> value
}.

Record Field : Type := mkField { field_name : string; field_type : string }.
Definition Data : Type := list Field.

(** [draco.spec.Query], [draco.spec.Task] and [draco.generation.helper.is_valid]. *)
Class Oracle : Type := {
  Query : Type;
  from_vegalite : dict value -> Query;
  is_valid : Data * Query -> bool
}.

Definition get_world : M world world := fun w => (Return w, w).
Definition set_curr_enums (e : dict (list string)) : M world unit :=
  fun w => (Return tt, mkWorld (rng w) e (curr_probs w) (heap w)).
Definition set_curr_probs (p : dict (list Q)) : M world unit :=
  fun w => (Return tt, mkWorld (rng w) (curr_enums w) p (heap w)).

(** [np.cumsum]. *)
Fixpoint cumsum_from (acc : Q) (l : list Q) : list Q :=
  match l with
  | [] => []
  | x :: l' => (acc + x)%Q :: cumsum_from (acc + x)%Q l'
  end.

Definition cumsum (l : list Q) : list Q :=
  match l with
  | [] => []
  | x :: l' => x :: cumsum_from x l'
  end.

Definition Qltb (x y : Q) : bool := negb (Qle_bool y x).

(** [np.searchsorted(a, v)] with the default [side='left'] on a
    non-decreasing array: the number of leading entries strictly below [v],
    that is the first index [i] with [v <= a[i]], or [len(a)]. *)
Fixpoint searchsorted (a : list Q) (v : Q) : nat :=
  match a with
  | [] => O
  | x :: a' => if Qltb x v then S (searchsorted a' v) else O
  end.

(** ** class Model *)

Module Model.

Record enum_value : Type := mkEnum {
  name : string;                  (* [x['name']] *)
  enum_probability : Q            (* [x['probability']] *)
}.

Record distribution : Type := mkDist {
  probability : Q;                (* [distributions[prop]['probability']] *)
  values : list enum_value        (* [distributions[prop]['values']] *)
}.

Record t : Type := mk {
  distributions : dict distribution;
  top_level_props : list string;  (* a set, in its iteration order *)
  encoding_props : list string;   (* a set, in its iteration order *)
  enums : dict (list string);
  probs : dict (list Q);
  enum_probs : dict (dict Q)
}.

(** [Model.__init__]. *)
Definition init (distributions : dict distribution)
    (top_level_props encoding_props : list string) : t :=
  let enums := map (fun kd => (fst kd, map name (values (snd kd)))) distributions in
  let probs :=
    map (fun kd => (fst kd, map enum_probability (values (snd kd)))) distributions in
  let enum_probs :=
    map (fun ke =>
           let prop := fst ke in
           let enums := snd ke in
           let probs := match dget prop probs with Some p => p | None => [] end in
           (prop, fold_left (fun d ep => dset (fst ep) (snd ep) d)
                            (combine enums probs) []))
        enums in
  mk distributions
     (nodup string_dec top_level_props)
     (nodup string_dec encoding_props)
     enums probs enum_probs.

(** [Model.sample] (static). *)
Definition sample {V : Type} (enums : list V) (probs : list Q) : M world (V * nat) :=
  let cumulative := cumsum probs in
  total <- item_last cumulative ;;
  choice <- uniform 0%Q total ;;
  let index := searchsorted cumulative choice in
  let index :=
    if Nat.eqb index (List.length cumulative)
    then index - 1   (* in case choice rests exactly on the upper bound *)
    else index in
  result <- item enums index ;;
  ret (result, index).

Section WithPropObjects.
Context {PO : PropObjects}.

Definition SPECIAL_ENUMS : dict (string -> value) :=
  [("bin", get_bin); ("scale", get_scale)].

(** [Model.build_value_from_enum] (static). *)
Definition build_value_from_enum (prop enum : string) : value :=
  match dget prop SPECIAL_ENUMS with
  | Some expand => expand enum
  | None => VStr enum
  end.

(** [Model.get_enums]. *)
Definition get_enums {S : Type} (m : t) (prop : string) : M S (list string) :=
  getitem prop (enums m).

(** [Model.__ready]. *)
Definition ready (m : t) : M world unit :=
  set_curr_enums (enums m) ;;; set_curr_probs (probs m).

(** [Model.__include]. *)
Definition include (m : t) (prop : string) : M world bool :=
  d <- getitem prop (distributions m) ;;
  let prob := probability d in
  u <- random ;;
  ret (Qltb u prob).

(** [Model.__sample_enum]. *)
Definition sample_enum (m : t) (prop : string) : M world string :=
  w <- get_world ;;
  enums <- getitem prop (curr_enums w) ;;
  probs <- getitem prop (curr_probs w) ;;
  ' (result, index) <- sample enums probs ;;
  (if String.eqb prop "channel" then
     match pop index enums, pop index probs with
     | Some enums', Some probs' =>
         set_curr_enums (dset prop enums' (curr_enums w)) ;;;
         set_curr_probs (dset prop probs' (curr_probs w))
     | Some enums', None =>
         set_curr_enums (dset prop enums' (curr_enums w)) ;;;
         raise IndexError
     | None, _ => raise IndexError
     end
   else ret tt) ;;;
  ret result.

(** [Model.__sample_prop]. *)
Definition sample_prop (m : t) (prop : string) : M world value :=
  enum <- sample_enum m prop ;;
  match dget prop SPECIAL_ENUMS with
  | Some expand => ret (expand enum)
  | None => ret (VStr enum)
  end.

(** [Model.__generate_enc]. *)
Definition generate_enc (m : t) : M world (dict value) :=
  foldM (fun enc prop =>
           inc <- include m prop ;;
           if inc
           then v <- sample_prop m prop ;; ret (dset prop v enc)
           else ret enc)
        (encoding_props m) [].

(** [spec['encoding'][channel] = enc]. *)
Definition set_encoding (spec : dict value) (channel : value) (enc : dict value)
  : M world (dict value) :=
  encoding <- getitem "encoding" spec ;;
  encoding <- as_dict encoding ;;
  channel <- as_str channel ;;
  ret (dset "encoding" (VDict (dset channel (VDict enc) encoding)) spec).

(** [Model.generate_spec]. *)
Definition generate_spec (m : t) (n_dimensions : nat) : M world (dict value) :=
  ready m ;;;
  let spec := [("encoding", VDict [])] in
  spec <- foldM (fun spec prop =>
                   inc <- include m prop ;;
                   if inc
                   then v <- sample_prop m prop ;; ret (dset prop v spec)
                   else ret spec)
                (top_level_props m) spec ;;
  repeatM n_dimensions
          (fun spec =>
             enc <- generate_enc m ;;
             channel <- sample_prop m "channel" ;;
             set_encoding spec channel enc)
          spec.

(** [Model.get_enc_by_channel] (static); [None] is Python's [None]. *)
Definition get_enc_by_channel (spec : dict value) (channel : string)
  : SM (option value) :=
  encoding <- getitem "encoding" spec ;;
  encoding <- as_dict encoding ;;
  ret (dget channel encoding).

(** [Model.mutate_prop]; the spec is mutated in place. *)
Definition mutate_prop (m : t) (prop enum : string) : SM unit :=
  spec <- get_spec ;;
  if mem prop (top_level_props m) then
    put_spec (dset prop (build_value_from_enum prop enum) spec)
  else
    rename <- (if String.eqb prop "channel"
               then encoding <- getitem "encoding" spec ;;
                    encoding <- as_dict encoding ;;
                    ret (negb (dmem enum encoding))
               else ret false) ;;
    if rename then
      encoding <- getitem "encoding" spec ;;
      encoding <- as_dict encoding ;;
      let used_channels := dkeys encoding in
      (* the least likely channel has the highest prob of being replaced *)
      probs <- mapM (fun x =>
                       channel_probs <- getitem "channel" (enum_probs m) ;;
                       p <- getitem x channel_probs ;;
                       ret (1 - p)%Q)
                    used_channels ;;
      ' (to_replace, _) <- lift (sample used_channels probs) ;;
      enc <- getitem to_replace spec ;;
      put_spec (ddel to_replace spec) ;;;
      spec <- get_spec ;;
      encoding <- getitem "encoding" spec ;;
      encoding <- as_dict encoding ;;
      put_spec (dset "encoding" (VDict (dset enum enc encoding)) spec)
    else if mem prop (encoding_props m) then
      encoding <- getitem "encoding" spec ;;
      encoding <- as_dict encoding ;;
      let used_channels := dkeys encoding in
      (* the most likely channel has the highest prob of being modified *)
      probs <- mapM (fun x =>
                       channel_probs <- getitem "channel" (enum_probs m) ;;
                       getitem x channel_probs)
                    used_channels ;;
      ' (to_modify, _) <- lift (sample used_channels probs) ;;
      enc <- getitem to_modify spec ;;
      enc <- as_dict enc ;;
      put_spec (dset to_modify
                     (VDict (dset prop (build_value_from_enum prop enum) enc))
                     spec)
    else
      raise (ValueError "invalid prop").

End WithPropObjects.
End Model.

(** [spec['encoding'][channel]] as an object mutated in place: the new
    contents of the encoding are written back under the same keys. *)
Definition set_enc (channel : string) (enc : dict value) : SM unit :=
  spec <- get_spec ;;
  encoding <- getitem "encoding" spec ;;
  encoding <- as_dict encoding ;;
  put_spec (dset "encoding" (VDict (dset channel (VDict enc) encoding)) spec).

(** ** class Improvements *)

Module Improvements.
Section WithPropObjects.
Context {PO : PropObjects}.

(** [Improvements.improve_aggregate] (static). *)
Definition improve_aggregate : SM unit :=
  spec <- get_spec ;;
  mark <- getitem "mark" spec ;;
  if negb (existsb (is_str mark) ["bar"; "line"; "area"]) then ret tt
  else
    (* 50% chance of adding aggregate *)
    u <- lift random ;;
    if Qltb u (1 # 2) then ret tt
    else
      x_enc <- Model.get_enc_by_channel spec "x" ;;
      y_enc <- Model.get_enc_by_channel spec "y" ;;
      match x_enc, y_enc with
      | Some x_enc, Some y_enc =>
          x_enc <- as_dict x_enc ;;
          x_type <- getitem "type" x_enc ;;
          y_enc <- as_dict y_enc ;;
          y_type <- getitem "type" y_enc ;;
          if xorb (negb (is_str x_type "quantitative"))
                  (negb (is_str y_type "quantitative"))
          then
            if is_str x_type "quantitative"
            then set_enc "x" (dset "aggregate" (VStr "mean") x_enc)
            else set_enc "y" (dset "aggregate" (VStr "mean") y_enc)
          else ret tt
      | _, _ => ret tt
      end.

(** [Improvements.improve_bar] (static). *)
Definition improve_bar : SM unit :=
  spec <- get_spec ;;
  mark <- getitem "mark" spec ;;
  if is_str mark "rect"
  then put_spec (dset "scale" (VDict [("zero", VBool true)]) spec)
  else ret tt.

(** The functions [dir(Improvements)] lists, in the order [dir] gives
    them (sorted by name). *)
Definition functions : list (SM unit) := [improve_aggregate; improve_bar].
End WithPropObjects.
End Improvements.

(** [Model.improve]: it is stated after [Improvements], the class it
    enumerates. *)
Definition Model_improve {PO : PropObjects} (m : Model.t) : SM unit :=
  let improvements := Improvements.functions in
  foldM (fun _ imp => imp) improvements tt.

(** ** Shared list objects *)

Definition ref : Type := nat.

Fixpoint update {A : Type} (i : nat) (a : A) (l : list A) : list A :=
  match i, l with
  | _, [] => []
  | O, _ :: l' => a :: l'
  | S i', x :: l' => x :: update i' a l'
  end.

(** The list a reference points to. *)
Definition read (r : ref) : M world (list string) :=
  fun w => (Return (nth r (heap w) []), w).

(** In-place replacement of the contents of a list object. *)
Definition write (r : ref) (l : list string) : M world unit :=
  fun w => (Return tt,
            mkWorld (rng w) (curr_enums w) (curr_probs w) (update r l (heap w))).

(** [l.copy()]: a new list object with the same elements. *)
Definition list_copy (r : ref) : M world ref :=
  fun w => (Return (List.length (heap w)),
            mkWorld (rng w) (curr_enums w) (curr_probs w)
                    (heap w ++ [nth r (heap w) []])%list).

(** [deepcopy(spec)]: specs are values here, so the copy is the value. *)
Definition deepcopy (spec : dict value) : dict value := spec.

(** ** class Generator *)

Module Generator.

Record definitions : Type := mkDefinitions {
  topLevelProps : list string;
  encodingProps : list string
}.

Record t : Type := mk {
  model : Model.t;
  data : Data
}.

(** [Generator.__init__]; [data_schema] lists [(name, type)] pairs. *)
Definition init (distributions : dict Model.distribution)
    (defs : definitions) (data_schema : list (string * string)) : t :=
  let top_level_props := topLevelProps defs in
  let encoding_props := encodingProps defs in
  let data_fields := map (fun x => mkField (fst x) (snd x)) data_schema in
  mk (Model.init distributions top_level_props encoding_props) data_fields.

(** One round of the loop of [Generator.__populate_field_names]. *)
Definition populate_step (counts : dict nat) (channel : string)
  : SM (dict nat) :=
  spec <- get_spec ;;
  encodings <- getitem "encoding" spec ;;
  encodings <- as_dict encodings ;;
  enc <- getitem channel encodings ;;
  enc <- as_dict enc ;;
  ty <- getitem "type" enc ;;
  ty <- as_str ty ;;
  let field_type := String.substring 0 1 ty in
  count <- getitem field_type counts ;;
  let field_name := field_type ++ str count in
  let counts := dset field_type (count + 1) counts in
  set_enc channel (dset "field" (VStr field_name) enc) ;;;
  ret counts.

(** [Generator.__populate_field_names]. *)
Definition populate_field_names : SM unit :=
  let counts := [("n", 1); ("o", 1); ("q", 1); ("t", 1)] in
  spec <- get_spec ;;
  encodings <- getitem "encoding" spec ;;
  encodings <- as_dict encodings ;;
  foldM populate_step (dkeys encodings) counts ;;;
  ret tt.

Section WithCollaborators.
Context {PO : PropObjects} {OR : Oracle}.

(** [Generator.__mutate_spec]. [props] refers to a list object that
    every level of the recursion pops from; [specs] is the output list.
    [fuel] bounds the depth of the recursion. *)
Fixpoint mutate_spec (fuel : nat) (g : t) (base_spec : dict value)
    (props : ref) (specs : list (dict value)) : M world (list (dict value)) :=
  match fuel with
  | O => raise RecursionError
  | S fuel' =>
      remaining <- read props ;;
      match remaining with
      | [] =>
          ' (_, base_spec) <- on_spec base_spec populate_field_names ;;
          let query := from_vegalite base_spec in
          ' (_, base_spec) <- on_spec base_spec (Model_improve (model g)) ;;
          if is_valid (data g, query)
          then ret (specs ++ [base_spec])%list
          else ret specs
      | prop_to_mutate :: rest =>
          write props rest ;;;
          enums <- Model.get_enums (model g) prop_to_mutate ;;
          foldM (fun specs enum =>
                   let spec := deepcopy base_spec in
                   ' (_, spec) <- on_spec spec
                       (Model.mutate_prop (model g) prop_to_mutate enum) ;;
                   mutate_spec fuel' g spec props specs)
                enums specs
      end
  end.

(** [Generator.generate_interaction]. [props] is the caller's list
    object. The recursion is at most one level deeper than the number of
    props, which is the fuel handed to [mutate_spec]. *)
Definition generate_interaction (g : t) (props : ref) (dimensions : nat)
  : M world (list (dict value)) :=
  base_spec <- Model.generate_spec (model g) dimensions ;;
  let specs := [] in
  props_copy <- list_copy props ;;
  remaining <- read props_copy ;;
  mutate_spec (S (List.length remaining)) g base_spec props_copy specs.

End WithCollaborators.
End Generator.

(** * Vocabulary of the properties *)

(** The world after one draw was consumed. *)
Definition advance (w : world) : world :=
  mkWorld (fun n => rng w (S n)) (curr_enums w) (curr_probs w) (heap w).

(** The baseline popularity of a channel, [self.enum_probs['channel'][x]]. *)
Definition popularity (m : Model.t) (x : string) : option Q :=
  match dget "channel" (Model.enum_probs m) with
  | Some channel_probs => dget x channel_probs
  | None => None
  end.

Definition popularity_or_0 (m : Model.t) (x : string) : Q :=
  match popularity m x with Some p => p | None => 0%Q end.

(** The type code of an encoding: the first letter of its ['type']. *)
Definition type_code (enc : value) : option string :=
  match enc with
  | VDict d =>
      match dget "type" d with
      | Some (VStr ty) => Some (String.substring 0 1 ty)
      | _ => None
      end
  | _ => None
  end.

(** After the spec: one counter per type code, each starting at 1 and
    increasing in key order; [seen] lists the codes of the earlier keys. *)
Fixpoint name_fields (seen codes : list string) : list string :=
  match codes with
  | [] => []
  | code :: rest =>
      (code ++ str (1 + count_occ string_dec seen code))
        :: name_fields (code :: seen) rest
  end.

(** After the spec: the encoding map with [field] written on every entry. *)
Fixpoint with_fields (encodings : dict value) (names : list string) : dict value :=
  match encodings, names with
  | (channel, VDict enc) :: rest, field :: names' =>
      (channel, VDict (dset "field" (VStr field) enc)) :: with_fields rest names'
  | _, _ => encodings
  end.

Definition type_codes (encodings : dict value) : list string :=
  flat_map (fun kv => match type_code (snd kv) with Some c => [c] | None => [] end)
           encodings.

(** Every encoding is a dict with a string ['type'] in one of the four
    categories nominal, ordinal, quantitative, temporal. *)
Definition typed (encodings : dict value) : Prop :=
  forall channel enc, In (channel, enc) encodings ->
    exists code, type_code enc = Some code /\ In code ["n"; "o"; "q"; "t"].

(** The counters of [populate_field_names] after the keys in [seen]. *)
Definition counts_after (counts : dict nat) (seen : list string) : Prop :=
  dkeys counts = ["n"; "o"; "q"; "t"]
  /\ forall code, In code ["n"; "o"; "q"; "t"] ->
       dget code counts = Some (1 + count_occ string_dec seen code).

(** The shape of an encoding map: its keys in order, each with its type code. *)
Definition shape (encodings : dict value) : list (string * option string) :=
  map (fun kv => (fst kv, type_code (snd kv))) encodings.

(** The field names an encoding map carries, key by key. *)
Definition assigned (encodings : dict value) : list (string * string) :=
  flat_map (fun kv =>
              match snd kv with
              | VDict enc =>
                  match dget "field" enc with
                  | Some (VStr field) => [(fst kv, field)]
                  | _ => []
                  end
              | _ => []
              end)
           encodings.

(** [c] relates every start state to its end state by [R], whatever the
    outcome, and never exceeds the recursion bound. *)
Definition framed {S A : Type} (R : S -> S -> Prop) (c : M S A) : Prop :=
  forall s, R s (snd (c s)) /\ fst (c s) <> Raise RecursionError.

(** The state is left as it is. *)
Definition unchanged {S : Type} (s s' : S) : Prop := s' = s.

(** The store of shared lists is left as it is. *)
Definition same_heap (w w' : world) : Prop := heap w' = heap w.
Definition same_heap_spec (sw sw' : dict value * world) : Prop :=
  heap (snd sw') = heap (snd sw).

(** Only the list object [props] is written, and it only gets shorter. *)
Definition only_shrinks (props : ref) (w w' : world) : Prop :=
  List.length (heap w') = List.length (heap w)
  /\ (forall r, r <> props -> nth r (heap w') [] = nth r (heap w) [])
  /\ List.length (nth props (heap w') []) <= List.length (nth props (heap w) []).

(** The outcome of a computation started in [w]: within the recursion
    bound, and only the list [props] was shortened. *)
Definition within {A : Type} (props : ref) (w : world) (r : result A * world) : Prop :=
  only_shrinks props w (snd r) /\ fst r <> Raise RecursionError.

(** The leaf case and the loop of [mutate_spec], as the code has them. *)
Definition leaf {PO : PropObjects} {OR : Oracle} (g : Generator.t)
    (base_spec : dict value) (specs : list (dict value))
  : M world (list (dict value)) :=
  bind (on_spec base_spec Generator.populate_field_names)
    (fun x => let (_, base_spec) := x in
       let query := from_vegalite base_spec in
       bind (on_spec base_spec (Model_improve (Generator.model g)))
         (fun x0 => let (_, base_spec0) := x0 in
            if is_valid (Generator.data g, query)
            then ret (specs ++ [base_spec0])%list
            else ret specs)).

Definition branches {PO : PropObjects} {OR : Oracle} (g : Generator.t)
    (fuel : nat) (base_spec : dict value) (props : ref)
    (prop_to_mutate : string) (enums : list string) (specs : list (dict value))
  : M world (list (dict value)) :=
  foldM (fun specs enum =>
           bind (on_spec (deepcopy base_spec)
                   (Model.mutate_prop (Generator.model g) prop_to_mutate enum))
             (fun x => let (_, spec) := x in
                Generator.mutate_spec fuel g spec props specs))
        enums specs.

(** A property with an entry in the distribution table and at least one
    declared value. *)
Definition declared (ds : dict Model.distribution) (prop : string) : Prop :=
  exists d, dget prop ds = Some d /\ Model.values d <> [].

(** The channel values the distribution table declares. *)
Definition channel_enums (ds : dict Model.distribution) : list string :=
  match dget "channel" ds with
  | Some d => map Model.name (Model.values d)
  | None => []
  end.

(** The configuration [generate_spec] is written for: every top-level and
    encoding-level property can be sampled, ['channel'] is neither of them
    (it is drawn on its own, once per encoding), and no top-level property
    takes the key ['encoding'] of the spec. *)
Record well_formed (ds : dict Model.distribution) (top enc : list string) : Prop := {
  wf_declared : forall p, In p top \/ In p enc -> declared ds p;
  wf_channel_top : ~ In "channel" top;
  wf_channel_enc : ~ In "channel" enc;
  wf_encoding_top : ~ In "encoding" top
}.

(** The working pools are left as they are. *)
Definition same_pools (w w' : world) : Prop :=
  curr_enums w' = curr_enums w /\ curr_probs w' = curr_probs w.

(** The working pool of [prop] can be sampled. *)
Definition pool_ready (w : world) (prop : string) : Prop :=
  exists es ps,
    dget prop (curr_enums w) = Some es
    /\ dget prop (curr_probs w) = Some ps
    /\ es <> []
    /\ List.length es = List.length ps.

(** Every top-level and encoding-level property can be sampled. *)
Definition samplable (top enc : list string) (w : world) : Prop :=
  forall p, In p top \/ In p enc -> pool_ready w p.

(** [c] returns normally from every samplable world, leaves the pools as
    they are, and its result satisfies [Q]. *)
Definition succeeds (top enc : list string) {A : Type} (Q : A -> Prop)
    (c : M world A) : Prop :=
  forall w, samplable top enc w ->
    exists a w', c w = (Return a, w') /\ same_pools w w' /\ Q a.

(** One round of the loop over the dimensions in [generate_spec]. *)
Definition dimension {PO : PropObjects} (m : Model.t) (spec : dict value)
  : M world (dict value) :=
  bind (Model.generate_enc m)
    (fun enc =>
       bind (Model.sample_prop m "channel")
         (fun channel => Model.set_encoding spec channel enc)).

(** The channel pool of a world: the values left and their weights. *)
Definition channel_pool (w : world) (pool : list string) : Prop :=
  exists weights,
    dget "channel" (curr_enums w) = Some pool
    /\ dget "channel" (curr_probs w) = Some weights
    /\ List.length pool = List.length weights.

(** The world [generate_spec] works in once [ready] has reset the pools. *)
Definition readied (ds : dict Model.distribution) (top enc : list string)
    (w : world) : world :=
  mkWorld (rng w) (Model.enums (Model.init ds top enc))
          (Model.probs (Model.init ds top enc)) (heap w).

(** Expansion functions standing for [prop_objects.PropObjects]. *)
Definition example_objects : PropObjects :=
  {| get_bin := fun e => VDict [("maxbins", VStr e)];
     get_scale := fun e => VDict [(e, VBool true)] |}.

(** An oracle that accepts every query: its output is the list of leaves
    before filtering. The query of a spec is the spec itself. *)
Definition accept_all : Oracle :=
  {| Query := dict value;
     from_vegalite := fun spec => spec;
     is_valid := fun _ => true |}.

(** An oracle that rejects every query with a top-level ['scale']. *)
Definition reject_scale : Oracle :=
  {| Query := dict value;
     from_vegalite := fun spec => spec;
     is_valid := fun task => negb (dmem "scale" (snd task)) |}.

(** An oracle that rejects every query with an aggregate on an encoding. *)
Definition has_aggregate (spec : dict value) : bool :=
  match dget "encoding" spec with
  | Some (VDict encodings) =>
      existsb (fun kv => match snd kv with
                         | VDict enc => dmem "aggregate" enc
                         | _ => false
                         end)
              encodings
  | _ => false
  end.

Definition reject_aggregate : Oracle :=
  {| Query := dict value;
     from_vegalite := fun spec => spec;
     is_valid := fun task => negb (has_aggregate (snd task)) |}.

(** The distributions of the end-to-end scenario, with a second top-level
    property. *)
Definition example_distributions : dict Model.distribution :=
  [("mark", Model.mkDist 1 [Model.mkEnum "bar" (1 # 2); Model.mkEnum "point" (1 # 2)]);
   ("orient", Model.mkDist 1 [Model.mkEnum "horizontal" (1 # 2);
                              Model.mkEnum "vertical" (1 # 2)]);
   ("channel", Model.mkDist 1 [Model.mkEnum "x" (3 # 5); Model.mkEnum "y" (2 # 5)]);
   ("type", Model.mkDist 1 [Model.mkEnum "quantitative" 1])].

Definition example_generator : Generator.t :=
  Generator.init example_distributions
                 (Generator.mkDefinitions ["mark"; "orient"] ["type"])
                 [("a", "number")].

Definition example_model : Model.t := Generator.model example_generator.

(** Distributions whose only mark is [rect]. *)
Definition rect_generator : Generator.t :=
  Generator.init
    [("mark", Model.mkDist 1 [Model.mkEnum "rect" 1]);
     ("channel", Model.mkDist 1 [Model.mkEnum "x" (3 # 5); Model.mkEnum "y" (2 # 5)]);
     ("type", Model.mkDist 1 [Model.mkEnum "quantitative" 1])]
    (Generator.mkDefinitions ["mark"] ["type"])
    [("a", "number")].

(** Distributions whose only mark is [bar], with two types. *)
Definition bar_generator : Generator.t :=
  Generator.init
    [("mark", Model.mkDist 1 [Model.mkEnum "bar" 1]);
     ("channel", Model.mkDist 1 [Model.mkEnum "x" (3 # 5); Model.mkEnum "y" (2 # 5)]);
     ("type", Model.mkDist 1 [Model.mkEnum "quantitative" (1 # 2);
                              Model.mkEnum "nominal" (1 # 2)])]
    (Generator.mkDefinitions ["mark"] ["type"])
    [("a", "number")].

(** Draws that make [generate_spec(2)] put a quantitative encoding on [x]
    and a nominal one on [y] (draw 6 picks the type of the second encoding)
    and that let the aggregate heuristic act (draw 8 is its coin). *)
Definition bar_world : world :=
  mkWorld (fun n => if Nat.eqb n 6 || Nat.eqb n 8 then (3 # 4)%Q else 0%Q) [] [] [[]].

(** A world whose draws are all [u] and whose store holds the given lists. *)
Definition example_world (u : Q) (lists : list (list string)) : world :=
  mkWorld (fun _ => u) [] [] lists.

Definition example_spec : dict value :=
  [("mark", VStr "bar");
   ("encoding", VDict [("x", VDict [("type", VStr "quantitative")])])].

(** The number of leaves of an exhaustive cross-product over [props]. *)
Definition cross_product_size (m : Model.t) (props : list string) : nat :=
  fold_right (fun p acc =>
                match dget p (Model.enums m) with
                | Some enums => List.length enums * acc
                | None => 0
                end)
             1 props.

(** Two specs with the same channels and types, in different worlds and
    with different marks and aggregates. *)
Definition shaped_spec (mark aggregate : string) : dict value :=
  [("mark", VStr mark);
   ("encoding",
    VDict [("x", VDict [("type", VStr "quantitative"); ("aggregate", VStr aggregate)]);
           ("color", VDict [("type", VStr "nominal")]);
           ("y", VDict [("type", VStr "quantitative")])])].

Definition shaped_encodings (aggregate : string) : dict value :=
  [("x", VDict [("type", VStr "quantitative"); ("aggregate", VStr aggregate)]);
   ("color", VDict [("type", VStr "nominal")]);
   ("y", VDict [("type", VStr "quantitative")])].

(** ** Vocabulary of the further properties *)

(** The total weight [cumulative[-1]] of a weight list, the choice
    [uniform(0, total)] for a draw [u], and the index [sample] computes
    from that choice. *)
Definition total_weight (weights : list Q) : Q :=
  match nth_error (cumsum weights) (List.length weights - 1) with
  | Some total => total
  | None => 0%Q
  end.

Definition choice (weights : list Q) (u : Q) : Q :=
  (0 + (total_weight weights - 0) * u)%Q.

Definition sample_index (weights : list Q) (u : Q) : nat :=
  let index := searchsorted (cumsum weights) (choice weights u) in
  if Nat.eqb index (List.length (cumsum weights)) then index - 1 else index.

(** The probability carried by the last declared value named [name]. *)
Fixpoint last_probability (values : list Model.enum_value) (name : string)
  : option Q :=
  match values with
  | [] => None
  | v :: rest =>
      match last_probability rest name with
      | Some p => Some p
      | None =>
          if String.eqb name (Model.name v)
          then Some (Model.enum_probability v)
          else None
      end
  end.

(** An encoding whose ['type'] is ['quantitative']. *)
Definition is_quantitative (enc : dict value) : bool :=
  match dget "type" enc with
  | Some ty => is_str ty "quantitative"
  | None => false
  end.

(** The spec with [aggregate = 'mean'] set on the encoding [enc] that the
    encoding map [encodings] holds under [channel]. *)
Definition with_mean (spec encodings : dict value) (channel : string)
    (enc : dict value) : dict value :=
  dset "encoding"
       (VDict (dset channel (VDict (dset "aggregate" (VStr "mean") enc)) encodings))
       spec.

(** The marks the aggregate heuristic applies to. *)
Definition aggregate_mark (mark : value) : bool :=
  existsb (is_str mark) ["bar"; "line"; "area"].

(** The list without its entry at index [i]. *)
Definition without {A : Type} (i : nat) (l : list A) : list A :=
  (firstn i l ++ skipn (S i) l)%list.

(** Draws as [random.random()] gives them: numbers of the half-open unit
    interval. *)
Definition fair (w : world) : Prop :=
  forall n, (0 <= rng w n)%Q /\ (rng w n < 1)%Q.

(** [c] returns normally from every state that satisfies [P], with a
    result and an end state that satisfy [Q]. *)
Definition total {S A : Type} (P : S -> Prop) (c : M S A) (Q : A -> S -> Prop)
  : Prop :=
  forall s, P s -> exists a s', c s = (Return a, s') /\ Q a s'.

(** A world with fair draws whose working pools are [E] and [W]. *)
Definition drawing (E : dict (list string)) (W : dict (list Q)) (w : world) : Prop :=
  fair w /\ curr_enums w = E /\ curr_probs w = W.

(** The working pools hold, for every top-level and encoding-level
    property, its declared values and weights. *)
Definition pools_for (ds : dict Model.distribution) (top enc : list string)
    (E : dict (list string)) (W : dict (list Q)) : Prop :=
  forall p, In p top \/ In p enc ->
    exists d, dget p ds = Some d
      /\ Model.values d <> []
      /\ dget p E = Some (map Model.name (Model.values d))
      /\ dget p W = Some (map Model.enum_probability (Model.values d)).

(** A value generation can give to [prop]: a declared value of a property
    that is included with a positive probability, expanded the way
    [build_value_from_enum] does. *)
Definition sampled {PO : PropObjects} (ds : dict Model.distribution)
    (prop : string) (v : value) : Prop :=
  exists d name,
    dget prop ds = Some d
    /\ (0 < Model.probability d)%Q
    /\ In name (map Model.name (Model.values d))
    /\ v = Model.build_value_from_enum prop name.

(** A property that is included with probability one or more. *)
Definition certain (ds : dict Model.distribution) (prop : string) : Prop :=
  exists d, dget prop ds = Some d /\ (1 <= Model.probability d)%Q.

(** What a loop over the properties [props] leaves in a dict that started
    as [init]: every entry is an entry of [init] or a sampled value of one
    of the properties, every certain property has an entry, and the other
    keys are as in [init]. *)
Definition filled {PO : PropObjects} (ds : dict Model.distribution)
    (props : list string) (init acc : dict value) : Prop :=
  (forall k v, dget k acc = Some v ->
     dget k init = Some v \/ (In k props /\ sampled ds k v))
  /\ (forall p, In p props -> certain ds p -> dget p acc <> None)
  /\ (forall k, ~ In k props -> dget k acc = dget k init).

(** A dict built from the properties [props] alone: every entry is a
    sampled value of one of them, and every certain one has an entry. *)
Definition built {PO : PropObjects} (ds : dict Model.distribution)
    (props : list string) (acc : dict value) : Prop :=
  (forall k v, dget k acc = Some v -> In k props /\ sampled ds k v)
  /\ (forall p, In p props -> certain ds p -> dget p acc <> None).

(** The loop body that [generate_spec] and [__generate_enc] share. *)
Definition include_and_sample {PO : PropObjects} (m : Model.t)
    (acc : dict value) (prop : string) : M world (dict value) :=
  bind (Model.include m prop)
    (fun inc =>
       if inc
       then bind (Model.sample_prop m prop) (fun v => ret (dset prop v acc))
       else ret acc).

(** Every encoding gets a type, and the declared types are of the four
    categories nominal, ordinal, quantitative and temporal. *)
Definition types_certain (ds : dict Model.distribution) (enc : list string) : Prop :=
  In "type" enc
  /\ exists dt,
       dget "type" ds = Some dt
       /\ (1 <= Model.probability dt)%Q
       /\ forall v, In v (Model.values dt) ->
            In (String.substring 0 1 (Model.name v)) ["n"; "o"; "q"; "t"].

(** * Properties *)

(** ** Dicts *)

Section DictFacts.
Context {V : Type}.
Implicit Types (d : dict V) (k : string) (v : V).

Lemma dget_dset_same k v d : dget k (dset k v d) = Some v.
Proof.
  induction d as [|[k' v'] d IH]; simpl.
  - now rewrite String.eqb_refl.
  - destruct (String.eqb k k') eqn:E; simpl; rewrite ?String.eqb_refl, ?E; auto.
Qed.

Lemma dget_dset_other k k' v d : k <> k' -> dget k (dset k' v d) = dget k d.
Proof.
  intros Hne. induction d as [|[k0 v0] d IH]; simpl.
  - destruct (String.eqb_spec k k'); congruence.
  - destruct (String.eqb_spec k' k0); simpl.
    + subst. destruct (String.eqb_spec k k0); congruence.
    + destruct (String.eqb_spec k k0); auto.
Qed.

Lemma dget_Some_In k v d : dget k d = Some v -> In k (dkeys d).
Proof.
  induction d as [|[k' v'] d IH]; simpl; [discriminate|].
  destruct (String.eqb_spec k k'); auto.
Qed.

Lemma dget_None_notin k d : dget k d = None <-> ~ In k (dkeys d).
Proof.
  induction d as [|[k' v'] d IH]; simpl; [tauto|].
  destruct (String.eqb_spec k k'); subst.
  - split; [discriminate | intros H; exfalso; auto].
  - rewrite IH. intuition congruence.
Qed.

Lemma dmem_In k d : dmem k d = true <-> In k (dkeys d).
Proof.
  unfold dmem. destruct (dget k d) eqn:E.
  - split; auto. intros _. eapply dget_Some_In; eauto.
  - apply dget_None_notin in E. split; [discriminate | tauto].
Qed.

(** Setting a key that is absent appends it. *)
Lemma dset_fresh k v d : ~ In k (dkeys d) -> dset k v d = (d ++ [(k, v)])%list.
Proof.
  induction d as [|[k' v'] d IH]; simpl; auto.
  intros H. destruct (String.eqb_spec k k'); [subst; tauto|].
  rewrite IH; tauto.
Qed.

(** Setting a key that is present keeps the keys and their order. *)
Lemma dkeys_dset_present k v d : In k (dkeys d) -> dkeys (dset k v d) = dkeys d.
Proof.
  induction d as [|[k' v'] d IH]; simpl; [tauto|].
  intros H. destruct (String.eqb_spec k k'); simpl; subst; auto.
  f_equal. apply IH. destruct H; congruence.
Qed.
End DictFacts.

Lemma mem_In x l : mem x l = true <-> In x l.
Proof.
  unfold mem. rewrite existsb_exists. split.
  - intros [y [Hy E]]. apply String.eqb_eq in E. now subst.
  - intros H. exists x. split; auto. apply String.eqb_refl.
Qed.

Lemma mem_false x l : mem x l = false <-> ~ In x l.
Proof.
  rewrite <- mem_In. destruct (mem x l); split; congruence.
Qed.

(** ** The weighted sampler *)

Lemma cumsum_from_length acc l : List.length (cumsum_from acc l) = List.length l.
Proof. revert acc. induction l; simpl; auto. Qed.

Lemma cumsum_length l : List.length (cumsum l) = List.length l.
Proof. destruct l; simpl; auto using cumsum_from_length. Qed.

Lemma searchsorted_le a v : searchsorted a v <= List.length a.
Proof. induction a; simpl; [lia|]. destruct (Qltb a v); simpl; lia. Qed.

(** On lists of equal positive length [sample] consumes one draw and
    returns a valid index together with the value stored there. *)
Lemma sample_ok {V : Type} (enums : list V) (probs : list Q) (w : world) :
  enums <> [] ->
  List.length enums = List.length probs ->
  exists v i,
    Model.sample enums probs w = (Return (v, i), advance w)
    /\ i < List.length enums
    /\ nth_error enums i = Some v.
Proof.
  intros Hne Hlen.
  assert (Hpos : 0 < List.length enums) by (destruct enums; simpl; [congruence | lia]).
  unfold Model.sample, item_last, item, uniform, random, bind, ret.
  pose proof (cumsum_length probs) as Hc.
  destruct (nth_error (cumsum probs) (List.length (cumsum probs) - 1)) as [total|] eqn:Et.
  2:{ apply nth_error_None in Et. lia. }
  cbv beta iota.
  set (choice := (0 + (total - 0) * rng w 0)%Q).
  set (index := if Nat.eqb _ _ then _ else _).
  assert (Hidx : index < List.length enums).
  { subst index. pose proof (searchsorted_le (cumsum probs) choice) as Hs.
    destruct (Nat.eqb_spec (searchsorted (cumsum probs) choice)
                           (List.length (cumsum probs))); lia. }
  destruct (nth_error enums index) as [v|] eqn:Ev.
  2:{ apply nth_error_None in Ev. lia. }
  exists v, index. auto.
Qed.

(** The sampler fails on an empty weight list, before any draw. *)
Lemma sample_empty {V : Type} (enums : list V) (w : world) :
  Model.sample enums [] w = (Raise IndexError, w).
Proof. reflexivity. Qed.

Lemma Qltb_false x y : Qltb x y = false <-> (y <= x)%Q.
Proof. unfold Qltb. rewrite negb_false_iff. apply Qle_bool_iff. Qed.

Lemma Qltb_true x y : Qltb x y = true <-> (x < y)%Q.
Proof.
  unfold Qltb. rewrite negb_true_iff, <- not_true_iff_false, Qle_bool_iff.
  split; [apply Qnot_le_lt | apply Qlt_not_le].
Qed.

Lemma cumsum_from_ge acc l :
  (forall p, In p l -> (0 <= p)%Q) ->
  forall x, In x (cumsum_from acc l) -> (acc <= x)%Q.
Proof.
  revert acc. induction l as [|p l IH]; simpl; intros acc Hnn x Hx; [tauto|].
  assert (0 <= p)%Q by auto.
  destruct Hx as [<-|Hx]; [lra|].
  apply IH in Hx; auto. lra.
Qed.

(** With non-negative weights the running sums are non-decreasing: the
    array handed to [searchsorted] is sorted, as its contract requires. *)
Lemma cumsum_from_sorted acc l :
  (forall p, In p l -> (0 <= p)%Q) -> StronglySorted Qle (cumsum_from acc l).
Proof.
  revert acc. induction l as [|p l IH]; simpl; intros acc Hnn; constructor.
  - apply IH. auto.
  - apply Forall_forall. intros x Hx. apply cumsum_from_ge in Hx; auto.
Qed.

Lemma cumsum_sorted l :
  (forall p, In p l -> (0 <= p)%Q) -> StronglySorted Qle (cumsum l).
Proof.
  destruct l as [|p l]; simpl; intros Hnn; constructor.
  - apply cumsum_from_sorted. auto.
  - apply Forall_forall. intros x Hx. apply cumsum_from_ge in Hx; auto.
Qed.

(** With non-negative weights the last running sum dominates every weight. *)
Lemma cumsum_from_last_ge acc l p total :
  (forall q, In q l -> (0 <= q)%Q) ->
  In p l ->
  nth_error (cumsum_from acc l) (List.length l - 1) = Some total ->
  (acc + p <= total)%Q.
Proof.
  revert acc. induction l as [|q l IH]; simpl; intros acc Hnn Hp Ht; [tauto|].
  assert (Hq : (0 <= q)%Q) by auto.
  destruct l as [|q' l].
  - simpl in *. destruct Hp as [->|[]]. injection Ht as <-. lra.
  - replace (List.length (q' :: l) - 0) with (S (List.length (q' :: l) - 1)) in Ht
      by (simpl; lia).
    cbn [nth_error] in Ht.
    destruct Hp as [->|Hp].
    + apply nth_error_In in Ht. apply cumsum_from_ge in Ht; auto.
    + apply IH in Ht; auto. lra.
Qed.

Lemma cumsum_last_ge l p total :
  (forall q, In q l -> (0 <= q)%Q) ->
  In p l ->
  nth_error (cumsum l) (List.length l - 1) = Some total ->
  (p <= total)%Q.
Proof.
  destruct l as [|q l]; simpl; intros Hnn Hp Ht; [tauto|].
  assert (Hq : (0 <= q)%Q) by auto.
  destruct l as [|q' l].
  - simpl in *. destruct Hp as [->|[]]. injection Ht as <-. lra.
  - replace (List.length (q' :: l) - 0) with (S (List.length (q' :: l) - 1)) in Ht
      by (simpl; lia).
    cbn [nth_error] in Ht.
    destruct Hp as [->|Hp].
    + apply nth_error_In in Ht. apply cumsum_from_ge in Ht; auto.
    + apply cumsum_from_last_ge with (p := p) in Ht; auto. lra.
Qed.

(** The entry [searchsorted] stops at reaches [v]; the ones before do not. *)
Lemma searchsorted_reaches a v x :
  nth_error a (searchsorted a v) = Some x -> (v <= x)%Q.
Proof.
  induction a as [|y a IH]; simpl; [discriminate|].
  destruct (Qltb y v) eqn:E; simpl; auto.
  intros [= <-]. now apply Qltb_false.
Qed.

Lemma searchsorted_below a v j x :
  j < searchsorted a v -> nth_error a j = Some x -> (x < v)%Q.
Proof.
  revert j. induction a as [|y a IH]; simpl; intros j Hj; [lia|].
  destruct (Qltb y v) eqn:E; [|lia].
  destruct j; simpl.
  - intros [= <-]. now apply Qltb_true.
  - apply IH. lia.
Qed.

(** A draw that does not exceed the last entry is found inside the array. *)
Lemma searchsorted_inside a v total :
  nth_error a (List.length a - 1) = Some total -> (v <= total)%Q ->
  searchsorted a v < List.length a.
Proof.
  intros Ht Hv.
  pose proof (searchsorted_le a v) as Hle.
  destruct (Nat.eq_dec (searchsorted a v) (List.length a)) as [E|]; [|lia].
  assert (Hlen : 0 < List.length a) by (destruct a; simpl in *; [discriminate | lia]).
  assert (total < v)%Q.
  { apply (searchsorted_below a v (List.length a - 1)); auto. lia. }
  lra.
Qed.

(** C8. For a non-empty value list with weights of the same length, all
    non-negative and one of them positive, and a draw [u] in [0, 1] (so that
    the uniform choice lies in [0, total], the upper bound included),
    [Model.sample] returns normally an index [i] with [0 <= i < len(values)]
    together with [values[i]]. The total weight is positive, the choice does
    not exceed it, and the cumulative weight at the returned index reaches
    the choice: also at the upper bound the index stays inside the list. *)
Theorem sample_index_in_range {V : Type} (values : list V) (weights : list Q)
    (w : world) :
  values <> [] ->
  List.length values = List.length weights ->
  (forall p, In p weights -> (0 <= p)%Q) ->
  (exists p, In p weights /\ (0 < p)%Q) ->
  (0 <= rng w 0 <= 1)%Q ->
  exists v i total c,
    Model.sample values weights w = (Return (v, i), advance w)
    /\ i < List.length values
    /\ nth_error values i = Some v
    /\ nth_error (cumsum weights) (List.length weights - 1) = Some total
    /\ (0 < total)%Q
    /\ (0 + (total - 0) * rng w 0 <= total)%Q
    /\ nth_error (cumsum weights) i = Some c
    /\ (0 + (total - 0) * rng w 0 <= c)%Q.
Proof.
  intros Hne Hlen Hnn (p & Hp & Hpos) Hu.
  assert (Hl : 0 < List.length weights)
    by (destruct values; simpl in *; [congruence | lia]).
  pose proof (cumsum_length weights) as Hc.
  destruct (nth_error (cumsum weights) (List.length weights - 1)) as [total|] eqn:Et.
  2:{ apply nth_error_None in Et. lia. }
  assert (Htot : (0 < total)%Q).
  { pose proof (cumsum_last_ge weights p total Hnn Hp Et). lra. }
  set (choice := (0 + (total - 0) * rng w 0)%Q).
  assert (Hch : (choice <= total)%Q) by (subst choice; nra).
  assert (Hin : searchsorted (cumsum weights) choice < List.length (cumsum weights)).
  { apply searchsorted_inside with (total := total); auto. now rewrite Hc. }
  destruct (nth_error (cumsum weights) (searchsorted (cumsum weights) choice))
    as [c|] eqn:Ec.
  2:{ apply nth_error_None in Ec. lia. }
  destruct (nth_error values (searchsorted (cumsum weights) choice)) as [v|] eqn:Ev.
  2:{ apply nth_error_None in Ev. lia. }
  exists v, (searchsorted (cumsum weights) choice), total, c.
  repeat split; auto; try lia.
  - unfold Model.sample, item_last, item, uniform, random, bind, ret.
    rewrite Hc, Et. cbv beta iota. fold choice.
    destruct (Nat.eqb_spec (searchsorted (cumsum weights) choice)
                           (List.length weights)); [lia|].
    now rewrite Ev.
  - apply searchsorted_reaches with (a := cumsum weights); auto.
Qed.

(** The draw that lands exactly on the total weight of [[3/5; 2/5]]. *)
Lemma sample_index_in_range_witness :
  exists v i total c,
    Model.sample ["x"; "y"] [3 # 5; 2 # 5]%Q (mkWorld (fun _ => 1%Q) [] [] [])
    = (Return (v, i), advance (mkWorld (fun _ => 1%Q) [] [] []))
    /\ i < 2
    /\ nth_error ["x"; "y"] i = Some v
    /\ nth_error (cumsum [3 # 5; 2 # 5]%Q) 1 = Some total
    /\ (0 < total)%Q
    /\ (0 + (total - 0) * 1 <= total)%Q
    /\ nth_error (cumsum [3 # 5; 2 # 5]%Q) i = Some c
    /\ (0 + (total - 0) * 1 <= c)%Q.
Proof.
  apply (sample_index_in_range ["x"; "y"] [3 # 5; 2 # 5]%Q
                               (mkWorld (fun _ => 1%Q) [] [] [])).
  - discriminate.
  - reflexivity.
  - simpl. intros p [<-|[<-|[]]]; vm_compute; discriminate.
  - exists (3 # 5)%Q. split; [simpl; auto | reflexivity].
  - split; vm_compute; discriminate.
Defined.

(** ** Running monadic code *)

Lemma bind_Return {S A B : Type} (c : M S A) (k : A -> M S B) s a s' :
  c s = (Return a, s') -> bind c k s = k a s'.
Proof. unfold bind. now intros ->. Qed.

Lemma getitem_Some {S V : Type} k (d : dict V) v (s : S) :
  dget k d = Some v -> getitem k d s = (Return v, s).
Proof. unfold getitem. now intros ->. Qed.

Lemma mapM_pure {S A B : Type} (f : A -> M S B) (g : A -> B) l (s : S) :
  (forall x, In x l -> f x s = (Return (g x), s)) ->
  mapM f l s = (Return (map g l), s).
Proof.
  induction l as [|x l IH]; simpl; intros H; auto.
  rewrite (bind_Return _ _ _ _ _ (H x (or_introl eq_refl))).
  rewrite (bind_Return _ _ _ _ _ (IH (fun y Hy => H y (or_intror Hy)))).
  reflexivity.
Qed.

(** Case analysis on the outcome of the first computation of a [bind]. *)
Lemma bind_cases {S A B : Type} (c : M S A) (k : A -> M S B) (s : S)
    (P : result B * S -> Prop) :
  (forall a s', c s = (Return a, s') -> P (k a s')) ->
  (forall e s', c s = (Raise e, s') -> P (Raise e, s')) ->
  P (bind c k s).
Proof.
  intros HR HE. unfold bind. destruct (c s) as [[a|e] s']; auto.
Qed.

Lemma lift_sample_ok (enums : list string) (probs : list Q) spec w :
  enums <> [] ->
  List.length enums = List.length probs ->
  exists v i,
    lift (Model.sample enums probs) (spec, w) = (Return (v, i), (spec, advance w))
    /\ In v enums.
Proof.
  intros Hne Hlen.
  destruct (sample_ok enums probs w Hne Hlen) as (v & i & E & _ & Hv).
  exists v, i. unfold lift. simpl. rewrite E. split; auto.
  eapply nth_error_In; eauto.
Qed.

(** ** Field names *)

Lemma counts_after_step counts seen code :
  counts_after counts seen ->
  In code ["n"; "o"; "q"; "t"] ->
  counts_after (dset code (1 + count_occ string_dec seen code + 1) counts)
               (code :: seen).
Proof.
  intros [Hk Hc] Hin. split.
  - rewrite dkeys_dset_present; auto. now rewrite Hk.
  - intros c Hcin. destruct (string_dec c code) as [->|Hne].
    + rewrite dget_dset_same. simpl.
      destruct (string_dec code code); [f_equal; lia | congruence].
    + rewrite dget_dset_other; auto. rewrite Hc; auto. simpl.
      destruct (string_dec code c); congruence.
Qed.

Lemma dget_app_here {V : Type} k (v : V) done rest :
  ~ In k (dkeys done) -> dget k (done ++ (k, v) :: rest)%list = Some v.
Proof.
  induction done as [|[k' v'] done IH]; simpl; intros H.
  - now rewrite String.eqb_refl.
  - destruct (String.eqb_spec k k'); [subst; tauto|]. apply IH. tauto.
Qed.

Lemma dset_app_here {V : Type} k (v v0 : V) done rest :
  ~ In k (dkeys done) ->
  dset k v (done ++ (k, v0) :: rest)%list = (done ++ (k, v) :: rest)%list.
Proof.
  induction done as [|[k' v'] done IH]; simpl; intros H.
  - now rewrite String.eqb_refl.
  - destruct (String.eqb_spec k k'); [subst; tauto|]. rewrite IH; tauto.
Qed.

Lemma dset_dset_same {V : Type} k (v v' : V) d :
  dset k v (dset k v' d) = dset k v d.
Proof.
  induction d as [|[k0 v0] d IH]; simpl.
  - now rewrite String.eqb_refl.
  - destruct (String.eqb k k0) eqn:E; simpl; rewrite ?String.eqb_refl, ?E; auto.
    now rewrite IH.
Qed.

Lemma dset_dget_same {V : Type} k (v : V) d :
  dget k d = Some v -> dset k v d = d.
Proof.
  induction d as [|[k0 v0] d IH]; simpl; [discriminate|].
  destruct (String.eqb_spec k k0).
  - intros [= ->]. now subst.
  - intros H. now rewrite IH.
Qed.

(** The loop of [populate_field_names], started after the entries [done]
    with the entries [todo] still to come. *)
Lemma populate_loop todo : forall done seen counts spec w,
  NoDup (dkeys (done ++ todo)%list) ->
  typed todo ->
  counts_after counts seen ->
  dget "encoding" spec = Some (VDict (done ++ todo)%list) ->
  exists counts',
    foldM Generator.populate_step (dkeys todo) counts (spec, w)
    = (Return counts',
       (dset "encoding"
             (VDict (done ++ with_fields todo (name_fields seen (type_codes todo)))%list)
             spec, w)).
Proof.
  induction todo as [|[channel enc] todo IH]; intros done seen counts spec w Hnd Hty Hc Hget.
  - exists counts. simpl. unfold ret. rewrite dset_dget_same; auto.
  - destruct (Hty channel enc (or_introl eq_refl)) as (code & Hcode & Hin).
    assert (Hfresh : ~ In channel (dkeys done)).
    { unfold dkeys in *. rewrite map_app in Hnd. simpl in Hnd.
      apply NoDup_remove_2 in Hnd. rewrite in_app_iff in Hnd. tauto. }
    unfold type_code in Hcode. destruct enc as [| |d]; try discriminate.
    destruct (dget "type" d) as [[ty| |]|] eqn:Ety; try discriminate.
    injection Hcode as Hcode.
    destruct Hc as [Hk Hcnt]. pose proof (Hcnt code Hin) as Hcount.
    set (field := code ++ str (1 + count_occ string_dec seen code)).
    set (enc' := dset "field" (VStr field) d).
    set (spec' := dset "encoding" (VDict (done ++ (channel, VDict enc') :: todo)%list) spec).
    destruct (IH (done ++ [(channel, VDict enc')])%list (code :: seen)
                 (dset code (1 + count_occ string_dec seen code + 1) counts)
                 spec' w) as (counts' & E).
    + rewrite <- app_assoc. simpl. unfold dkeys in *.
      rewrite map_app in *. exact Hnd.
    + intros c e Hce. apply (Hty c e). now right.
    + apply counts_after_step; [split|]; auto.
    + subst spec'. rewrite dget_dset_same. now rewrite <- app_assoc.
    + exists counts'.
      cbn [dkeys map fst foldM].
      unfold bind at 1. 
      assert (Estep : Generator.populate_step counts channel (spec, w)
                      = (Return (dset code (1 + count_occ string_dec seen code + 1) counts),
                         (spec', w))).
      { unfold Generator.populate_step, set_enc, get_spec, put_spec, bind, getitem,
          as_dict, as_str. cbn [fst snd]. rewrite Hget. cbn [ret].
        rewrite (dget_app_here channel (VDict d) done todo Hfresh). cbn [ret].
        rewrite Ety. cbn [ret]. rewrite Hcode, Hcount. cbn [ret fst snd].
        rewrite Hget. cbn [ret fst snd].
        rewrite (dset_app_here channel _ (VDict d) done todo Hfresh).
        reflexivity. }
      rewrite Estep. fold (dkeys todo). rewrite E. subst spec'.
      rewrite dset_dset_same. rewrite <- app_assoc.
      cbn [type_codes flat_map snd type_code with_fields app].
      rewrite Ety, Hcode. cbn [app name_fields with_fields]. reflexivity.
Qed.

Lemma type_codes_shape e1 e2 : shape e1 = shape e2 -> type_codes e1 = type_codes e2.
Proof.
  revert e2. induction e1 as [|[k1 v1] e1 IH]; intros [|[k2 v2] e2]; simpl;
    try discriminate; auto.
  intros [= _ Hc Hs]. unfold type_codes in *. simpl. rewrite Hc.
  f_equal. now apply IH.
Qed.

Lemma dkeys_shape e1 e2 : shape e1 = shape e2 -> dkeys e1 = dkeys e2.
Proof.
  intros H. apply (f_equal (map fst)) in H. unfold shape in H.
  rewrite !map_map in H. exact H.
Qed.

Lemma typed_tail kv e : typed (kv :: e) -> typed e.
Proof. intros H c v Hin. apply (H c v). now right. Qed.

Lemma assigned_with_fields e : forall seen,
  typed e ->
  assigned (with_fields e (name_fields seen (type_codes e)))
  = combine (dkeys e) (name_fields seen (type_codes e)).
Proof.
  induction e as [|[channel enc] e IH]; intros seen Hty; [reflexivity|].
  destruct (Hty channel enc (or_introl eq_refl)) as (code & Hcode & _).
  unfold type_codes. cbn [flat_map snd]. rewrite Hcode.
  destruct enc as [| |d]; try discriminate.
  cbn [app name_fields with_fields assigned flat_map snd fst dkeys map combine].
  rewrite dget_dset_same. cbn [app]. f_equal.
  apply IH. eapply typed_tail; eauto.
Qed.

(** C9. Field-name assignment is a function of the key order and the types
    of the encoding map: on a spec whose encodings all carry a type in one of
    the four categories, [populate_field_names] returns normally, leaves the
    rest of the spec and the random generator alone, and writes on the
    encodings, in key order, the names [name_fields [] codes]: the type code
    followed by a per-code counter that starts at 1. Two encoding maps of the
    same shape therefore receive the same field names. *)
Theorem populate_field_names_deterministic spec1 spec2 e1 e2 w1 w2 :
  dget "encoding" spec1 = Some (VDict e1) ->
  dget "encoding" spec2 = Some (VDict e2) ->
  NoDup (dkeys e1) ->
  typed e1 ->
  typed e2 ->
  shape e1 = shape e2 ->
  let names := name_fields [] (type_codes e1) in
  Generator.populate_field_names (spec1, w1)
  = (Return tt, (dset "encoding" (VDict (with_fields e1 names)) spec1, w1))
  /\ Generator.populate_field_names (spec2, w2)
     = (Return tt, (dset "encoding" (VDict (with_fields e2 names)) spec2, w2))
  /\ assigned (with_fields e1 names) = combine (dkeys e1) names
  /\ assigned (with_fields e2 names) = assigned (with_fields e1 names).
Proof.
  intros H1 H2 Hnd Ht1 Ht2 Hs names.
  assert (Hnd2 : NoDup (dkeys e2)) by (now rewrite <- (dkeys_shape _ _ Hs)).
  assert (Hrun : forall spec e w,
             dget "encoding" spec = Some (VDict e) -> NoDup (dkeys e) -> typed e ->
             Generator.populate_field_names (spec, w)
             = (Return tt,
                (dset "encoding"
                      (VDict (with_fields e (name_fields [] (type_codes e)))) spec, w))).
  { intros spec e w Hget Hn Ht.
    destruct (populate_loop e [] [] [("n", 1); ("o", 1); ("q", 1); ("t", 1)] spec w)
      as (counts' & E); auto.
    { split; [reflexivity|]. intros code Hc. simpl in Hc.
      destruct Hc as [<-|[<-|[<-|[<-|[]]]]]; reflexivity. }
    unfold Generator.populate_field_names, get_spec, bind, getitem, as_dict.
    cbn [fst snd]. rewrite Hget. cbn [ret]. rewrite E. reflexivity. }
  repeat split.
  - now apply Hrun.
  - subst names. rewrite (type_codes_shape _ _ Hs). now apply Hrun.
  - now apply assigned_with_fields.
  - subst names. rewrite assigned_with_fields; auto.
    rewrite (type_codes_shape _ _ Hs), assigned_with_fields; auto.
    now rewrite (dkeys_shape _ _ Hs).
Qed.

(** ** Frame reasoning: what a computation leaves alone *)

Section Frame.
Context {S : Type} (R : S -> S -> Prop).
Hypothesis R_refl : forall s, R s s.
Hypothesis R_trans : forall s1 s2 s3, R s1 s2 -> R s2 s3 -> R s1 s3.

Lemma framed_ret {A : Type} (a : A) : framed R (ret a).
Proof. intros s. simpl. split; [apply R_refl | discriminate]. Qed.

Lemma framed_raise {A : Type} (e : exn) :
  e <> RecursionError -> framed R (@raise S A e).
Proof. intros He s. simpl. split; [apply R_refl | congruence]. Qed.

Lemma framed_bind {A B : Type} (c : M S A) (k : A -> M S B) :
  framed R c -> (forall a, framed R (k a)) -> framed R (bind c k).
Proof.
  intros Hc Hk s. unfold bind. specialize (Hc s).
  destruct (c s) as [[a|e] s1]; simpl in Hc.
  - destruct (Hk a s1) as [H1 H2]. split; [|exact H2].
    apply R_trans with s1; [apply Hc | exact H1].
  - simpl. destruct Hc as [H1 H2]. split; [exact H1 | congruence].
Qed.

Lemma framed_foldM {A B : Type} (body : B -> A -> M S B) l :
  (forall acc x, framed R (body acc x)) -> forall acc, framed R (foldM body l acc).
Proof.
  intros Hb. induction l; simpl; intros acc.
  - apply framed_ret.
  - apply framed_bind; auto.
Qed.

Lemma framed_repeatM {B : Type} (body : B -> M S B) n :
  (forall acc, framed R (body acc)) -> forall acc, framed R (repeatM n body acc).
Proof.
  intros Hb. induction n; simpl; intros acc.
  - apply framed_ret.
  - apply framed_bind; auto.
Qed.

Lemma framed_mapM {A B : Type} (f : A -> M S B) l :
  (forall x, framed R (f x)) -> framed R (mapM f l).
Proof.
  intros Hf. induction l; simpl.
  - apply framed_ret.
  - apply framed_bind; auto. intros y. apply framed_bind; auto.
    intros ys. apply framed_ret.
Qed.

Lemma framed_getitem {V : Type} k (d : dict V) : framed R (getitem k d).
Proof.
  unfold getitem. destruct (dget k d); [apply framed_ret | now apply framed_raise].
Qed.

Lemma framed_item {A : Type} (l : list A) i : framed R (item l i).
Proof.
  unfold item. destruct (nth_error l i); [apply framed_ret | now apply framed_raise].
Qed.

Lemma framed_as_dict v : framed R (as_dict v).
Proof. destruct v; simpl; try apply framed_ret; now apply framed_raise. Qed.

Lemma framed_as_str v : framed R (as_str v).
Proof. destruct v; simpl; try apply framed_ret; now apply framed_raise. Qed.
End Frame.

Create HintDb frame.

Ltac frame_side := try solve [auto with frame | eauto 3 with frame | discriminate].

(** One structural step of a frame proof. *)
Ltac frame_step :=
  match goal with
  | |- framed _ (bind _ _) => apply framed_bind; frame_side; intros
  | |- framed _ (foldM _ _ _) => apply framed_foldM; frame_side; intros
  | |- framed _ (repeatM _ _ _) => apply framed_repeatM; frame_side; intros
  | |- framed _ (mapM _ _) => apply framed_mapM; frame_side; intros
  | |- framed _ (ret _) => apply framed_ret; frame_side
  | |- framed _ (raise _) => apply framed_raise; frame_side
  | |- framed _ (getitem _ _) => apply framed_getitem; frame_side
  | |- framed _ (item _ _) => apply framed_item; frame_side
  | |- framed _ (item_last _) => apply framed_item; frame_side
  | |- framed _ (as_dict _) => apply framed_as_dict; frame_side
  | |- framed _ (as_str _) => apply framed_as_str; frame_side
  | |- framed _ (let x := _ in _) => cbv zeta
  | |- framed _ (if ?b then _ else _) => destruct b
  | |- framed _ (match ?x with _ => _ end) => destruct x
  end.

Lemma unchanged_refl {S : Type} (s : S) : unchanged s s.
Proof. reflexivity. Qed.
Lemma unchanged_trans {S : Type} (s1 s2 s3 : S) :
  unchanged s1 s2 -> unchanged s2 s3 -> unchanged s1 s3.
Proof. unfold unchanged. congruence. Qed.

Lemma same_heap_refl w : same_heap w w.
Proof. reflexivity. Qed.
Lemma same_heap_trans w1 w2 w3 : same_heap w1 w2 -> same_heap w2 w3 -> same_heap w1 w3.
Proof. unfold same_heap. congruence. Qed.
Lemma same_heap_spec_refl sw : same_heap_spec sw sw.
Proof. reflexivity. Qed.
Lemma same_heap_spec_trans s1 s2 s3 :
  same_heap_spec s1 s2 -> same_heap_spec s2 s3 -> same_heap_spec s1 s3.
Proof. unfold same_heap_spec. congruence. Qed.

#[local] Hint Resolve unchanged_refl unchanged_trans same_heap_refl same_heap_trans
  same_heap_spec_refl same_heap_spec_trans : frame.

Lemma framed_random : framed same_heap random.
Proof. intros w. split; [reflexivity | discriminate]. Qed.

Lemma framed_get_world : framed same_heap get_world.
Proof. intros w. split; [reflexivity | discriminate]. Qed.

Lemma framed_set_curr_enums e : framed same_heap (set_curr_enums e).
Proof. intros w. split; [reflexivity | discriminate]. Qed.

Lemma framed_set_curr_probs p : framed same_heap (set_curr_probs p).
Proof. intros w. split; [reflexivity | discriminate]. Qed.

Lemma framed_get_spec : framed same_heap_spec get_spec.
Proof. intros w. split; [reflexivity | discriminate]. Qed.

Lemma framed_put_spec s : framed same_heap_spec (put_spec s).
Proof. intros w. split; [reflexivity | discriminate]. Qed.

Lemma framed_lift {A : Type} (c : M world A) :
  framed same_heap c -> framed same_heap_spec (lift c).
Proof.
  intros Hc [s w]. unfold lift. simpl. specialize (Hc w).
  destruct (c w) as [r w']. simpl in *. exact Hc.
Qed.

Lemma framed_on_spec {A : Type} spec (c : SM A) :
  framed same_heap_spec c -> framed same_heap (on_spec spec c).
Proof.
  intros Hc w. unfold on_spec. specialize (Hc (spec, w)).
  destruct (c (spec, w)) as [[a|e] [s' w']]; simpl in *;
    (split; [tauto | destruct Hc; congruence]).
Qed.

#[local] Hint Resolve framed_random framed_get_world framed_set_curr_enums
  framed_set_curr_probs framed_get_spec framed_put_spec : frame.

Ltac frame_auto :=
  repeat (first [ solve [auto with frame]
                | apply framed_lift
                | apply framed_on_spec
                | frame_step ]).

Lemma framed_uniform a b : framed same_heap (uniform a b).
Proof. unfold uniform. frame_auto. Qed.

#[local] Hint Resolve framed_uniform : frame.

Lemma framed_sample {V : Type} (enums : list V) probs :
  framed same_heap (Model.sample enums probs).
Proof. unfold Model.sample. frame_auto. Qed.

#[local] Hint Resolve framed_sample : frame.

Section FrameModel.
Context {PO : PropObjects}.
Variable m : Model.t.

Lemma framed_ready : framed same_heap (Model.ready m).
Proof. unfold Model.ready. frame_auto. Qed.

Lemma framed_include prop : framed same_heap (Model.include m prop).
Proof. unfold Model.include. frame_auto. Qed.

Lemma framed_sample_enum prop : framed same_heap (Model.sample_enum m prop).
Proof. unfold Model.sample_enum. frame_auto. Qed.

Hint Resolve framed_ready framed_include framed_sample_enum : frame.

Lemma framed_sample_prop prop : framed same_heap (Model.sample_prop m prop).
Proof. unfold Model.sample_prop. frame_auto. Qed.

Hint Resolve framed_sample_prop : frame.

Lemma framed_generate_enc : framed same_heap (Model.generate_enc m).
Proof. unfold Model.generate_enc. frame_auto. Qed.

Lemma framed_set_encoding spec channel enc :
  framed same_heap (Model.set_encoding spec channel enc).
Proof. unfold Model.set_encoding. frame_auto. Qed.

Hint Resolve framed_generate_enc framed_set_encoding : frame.

Lemma framed_generate_spec n : framed same_heap (Model.generate_spec m n).
Proof. unfold Model.generate_spec. frame_auto. Qed.

Lemma framed_get_enc_by_channel spec channel :
  framed same_heap_spec (Model.get_enc_by_channel spec channel).
Proof. unfold Model.get_enc_by_channel. frame_auto. Qed.

Lemma framed_set_enc channel enc : framed same_heap_spec (set_enc channel enc).
Proof. unfold set_enc. frame_auto. Qed.

Hint Resolve framed_get_enc_by_channel framed_set_enc : frame.

Lemma framed_mutate_prop prop enum :
  framed same_heap_spec (Model.mutate_prop m prop enum).
Proof. unfold Model.mutate_prop. frame_auto. Qed.

Lemma framed_improve_aggregate : framed same_heap_spec Improvements.improve_aggregate.
Proof. unfold Improvements.improve_aggregate. frame_auto. Qed.

Lemma framed_improve_bar : framed same_heap_spec Improvements.improve_bar.
Proof. unfold Improvements.improve_bar. frame_auto. Qed.

Lemma framed_improve : framed same_heap_spec (Model_improve m).
Proof.
  unfold Model_improve, Improvements.functions. cbn [foldM].
  pose proof framed_improve_aggregate. pose proof framed_improve_bar.
  frame_auto.
Qed.

Lemma framed_populate_step counts channel :
  framed same_heap_spec (Generator.populate_step counts channel).
Proof. unfold Generator.populate_step. frame_auto. Qed.

Hint Resolve framed_populate_step : frame.

Lemma framed_populate_field_names :
  framed same_heap_spec Generator.populate_field_names.
Proof. unfold Generator.populate_field_names. frame_auto. Qed.
End FrameModel.

(** ** Mutation of one property *)

Section MutateProp.
Context {PO : PropObjects}.
Variable m : Model.t.

(** A sampled value is one of the values offered. *)
Lemma sample_In {V : Type} (enums : list V) probs w v i w' :
  Model.sample enums probs w = (Return (v, i), w') -> In v enums.
Proof.
  unfold Model.sample, item_last, item, uniform, random, bind, ret.
  destruct (nth_error (cumsum probs) _); [|discriminate].
  cbv beta iota.
  destruct (nth_error enums _) as [v'|] eqn:E; [|discriminate].
  intros [= <- _ _]. eapply nth_error_In; eauto.
Qed.

(** The popularities of the used channels are looked up without touching
    the spec or the world. *)
Lemma popularity_weights_unchanged l :
  framed (@unchanged (dict value * world))
    (mapM (fun x =>
             bind (getitem "channel" (Model.enum_probs m))
               (fun channel_probs => getitem x channel_probs))
          l).
Proof. frame_auto. Qed.

(** C5. [mutate_prop] with [prop = 'channel'] and an enum value that is
    already a used channel key leaves the spec unchanged: the rename branch
    is not taken. This holds whenever ['channel'] is not configured as a
    top-level property (and, should it be configured as an encoding-level
    property, no used channel is also a top-level key of the spec). The call
    does not return normally: with ['channel'] not an encoding-level
    property it ends in the [ValueError] of the final [else], the random
    generator untouched. *)
Theorem mutate_prop_used_channel_unchanged spec encoding enum w :
  ~ In "channel" (Model.top_level_props m) ->
  dget "encoding" spec = Some (VDict encoding) ->
  In enum (dkeys encoding) ->
  (In "channel" (Model.encoding_props m) ->
   forall c, In c (dkeys encoding) -> dget c spec = None) ->
  exists e w',
    Model.mutate_prop m "channel" enum (spec, w) = (Raise e, (spec, w'))
    /\ (~ In "channel" (Model.encoding_props m) ->
        e = ValueError "invalid prop" /\ w' = w).
Proof.
  intros Htop Hget Hin Hkeys.
  apply mem_false in Htop. apply dmem_In in Hin.
  unfold Model.mutate_prop. unfold bind at 1. cbn [get_spec fst].
  rewrite Htop. cbn [String.eqb Ascii.eqb Bool.eqb].
  unfold bind at 1. unfold bind at 1. unfold getitem at 1. rewrite Hget.
  cbn [ret as_dict]. unfold bind at 1. cbn [ret]. rewrite Hin. cbn [negb].
  destruct (mem "channel" (Model.encoding_props m)) eqn:Henc.
  - apply mem_In in Henc. specialize (Hkeys Henc).
    unfold bind at 1. unfold getitem at 1. rewrite Hget. cbn [ret].
    unfold bind at 1. cbn [as_dict ret].
    unfold bind at 1.
    pose proof (popularity_weights_unchanged (dkeys encoding) (spec, w)) as [Hsame _].
    destruct (mapM _ (dkeys encoding) (spec, w)) as [[probs|e] s1];
      simpl in Hsame; unfold unchanged in Hsame; subst s1.
    + unfold bind at 1. unfold lift at 1. cbn [fst snd].
      destruct (Model.sample (dkeys encoding) probs w) as [[[c i]|e] w1] eqn:Es.
      * apply sample_In in Es. unfold bind at 1. unfold getitem at 1.
        rewrite (Hkeys c Es). eexists _, _. split; [reflexivity|].
        intros H. contradiction.
      * eexists _, _. split; [reflexivity|]. intros H. contradiction.
    + eexists _, _. split; [reflexivity|]. intros H. contradiction.
  - exists (ValueError "invalid prop"), w. split; [reflexivity | auto].
Qed.

(** C2. What the channel-rename branch does instead of moving an encoding:
    on a spec with a non-empty encoding map whose used channels all have a
    baseline popularity and none of which is also a top-level key of the
    spec, [mutate_prop] with [prop = 'channel'] and an unused enum value
    samples a used channel [c] and then raises [KeyError c], because it
    looks [c] up in the spec and not in the spec's encoding map. The spec is
    left as it was: nothing is moved and nothing is deleted. *)
Theorem mutate_prop_channel_rename_raises spec encoding enum w :
  ~ In "channel" (Model.top_level_props m) ->
  dget "encoding" spec = Some (VDict encoding) ->
  encoding <> [] ->
  ~ In enum (dkeys encoding) ->
  (forall c, In c (dkeys encoding) -> popularity m c <> None) ->
  (forall c, In c (dkeys encoding) -> dget c spec = None) ->
  exists c,
    In c (dkeys encoding)
    /\ Model.mutate_prop m "channel" enum (spec, w)
       = (Raise (KeyError c), (spec, advance w)).
Proof.
  intros Htop Hget Hne Hfresh Hpop Hkeys.
  apply mem_false in Htop.
  assert (Hmem : dmem enum encoding = false).
  { destruct (dmem enum encoding) eqn:E; auto. apply dmem_In in E. tauto. }
  set (probs := map (fun x => (1 - popularity_or_0 m x)%Q) (dkeys encoding)).
  destruct (lift_sample_ok (dkeys encoding) probs spec w) as (c & i & Es & Hc).
  { destruct encoding; simpl; congruence. }
  { subst probs. now rewrite length_map. }
  exists c. split; auto.
  unfold Model.mutate_prop, get_spec, put_spec, bind, getitem, as_dict.
  cbn [fst snd]. rewrite Htop. cbn [String.eqb Ascii.eqb Bool.eqb].
  rewrite Hget. cbn [ret]. rewrite Hmem. cbn [negb].
  erewrite mapM_pure with (g := fun x => (1 - popularity_or_0 m x)%Q).
  2:{ intros x Hx. specialize (Hpop x Hx).
      unfold popularity_or_0.
      destruct (popularity m x) as [p|] eqn:Ep; [|congruence].
      unfold popularity in Ep.
      destruct (dget "channel" (Model.enum_probs m)) as [cp|] eqn:Ecp; [|discriminate].
      cbn [ret]. now rewrite Ep. }
  fold probs. rewrite Es. rewrite (Hkeys c Hc). reflexivity.
Qed.

(** C3. What the encoding-level branch does instead of setting the
    property: on a spec with a non-empty encoding map whose used channels all
    have a baseline popularity and none of which is also a top-level key of
    the spec, [mutate_prop] with an encoding-level [prop] samples a used
    channel [c] and then raises [KeyError c], because it looks [c] up in the
    spec and not in the spec's encoding map. The spec is left as it was. *)
Theorem mutate_prop_encoding_prop_raises prop spec encoding enum w :
  ~ In prop (Model.top_level_props m) ->
  prop <> "channel" ->
  In prop (Model.encoding_props m) ->
  dget "encoding" spec = Some (VDict encoding) ->
  encoding <> [] ->
  (forall c, In c (dkeys encoding) -> popularity m c <> None) ->
  (forall c, In c (dkeys encoding) -> dget c spec = None) ->
  exists c,
    In c (dkeys encoding)
    /\ Model.mutate_prop m prop enum (spec, w)
       = (Raise (KeyError c), (spec, advance w)).
Proof.
  intros Htop Hnc Henc Hget Hne Hpop Hkeys.
  apply mem_false in Htop. apply mem_In in Henc. apply String.eqb_neq in Hnc.
  set (probs := map (popularity_or_0 m) (dkeys encoding)).
  destruct (lift_sample_ok (dkeys encoding) probs spec w) as (c & i & Es & Hc).
  { destruct encoding; simpl; congruence. }
  { subst probs. now rewrite length_map. }
  exists c. split; auto.
  unfold Model.mutate_prop, get_spec, put_spec, bind, getitem, as_dict.
  cbn [fst snd]. rewrite Htop, Hnc. cbn [ret]. rewrite Henc, Hget. cbn [ret].
  erewrite mapM_pure with (g := popularity_or_0 m).
  2:{ intros x Hx. specialize (Hpop x Hx).
      unfold popularity_or_0.
      destruct (popularity m x) as [p|] eqn:Ep; [|congruence].
      unfold popularity in Ep.
      destruct (dget "channel" (Model.enum_probs m)) as [cp|] eqn:Ecp; [|discriminate].
      cbn [ret]. now rewrite Ep. }
  fold probs. rewrite Es. rewrite (Hkeys c Hc). reflexivity.
Qed.
End MutateProp.

(** ** The shared list of remaining props *)

Lemma only_shrinks_refl props w : only_shrinks props w w.
Proof. repeat split; auto. Qed.

Lemma only_shrinks_trans props w1 w2 w3 :
  only_shrinks props w1 w2 -> only_shrinks props w2 w3 -> only_shrinks props w1 w3.
Proof.
  intros (L1 & F1 & S1) (L2 & F2 & S2). repeat split; try lia.
  intros r Hr. rewrite F2, F1; auto.
Qed.

Lemma same_heap_only_shrinks props w w' : same_heap w w' -> only_shrinks props w w'.
Proof. unfold same_heap. intros H. unfold only_shrinks. rewrite H. auto. Qed.

Lemma update_length {A : Type} i (a : A) l : List.length (update i a l) = List.length l.
Proof. revert i. induction l; destruct i; simpl; auto. Qed.

Lemma nth_update_same {A : Type} i (a d : A) l :
  i < List.length l -> nth i (update i a l) d = a.
Proof.
  revert i. induction l; destruct i; simpl; intros H; try lia; auto.
  apply IHl. lia.
Qed.

Lemma nth_update_other {A : Type} i j (a d : A) l :
  j <> i -> nth j (update i a l) d = nth j l d.
Proof.
  revert i j. induction l; destruct i, j; simpl; intros H; try congruence; auto.
Qed.

Lemma write_only_shrinks props prop rest w :
  nth props (heap w) [] = prop :: rest ->
  only_shrinks props w (snd (write props rest w))
  /\ nth props (heap (snd (write props rest w))) [] = rest.
Proof.
  intros E.
  assert (Hlt : props < List.length (heap w)).
  { destruct (Nat.lt_ge_cases props (List.length (heap w))) as [|Hge]; auto.
    rewrite (nth_overflow _ _ Hge) in E. discriminate. }
  unfold write, only_shrinks. cbn [snd heap]. repeat split.
  - apply update_length.
  - intros r Hr. now apply nth_update_other.
  - rewrite nth_update_same by exact Hlt. rewrite E. simpl. lia.
  - now apply nth_update_same.
Qed.

Section FrameGenerator.
Context {PO : PropObjects} {OR : Oracle}.
Variable g : Generator.t.

Lemma mutate_spec_unfold fuel base_spec props specs w :
  Generator.mutate_spec (S fuel) g base_spec props specs w
  = match nth props (heap w) [] with
    | [] => leaf g base_spec specs w
    | prop_to_mutate :: rest =>
        match dget prop_to_mutate (Model.enums (Generator.model g)) with
        | Some enums =>
            branches g fuel base_spec props prop_to_mutate enums specs
                     (snd (write props rest w))
        | None => (Raise (KeyError prop_to_mutate), snd (write props rest w))
        end
    end.
Proof.
  cbn [Generator.mutate_spec]. unfold bind at 1. unfold read at 1.
  destruct (nth props (heap w) []) as [|prop rest]; [reflexivity|].
  unfold bind at 1. unfold write at 1. unfold bind at 1.
  unfold Model.get_enums, getitem.
  destruct (dget prop (Model.enums (Generator.model g))); reflexivity.
Qed.

Lemma framed_leaf base_spec specs : framed same_heap (leaf g base_spec specs).
Proof.
  pose proof framed_populate_field_names.
  pose proof (framed_improve (Generator.model g)).
  unfold leaf. frame_auto.
Qed.

(** With more fuel than remaining props, [mutate_spec] stays within the
    recursion bound, writes no list object but [props], and only shortens
    that one. *)
Lemma mutate_spec_frame fuel : forall base_spec props specs w,
  List.length (nth props (heap w) []) < fuel ->
  within props w (Generator.mutate_spec fuel g base_spec props specs w).
Proof.
  induction fuel as [|fuel IH]; intros base_spec props specs w Hfuel; [lia|].
  rewrite mutate_spec_unfold.
  destruct (nth props (heap w) []) as [|prop rest] eqn:E.
  - destruct (framed_leaf base_spec specs w) as [Hh Hr].
    split; [now apply same_heap_only_shrinks | exact Hr].
  - destruct (write_only_shrinks props prop rest w E) as [Hw Hrest].
    set (w1 := snd (write props rest w)) in *.
    destruct (dget prop (Model.enums (Generator.model g))) as [enums|].
    2:{ split; [exact Hw | discriminate]. }
    assert (Hloop : forall enums specs w',
               only_shrinks props w1 w' ->
               within props w1 (branches g fuel base_spec props prop enums specs w')).
    { clear enums specs. unfold branches.
      induction enums as [|enum enums IHe]; intros specs w' Hw'.
      - split; [exact Hw' | discriminate].
      - cbn [foldM]. apply bind_cases.
        + intros specs' w3. apply bind_cases.
          * intros [u spec] w2 E2 E3.
            pose proof (framed_on_spec (deepcopy base_spec) _
                          (framed_mutate_prop (Generator.model g) prop enum) w') as [Hh _].
            rewrite E2 in Hh. simpl in Hh.
            assert (H2 : only_shrinks props w1 w2).
            { eapply only_shrinks_trans;
                [exact Hw' | now apply same_heap_only_shrinks]. }
            assert (Hf : List.length (nth props (heap w2) []) < fuel).
            { destruct H2 as (_ & _ & H2). rewrite Hrest in H2. simpl in Hfuel. lia. }
            destruct (IH spec props specs w2 Hf) as [H3 _].
            rewrite E3 in H3. simpl in H3.
            apply IHe. eapply only_shrinks_trans; eauto.
          * intros e w2 E2. discriminate.
        + intros e w3. apply bind_cases.
          * intros [u spec] w2 E2 E3.
            pose proof (framed_on_spec (deepcopy base_spec) _
                          (framed_mutate_prop (Generator.model g) prop enum) w') as [Hh _].
            rewrite E2 in Hh. simpl in Hh.
            assert (H2 : only_shrinks props w1 w2).
            { eapply only_shrinks_trans;
                [exact Hw' | now apply same_heap_only_shrinks]. }
            assert (Hf : List.length (nth props (heap w2) []) < fuel).
            { destruct H2 as (_ & _ & H2). rewrite Hrest in H2. simpl in Hfuel. lia. }
            destruct (IH spec props specs w2 Hf) as [H3 H4].
            rewrite E3 in H3, H4. simpl in H3, H4.
            split; [eapply only_shrinks_trans; eauto | simpl; congruence].
          * intros e' w2 E2 [= <- <-].
            pose proof (framed_on_spec (deepcopy base_spec) _
                          (framed_mutate_prop (Generator.model g) prop enum) w') as [Hh Hr].
            rewrite E2 in Hh, Hr. simpl in Hh, Hr.
            split; [|simpl; congruence].
            eapply only_shrinks_trans;
              [exact Hw' | now apply same_heap_only_shrinks]. }
    destruct (Hloop enums specs w1 (only_shrinks_refl props w1)) as [H1 H2].
    split; [eapply only_shrinks_trans; eauto | exact H2].
Qed.
End FrameGenerator.

Section Interaction.
Context {PO : PropObjects} {OR : Oracle}.
Variable g : Generator.t.

(** [generate_interaction] as one call of [mutate_spec] on a copy. *)
Lemma generate_interaction_unfold (props : ref) (dimensions : nat) (w : world) :
  Generator.generate_interaction g props dimensions w
  = match Model.generate_spec (Generator.model g) dimensions w with
    | (Return base_spec, w1) =>
        Generator.mutate_spec (S (List.length (nth props (heap w1) []))) g base_spec
          (List.length (heap w1)) [] (snd (list_copy props w1))
    | (Raise e, w1) => (Raise e, w1)
    end.
Proof.
  unfold Generator.generate_interaction. unfold bind at 1.
  destruct (Model.generate_spec (Generator.model g) dimensions w) as [[base_spec|e] w1];
    [|reflexivity].
  unfold bind at 1. unfold list_copy at 1. unfold bind at 1. unfold read at 1.
  cbn [heap snd list_copy]. rewrite app_nth2 by lia. rewrite Nat.sub_diag. reflexivity.
Qed.

(** C10. [generate_interaction] never mutates the list object the caller
    passed as [props] (nor any other list object that existed before the
    call): whatever the outcome, the list holds the same elements in the same
    order afterwards, because the recursion pops from a copy. The fuel the
    model gives to the recursion is never exhausted. *)
Theorem generate_interaction_keeps_props (props : ref) (dimensions : nat) (w : world) :
  props < List.length (heap w) ->
  nth props (heap (snd (Generator.generate_interaction g props dimensions w))) []
  = nth props (heap w) []
  /\ (forall r, r < List.length (heap w) ->
        nth r (heap (snd (Generator.generate_interaction g props dimensions w))) []
        = nth r (heap w) [])
  /\ fst (Generator.generate_interaction g props dimensions w) <> Raise RecursionError.
Proof.
  intros Hprops.
  assert (Hall : (forall r, r < List.length (heap w) ->
            nth r (heap (snd (Generator.generate_interaction g props dimensions w))) []
            = nth r (heap w) [])
          /\ fst (Generator.generate_interaction g props dimensions w)
             <> Raise RecursionError).
  { rewrite generate_interaction_unfold.
    pose proof (framed_generate_spec (Generator.model g) dimensions w) as [Hh Hr].
    destruct (Model.generate_spec (Generator.model g) dimensions w)
      as [[base_spec|e] w1]; simpl in Hh, Hr; unfold same_heap in Hh.
    - set (w2 := snd (list_copy props w1)).
      assert (Hcopy : nth (List.length (heap w1)) (heap w2) [] = nth props (heap w1) []).
      { subst w2. cbn [heap snd list_copy]. rewrite app_nth2 by lia.
        now rewrite Nat.sub_diag. }
      destruct (mutate_spec_frame g (S (List.length (nth props (heap w1) [])))
                  base_spec (List.length (heap w1)) [] w2) as [(HL & HF & _) HR].
      { rewrite Hcopy. lia. }
      split; [|exact HR].
      intros r Hlt. rewrite HF by (rewrite Hh; lia).
      subst w2. cbn [heap snd list_copy]. rewrite app_nth1 by (rewrite Hh; lia).
      now rewrite Hh.
    - split; [|simpl; intros [= ->]; now apply Hr]. intros r _. simpl. now rewrite Hh. }
  destruct Hall as [Hall Hrec]. repeat split; auto.
Qed.
End Interaction.

(** ** Spec generation *)

Lemma dget_map {A B : Type} (f : A -> B) k (d : dict A) :
  dget k (map (fun kv => (fst kv, f (snd kv))) d) = option_map f (dget k d).
Proof.
  induction d as [|[k' v] d IH]; simpl; auto.
  destruct (String.eqb k k'); auto.
Qed.

Lemma pop_split {A : Type} i (l l' : list A) c :
  pop i l = Some l' -> nth_error l i = Some c ->
  exists l1 l2, l = (l1 ++ c :: l2)%list /\ l' = (l1 ++ l2)%list.
Proof.
  revert i l'. induction l as [|x l IH]; intros [|i] l'; simpl; try discriminate.
  - intros [= <-] [= <-]. now exists [], l.
  - destruct (pop i l) as [l0|] eqn:E; simpl; [|discriminate].
    intros [= <-] Hn. destruct (IH i l0 E Hn) as (l1 & l2 & -> & ->).
    now exists (x :: l1), l2.
Qed.

Lemma pop_Some {A : Type} i (l : list A) :
  i < List.length l -> exists l', pop i l = Some l' /\ S (List.length l') = List.length l.
Proof.
  revert i. induction l as [|x l IH]; intros i H; simpl in H; [lia|].
  destruct i as [|i]; simpl.
  - exists l. auto.
  - destruct (IH i) as (l' & -> & Hl); [lia|]. simpl. eexists. split; eauto.
Qed.

Section Generation.
Context {PO : PropObjects}.
Variables (ds : dict Model.distribution) (top enc : list string).
Hypothesis WF : well_formed ds top enc.

Let m : Model.t := Model.init ds top enc.

Lemma samplable_same_pools w w' : samplable top enc w -> same_pools w w' -> samplable top enc w'.
Proof.
  intros H [He Hp] p Hin. destruct (H p Hin) as (es & ps & H1 & H2 & H3).
  exists es, ps. rewrite He, Hp. auto.
Qed.

Lemma succeeds_ret {A : Type} (Q : A -> Prop) a : Q a -> succeeds top enc Q (ret a).
Proof. intros Ha w _. exists a, w. repeat split; auto. Qed.

Lemma succeeds_bind {A B : Type} (P : A -> Prop) (Q : B -> Prop) c (k : A -> M world B) :
  succeeds top enc P c -> (forall a, P a -> succeeds top enc Q (k a)) -> succeeds top enc Q (bind c k).
Proof.
  intros Hc Hk w Hw. destruct (Hc w Hw) as (a & w1 & E1 & [He1 Hp1] & Ha).
  destruct (Hk a Ha w1) as (b & w2 & E2 & [He2 Hp2] & Hb).
  { eapply samplable_same_pools; eauto. now split. }
  exists b, w2. unfold bind. rewrite E1, E2. repeat split; auto; congruence.
Qed.

Lemma succeeds_foldM {A B : Type} (Q : B -> Prop) (body : B -> A -> M world B) l :
  (forall acc x, In x l -> Q acc -> succeeds top enc Q (body acc x)) ->
  forall acc, Q acc -> succeeds top enc Q (foldM body l acc).
Proof.
  induction l as [|x l IH]; intros Hb acc Hacc; simpl.
  - now apply succeeds_ret.
  - apply succeeds_bind with (P := Q).
    + apply Hb; simpl; auto.
    + intros acc' Hacc'. apply IH; auto. intros; apply Hb; simpl; auto.
Qed.

Lemma succeeds_include p :
  In p top \/ In p enc -> succeeds top enc (fun _ => True) (Model.include m p).
Proof.
  intros Hin w _. destruct (wf_declared _ _ _ WF p Hin) as (d & Hd & _).
  unfold Model.include, bind, getitem. cbn [Model.distributions m Model.init].
  rewrite Hd. cbn [ret random].
  eexists _, _. repeat split.
Qed.

Lemma not_channel p : In p top \/ In p enc -> String.eqb p "channel" = false.
Proof.
  intros Hin. apply String.eqb_neq. intros ->.
  destruct Hin; [now apply (wf_channel_top _ _ _ WF) | now apply (wf_channel_enc _ _ _ WF)].
Qed.

Lemma succeeds_sample_prop p :
  In p top \/ In p enc -> succeeds top enc (fun _ => True) (Model.sample_prop m p).
Proof.
  intros Hin w Hw. destruct (Hw p Hin) as (es & ps & He & Hp & Hne & Hlen).
  destruct (sample_ok es ps w Hne Hlen) as (v & i & Es & _ & _).
  unfold Model.sample_prop, Model.sample_enum, get_world, bind, getitem.
  rewrite He, Hp. cbn [ret]. rewrite Es. rewrite (not_channel p Hin). cbn [ret].
  destruct (dget p Model.SPECIAL_ENUMS); eexists _, _; repeat split.
Qed.

Lemma succeeds_generate_enc : succeeds top enc (fun _ => True) (Model.generate_enc m).
Proof.
  unfold Model.generate_enc. apply succeeds_foldM; auto.
  intros acc p Hp _. cbn [Model.encoding_props m Model.init] in Hp.
  apply nodup_In in Hp.
  apply succeeds_bind with (P := fun _ => True); [apply succeeds_include; auto|].
  intros [|] _; [|now apply succeeds_ret].
  apply succeeds_bind with (P := fun _ => True); [apply succeeds_sample_prop; auto|].
  intros v _. now apply succeeds_ret.
Qed.

(** The loop over the top-level properties keeps the empty encoding map. *)
Lemma succeeds_top_level :
  succeeds top enc (fun spec => dget "encoding" spec = Some (VDict []))
    (foldM (fun spec prop =>
              bind (Model.include m prop)
                (fun inc =>
                   if inc
                   then bind (Model.sample_prop m prop)
                          (fun v => ret (dset prop v spec))
                   else ret spec))
           (Model.top_level_props m) [("encoding", VDict [])]).
Proof.
  apply succeeds_foldM; [|reflexivity].
  intros spec p Hp Hspec. cbn [Model.top_level_props m Model.init] in Hp.
  apply nodup_In in Hp.
  apply succeeds_bind with (P := fun _ => True); [apply succeeds_include; auto|].
  intros [|] _; [|now apply succeeds_ret].
  apply succeeds_bind with (P := fun _ => True); [apply succeeds_sample_prop; auto|].
  intros v _. apply succeeds_ret.
  rewrite dget_dset_other; auto.
  intros <-. now apply (wf_encoding_top _ _ _ WF).
Qed.
End Generation.

Section Dimensions.
Context {PO : PropObjects}.
Variables (ds : dict Model.distribution) (top enc : list string).
Hypothesis WF : well_formed ds top enc.

Let m : Model.t := Model.init ds top enc.

(** Drawing a channel removes the drawn value from the pool. *)
Lemma channel_draw w pool :
  channel_pool w pool -> pool <> [] ->
  exists c l1 l2 w',
    Model.sample_prop m "channel" w = (Return (VStr c), w')
    /\ pool = (l1 ++ c :: l2)%list
    /\ channel_pool w' (l1 ++ l2)%list
    /\ (forall p, p <> "channel" ->
          dget p (curr_enums w') = dget p (curr_enums w)
          /\ dget p (curr_probs w') = dget p (curr_probs w)).
Proof.
  intros (weights & He & Hp & Hlen) Hne.
  destruct (sample_ok pool weights w Hne Hlen) as (c & i & Es & Hi & Hc).
  destruct (pop_Some i pool Hi) as (pool' & Epool & Lpool).
  destruct (pop_Some i weights) as (weights' & Eweights & Lweights); [lia|].
  destruct (pop_split i pool pool' c Epool Hc) as (l1 & l2 & Hsplit & Hrest).
  exists c, l1, l2.
  unfold Model.sample_prop, Model.sample_enum, get_world, bind, getitem.
  rewrite He, Hp. cbn [ret]. rewrite Es. cbn [String.eqb Ascii.eqb Bool.eqb].
  rewrite Epool, Eweights.
  cbn [set_curr_enums set_curr_probs ret dget Model.SPECIAL_ENUMS String.eqb
       Ascii.eqb Bool.eqb].
  eexists. split; [reflexivity|]. split; [exact Hsplit|]. split.
  - exists weights'. cbn [curr_enums curr_probs]. rewrite !dget_dset_same.
    subst pool'. repeat split; auto. lia.
  - intros p Hne'. cbn [curr_enums curr_probs advance].
    rewrite !dget_dset_other; auto.
Qed.

(** Drawing from the depleted pool raises, before any draw is consumed. *)
Lemma channel_draw_empty w :
  channel_pool w [] ->
  Model.sample_prop m "channel" w = (Raise IndexError, w).
Proof.
  intros (weights & He & Hp & Hlen). destruct weights; [|discriminate].
  unfold Model.sample_prop, Model.sample_enum, get_world, bind, getitem.
  rewrite He, Hp. reflexivity.
Qed.

(** One round on a non-empty pool stores an encoding under a drawn channel. *)
Lemma dimension_ok w pool spec encoding :
  samplable top enc w -> channel_pool w pool -> pool <> [] ->
  dget "encoding" spec = Some (VDict encoding) ->
  exists e c l1 l2 w',
    dimension m spec w
    = (Return (dset "encoding" (VDict (dset c (VDict e) encoding)) spec), w')
    /\ pool = (l1 ++ c :: l2)%list
    /\ samplable top enc w'
    /\ channel_pool w' (l1 ++ l2)%list.
Proof.
  intros Hs Hpool Hne Hget.
  destruct (succeeds_generate_enc ds top enc WF w Hs) as (e & w1 & E1 & [He1 Hp1] & _).
  assert (Hpool1 : channel_pool w1 pool).
  { destruct Hpool as (ws & H1 & H2 & H3). exists ws. rewrite He1, Hp1. auto. }
  destruct (channel_draw w1 pool Hpool1 Hne) as (c & l1 & l2 & w2 & E2 & Hsplit & Hpool2 & Hrest).
  exists e, c, l1, l2, w2.
  unfold dimension. unfold bind at 1. fold m in E1. rewrite E1.
  unfold bind at 1. rewrite E2.
  unfold Model.set_encoding, bind, getitem. rewrite Hget. cbn [ret as_dict as_str].
  repeat split; auto.
  intros p Hin. destruct (Hs p Hin) as (es & ps & H1 & H2 & H3).
  assert (Hnc : p <> "channel") by (apply String.eqb_neq; eapply not_channel; eauto).
  destruct (Hrest p Hnc) as [R1 R2].
  exists es, ps. rewrite R1, R2, He1, Hp1. auto.
Qed.

(** [n] rounds on a pool of at least [n] distinct values add [n] encodings
    under keys that are new and pairwise distinct. *)
Lemma dimensions_distinct n : forall w pool spec encoding,
  samplable top enc w -> channel_pool w pool ->
  n <= List.length pool -> NoDup pool ->
  dget "encoding" spec = Some (VDict encoding) ->
  NoDup (dkeys encoding) ->
  (forall c, In c pool -> ~ In c (dkeys encoding)) ->
  exists spec' encoding' w',
    repeatM n (dimension m) spec w = (Return spec', w')
    /\ dget "encoding" spec' = Some (VDict encoding')
    /\ List.length encoding' = List.length encoding + n
    /\ NoDup (dkeys encoding')
    /\ (forall c, In c (dkeys encoding') -> In c (dkeys encoding) \/ In c pool).
Proof.
  induction n as [|n IH]; intros w pool spec encoding Hs Hpool Hn Hnd Hget Hkeys Hfresh.
  - exists spec, encoding, w. simpl. repeat split; auto.
  - assert (Hne : pool <> []) by (destruct pool; simpl in Hn; [lia | discriminate]).
    destruct (dimension_ok w pool spec encoding Hs Hpool Hne Hget)
      as (e & c & l1 & l2 & w1 & E1 & Hsplit & Hs1 & Hpool1).
    subst pool.
    assert (Hc : ~ In c (dkeys encoding)) by (apply Hfresh; apply in_elt).
    pose proof (NoDup_remove_1 _ _ _ Hnd) as Hnd1.
    pose proof (NoDup_remove_2 _ _ _ Hnd) as Hc1.
    rewrite (dset_fresh c (VDict e) encoding Hc) in E1.
    destruct (IH w1 (l1 ++ l2)%list
                 (dset "encoding" (VDict (encoding ++ [(c, VDict e)])%list) spec)
                 (encoding ++ [(c, VDict e)])%list)
      as (spec' & encoding' & w' & E2 & Hget' & Hlen' & Hnd' & Hin'); auto.
    + rewrite length_app in *. simpl in Hn. lia.
    + apply dget_dset_same.
    + unfold dkeys. rewrite map_app. simpl. apply NoDup_app; auto.
      * repeat constructor. simpl. tauto.
      * intros x Hx [<-|[]]. tauto.
    + intros x Hx. unfold dkeys. rewrite map_app, in_app_iff. simpl.
      intros [H|[<-|[]]].
      * apply (Hfresh x); auto. apply in_app_iff in Hx. apply in_app_iff.
        destruct Hx; simpl; auto.
      * tauto.
    + exists spec', encoding', w'. cbn [repeatM]. unfold bind. rewrite E1, E2.
      repeat split; auto.
      * rewrite Hlen', length_app. simpl. lia.
      * intros x Hx. destruct (Hin' x Hx) as [H|H].
        -- unfold dkeys in H. rewrite map_app, in_app_iff in H. simpl in H.
           destruct H as [H|[<-|[]]]; auto. right. apply in_elt.
        -- right. apply in_app_iff in H. apply in_app_iff. destruct H; simpl; auto.
Qed.

(** More rounds than the pool has values end in the [IndexError] of the
    sampler, raised by the draw that finds the pool depleted. *)
Lemma dimensions_exhausted n : forall w pool spec encoding,
  samplable top enc w -> channel_pool w pool ->
  List.length pool < n ->
  dget "encoding" spec = Some (VDict encoding) ->
  exists w', repeatM n (dimension m) spec w = (Raise IndexError, w').
Proof.
  induction n as [|n IH]; intros w pool spec encoding Hs Hpool Hn Hget; [lia|].
  destruct pool as [|c0 pool0].
  - destruct (succeeds_generate_enc ds top enc WF w Hs) as (e & w1 & E1 & [He1 Hp1] & _).
    assert (Hpool1 : channel_pool w1 []).
    { destruct Hpool as (ws & H1 & H2 & H3). exists ws. rewrite He1, Hp1. auto. }
    exists w1. cbn [repeatM]. unfold bind at 1. unfold dimension at 1.
    unfold bind at 1. fold m in E1. rewrite E1.
    unfold bind at 1. now rewrite (channel_draw_empty w1 Hpool1).
  - destruct (dimension_ok w (c0 :: pool0) spec encoding Hs Hpool) as
      (e & c & l1 & l2 & w1 & E1 & Hsplit & Hs1 & Hpool1); [discriminate | auto |].
    destruct (IH w1 (l1 ++ l2)%list
                 (dset "encoding" (VDict (dset c (VDict e) encoding)) spec)
                 (dset c (VDict e) encoding) Hs1 Hpool1) as (w' & E2).
    + apply (f_equal (@List.length string)) in Hsplit.
      rewrite length_app in *. simpl in *. lia.
    + apply dget_dset_same.
    + exists w'. cbn [repeatM]. unfold bind. now rewrite E1, E2.
Qed.
End Dimensions.

Section GenerateSpec.
Context {PO : PropObjects}.
Variables (ds : dict Model.distribution) (top enc : list string).
Hypothesis WF : well_formed ds top enc.

Lemma readied_samplable w : samplable top enc (readied ds top enc w).
Proof.
  intros p Hin. destruct (wf_declared _ _ _ WF p Hin) as (d & Hd & Hne).
  exists (map Model.name (Model.values d)), (map Model.enum_probability (Model.values d)).
  cbn [readied curr_enums curr_probs Model.enums Model.probs Model.init].
  rewrite (dget_map (fun d => map Model.name (Model.values d))).
  rewrite (dget_map (fun d => map Model.enum_probability (Model.values d))).
  rewrite Hd. repeat split.
  - destruct (Model.values d); simpl; congruence.
  - now rewrite !length_map.
Qed.

Lemma readied_channel_pool w d :
  dget "channel" ds = Some d -> channel_pool (readied ds top enc w) (channel_enums ds).
Proof.
  intros Hd. exists (map Model.enum_probability (Model.values d)).
  cbn [readied curr_enums curr_probs Model.enums Model.probs Model.init].
  rewrite (dget_map (fun d => map Model.name (Model.values d))).
  rewrite (dget_map (fun d => map Model.enum_probability (Model.values d))).
  unfold channel_enums. rewrite Hd. repeat split. now rewrite !length_map.
Qed.

(** [generate_spec] up to the loop over the dimensions. *)
Lemma generate_spec_unfold n w :
  exists spec w1,
    Model.generate_spec (Model.init ds top enc) n w
    = repeatM n (dimension (Model.init ds top enc)) spec w1
    /\ dget "encoding" spec = Some (VDict [])
    /\ same_pools (readied ds top enc w) w1.
Proof.
  destruct (succeeds_top_level ds top enc WF (readied ds top enc w) (readied_samplable w))
    as (spec & w1 & E & Hsame & Hget).
  exists spec, w1. repeat split; auto; try apply Hsame.
  unfold Model.generate_spec. unfold bind at 1.
  change (Model.ready (Model.init ds top enc) w) with (Return tt, readied ds top enc w).
  cbv beta iota. unfold bind at 1. rewrite E. reflexivity.
Qed.

Lemma same_pools_samplable w w' :
  same_pools w w' -> samplable top enc w -> samplable top enc w'.
Proof. intros H Hs. eapply samplable_same_pools; eauto. Qed.

Lemma same_pools_channel_pool w w' pool :
  same_pools w w' -> channel_pool w pool -> channel_pool w' pool.
Proof. intros [He Hp] (ws & H1 & H2 & H3). exists ws. rewrite He, Hp. auto. Qed.

(** C6. In a well-formed configuration whose declared channel values are
    pairwise distinct, [generate_spec(n)] with [n] not above their number
    returns normally a spec whose encoding map has exactly [n] entries, under
    pairwise distinct keys, each a declared channel value. *)
Theorem generate_spec_distinct_channels (n : nat) (w : world) :
  NoDup (channel_enums ds) ->
  n <= List.length (channel_enums ds) ->
  exists spec encoding w',
    Model.generate_spec (Model.init ds top enc) n w = (Return spec, w')
    /\ dget "encoding" spec = Some (VDict encoding)
    /\ List.length encoding = n
    /\ NoDup (dkeys encoding)
    /\ incl (dkeys encoding) (channel_enums ds).
Proof.
  intros Hnd Hn.
  destruct (generate_spec_unfold n w) as (spec & w1 & E & Hget & Hsame).
  rewrite E. destruct n as [|n].
  - exists spec, [], w1. simpl. repeat split; auto using NoDup_nil, incl_nil_l.
  - destruct (dget "channel" ds) as [d|] eqn:Hd.
    2:{ unfold channel_enums in Hn. rewrite Hd in Hn. simpl in Hn. lia. }
    destruct (dimensions_distinct ds top enc WF (S n) w1 (channel_enums ds) spec [])
      as (spec' & encoding' & w' & E' & Hget' & Hlen & Hnd' & Hin); auto.
    + eapply same_pools_samplable; eauto. apply readied_samplable.
    + eapply same_pools_channel_pool; eauto. eapply readied_channel_pool; eauto.
    + constructor.
    + exists spec', encoding', w'. repeat split; auto.
      intros c Hc. destruct (Hin c Hc) as [[]|]; auto.
Qed.

(** C7. In a well-formed configuration that declares the channel property,
    [generate_spec(n)] with [n] above the number of declared channel values
    raises: the draw that finds the channel pool depleted ends in the
    sampler's [IndexError]; no channel is reused and no spec is returned. *)
Theorem generate_spec_exhausted (n : nat) (w : world) :
  In "channel" (dkeys ds) ->
  List.length (channel_enums ds) < n ->
  exists w', Model.generate_spec (Model.init ds top enc) n w = (Raise IndexError, w').
Proof.
  intros Hch Hn.
  destruct (dget "channel" ds) as [d|] eqn:Hd.
  2:{ apply dget_None_notin in Hd. tauto. }
  destruct (generate_spec_unfold n w) as (spec & w1 & E & Hget & Hsame).
  rewrite E.
  apply (dimensions_exhausted ds top enc WF n w1 (channel_enums ds) spec []); auto.
  - eapply same_pools_samplable; eauto. apply readied_samplable.
  - eapply same_pools_channel_pool; eauto. eapply readied_channel_pool; eauto.
Qed.
End GenerateSpec.

(** * Concrete runs *)

(** C1. At [props = ['mark', 'orient']], two top-level properties with two
    declared values each, one dimension and an oracle that accepts every
    query, [generate_interaction] returns normally 3 leaves, while the
    cross-product of the enum values has 4 elements: the leaf that mutates
    [mark] to [point] and [orient] to [vertical] is never produced. *)
Theorem generate_interaction_leaves_not_product :
  cross_product_size example_model ["mark"; "orient"] = 4
  /\ exists specs w',
       @Generator.generate_interaction example_objects accept_all
         example_generator 0 1 (example_world 0 [["mark"; "orient"]])
       = (Return specs, w')
       /\ List.length specs = 3
       /\ map (fun s => (dget "mark" s, dget "orient" s)) specs
          = [(Some (VStr "bar"), Some (VStr "horizontal"));
             (Some (VStr "bar"), Some (VStr "vertical"));
             (Some (VStr "point"), Some (VStr "horizontal"))].
Proof.
  split; [reflexivity|].
  eexists _, _. split; [vm_compute; reflexivity|]. split; reflexivity.
Qed.

(** The leaf judges the query of the spec as it is before the improvements
    and emits the spec as it is after them. *)
Lemma leaf_judges_unimproved {PO : PropObjects} {OR : Oracle} (g : Generator.t)
    base_spec specs named improved w w1 w2 :
  Generator.populate_field_names (base_spec, w) = (Return tt, (named, w1)) ->
  Model_improve (Generator.model g) (named, w1) = (Return tt, (improved, w2)) ->
  Generator.mutate_spec 1 g base_spec (List.length (heap w)) specs w
  = (if is_valid (Generator.data g, from_vegalite named)
     then Return (specs ++ [improved])%list
     else Return specs, w2).
Proof.
  intros E1 E2. rewrite mutate_spec_unfold.
  rewrite nth_overflow by lia.
  unfold leaf, bind, on_spec. rewrite E1, E2.
  destruct (is_valid (Generator.data g, from_vegalite named)); reflexivity.
Qed.

(** C4. Leaf finalization judges the query built before the improvements.
    First run: the only mark is [rect] and the oracle rejects every query
    with a top-level scale; the spec is emitted with the scale the
    improvements put on it, although the oracle rejects the query of the
    emitted spec. Second run: a bar chart with a quantitative [x] and a
    nominal [y] under an oracle that rejects every aggregate; the spec is
    emitted with the aggregate the improvements put on [x]. *)
Theorem leaf_query_precedes_improvements :
  (exists spec w',
     @Generator.generate_interaction example_objects reject_scale
       rect_generator 0 1 (example_world 0 [[]])
     = (Return [spec], w')
     /\ dget "scale" spec = Some (VDict [("zero", VBool true)])
     /\ @is_valid reject_scale
          (Generator.data rect_generator, @from_vegalite reject_scale spec) = false)
  /\ (exists spec w',
        @Generator.generate_interaction example_objects reject_aggregate
          bar_generator 0 2 bar_world
        = (Return [spec], w')
        /\ dget "encoding" spec
           = Some (VDict [("x", VDict [("type", VStr "quantitative");
                                       ("field", VStr "q1");
                                       ("aggregate", VStr "mean")]);
                          ("y", VDict [("type", VStr "nominal");
                                       ("field", VStr "n1")])])
        /\ @is_valid reject_aggregate
             (Generator.data bar_generator, @from_vegalite reject_aggregate spec)
           = false).
Proof.
  split.
  - eexists _, _. split; [vm_compute; reflexivity|]. split; reflexivity.
  - eexists _, _. split; [vm_compute; reflexivity|]. split; reflexivity.
Qed.

(** The configuration of the end-to-end scenario is well formed. *)
Lemma example_well_formed :
  well_formed example_distributions ["mark"; "orient"] ["type"].
Proof.
  constructor.
  - intros p [[<-|[<-|[]]]|[<-|[]]]; eexists; (split; [reflexivity | discriminate]).
  - simpl. intros [H|[H|[]]]; discriminate.
  - simpl. intros [H|[]]; discriminate.
  - simpl. intros [H|[H|[]]]; discriminate.
Defined.

Lemma example_encoding_keys c : In c ["x"] -> c = "x".
Proof. intros [<-|[]]. reflexivity. Defined.

(** The rename of the only used channel [x] to the unused [y]. *)
Lemma mutate_prop_channel_rename_raises_witness :
  exists c,
    In c ["x"]
    /\ @Model.mutate_prop example_objects example_model "channel" "y"
         (example_spec, example_world 0 [])
       = (Raise (KeyError c), (example_spec, advance (example_world 0 []))).
Proof.
  apply (@mutate_prop_channel_rename_raises example_objects example_model
           example_spec [("x", VDict [("type", VStr "quantitative")])] "y"
           (example_world 0 [])).
  - simpl. intros [H|[H|[]]]; discriminate.
  - reflexivity.
  - discriminate.
  - simpl. intros [H|[]]. discriminate.
  - intros c Hc. rewrite (example_encoding_keys c Hc). discriminate.
  - intros c Hc. rewrite (example_encoding_keys c Hc). reflexivity.
Defined.

(** Setting the encoding-level property [type] on the only used channel. *)
Lemma mutate_prop_encoding_prop_raises_witness :
  exists c,
    In c ["x"]
    /\ @Model.mutate_prop example_objects example_model "type" "quantitative"
         (example_spec, example_world 0 [])
       = (Raise (KeyError c), (example_spec, advance (example_world 0 []))).
Proof.
  apply (@mutate_prop_encoding_prop_raises example_objects example_model "type"
           example_spec [("x", VDict [("type", VStr "quantitative")])] "quantitative"
           (example_world 0 [])).
  - simpl. intros [H|[H|[]]]; discriminate.
  - discriminate.
  - simpl. auto.
  - reflexivity.
  - discriminate.
  - intros c Hc. rewrite (example_encoding_keys c Hc). discriminate.
  - intros c Hc. rewrite (example_encoding_keys c Hc). reflexivity.
Defined.

(** Mutating [channel] to [x], which the spec already uses. *)
Lemma mutate_prop_used_channel_unchanged_witness :
  exists e w',
    @Model.mutate_prop example_objects example_model "channel" "x"
      (example_spec, example_world 0 [])
    = (Raise e, (example_spec, w'))
    /\ (~ In "channel" (Model.encoding_props example_model) ->
        e = ValueError "invalid prop" /\ w' = example_world 0 []).
Proof.
  apply (@mutate_prop_used_channel_unchanged example_objects example_model
           example_spec [("x", VDict [("type", VStr "quantitative")])] "x"
           (example_world 0 [])).
  - simpl. intros [H|[H|[]]]; discriminate.
  - reflexivity.
  - simpl. auto.
  - intros _ c Hc. rewrite (example_encoding_keys c Hc). reflexivity.
Defined.

(** Two dimensions out of the two declared channels. *)
Lemma generate_spec_distinct_channels_witness :
  exists spec encoding w',
    @Model.generate_spec example_objects
      (Model.init example_distributions ["mark"; "orient"] ["type"]) 2
      (example_world 0 [])
    = (Return spec, w')
    /\ dget "encoding" spec = Some (VDict encoding)
    /\ List.length encoding = 2
    /\ NoDup (dkeys encoding)
    /\ incl (dkeys encoding) (channel_enums example_distributions).
Proof.
  apply (@generate_spec_distinct_channels example_objects example_distributions
           ["mark"; "orient"] ["type"] example_well_formed 2 (example_world 0 [])).
  - repeat constructor; simpl; intuition discriminate.
  - simpl. lia.
Defined.

(** Three dimensions out of the two declared channels. *)
Lemma generate_spec_exhausted_witness :
  exists w',
    @Model.generate_spec example_objects
      (Model.init example_distributions ["mark"; "orient"] ["type"]) 3
      (example_world 0 [])
    = (Raise IndexError, w').
Proof.
  apply (@generate_spec_exhausted example_objects example_distributions
           ["mark"; "orient"] ["type"] example_well_formed 3 (example_world 0 [])).
  - simpl. auto.
  - simpl. lia.
Defined.

Lemma shaped_typed aggregate : typed (shaped_encodings aggregate).
Proof.
  intros channel e [H|[H|[H|[]]]]; injection H as <- <-;
    eexists; (split; [reflexivity | simpl; auto]).
Defined.

Lemma populate_field_names_deterministic_witness :
  let names := ["q1"; "n1"; "q2"] in
  Generator.populate_field_names (shaped_spec "bar" "mean", example_world 0 [])
  = (Return tt,
     (dset "encoding" (VDict (with_fields (shaped_encodings "mean") names))
           (shaped_spec "bar" "mean"),
      example_world 0 []))
  /\ Generator.populate_field_names (shaped_spec "point" "sum", example_world 1 [])
     = (Return tt,
        (dset "encoding" (VDict (with_fields (shaped_encodings "sum") names))
              (shaped_spec "point" "sum"),
         example_world 1 []))
  /\ assigned (with_fields (shaped_encodings "mean") names)
     = combine ["x"; "color"; "y"] names
  /\ assigned (with_fields (shaped_encodings "sum") names)
     = assigned (with_fields (shaped_encodings "mean") names).
Proof.
  apply (populate_field_names_deterministic
           (shaped_spec "bar" "mean") (shaped_spec "point" "sum")
           (shaped_encodings "mean") (shaped_encodings "sum")
           (example_world 0 []) (example_world 1 [])).
  - reflexivity.
  - reflexivity.
  - repeat constructor; simpl; intuition discriminate.
  - apply shaped_typed.
  - apply shaped_typed.
  - reflexivity.
Defined.

(** The caller's list [['mark', 'orient']] after the whole enumeration. *)
Lemma generate_interaction_keeps_props_witness :
  nth 0 (heap (snd (@Generator.generate_interaction example_objects accept_all
                      example_generator 0 1
                      (example_world 0 [["mark"; "orient"]])))) []
  = ["mark"; "orient"]
  /\ (forall r, r < 1 ->
        nth r (heap (snd (@Generator.generate_interaction example_objects accept_all
                            example_generator 0 1
                            (example_world 0 [["mark"; "orient"]])))) []
        = nth r [["mark"; "orient"]] [])
  /\ fst (@Generator.generate_interaction example_objects accept_all
            example_generator 0 1 (example_world 0 [["mark"; "orient"]]))
     <> Raise RecursionError.
Proof.
  apply (@generate_interaction_keeps_props example_objects accept_all
           example_generator 0 1 (example_world 0 [["mark"; "orient"]])).
  simpl. lia.
Defined.

(** * Further properties *)

(** ** The weighted sampler, continued *)

(** On a non-empty weight list with enough values, [sample] consumes one
    draw and returns the index [sample_index] with the value stored there. *)
Lemma sample_run {V : Type} (values : list V) (weights : list Q) (w : world) :
  weights <> [] ->
  List.length weights <= List.length values ->
  exists v,
    Model.sample values weights w
    = (Return (v, sample_index weights (rng w 0)), advance w)
    /\ sample_index weights (rng w 0) < List.length weights
    /\ nth_error values (sample_index weights (rng w 0)) = Some v.
Proof.
  intros Hne Hlen.
  assert (Hpos : 0 < List.length weights) by (destruct weights; simpl; [congruence | lia]).
  pose proof (cumsum_length weights) as Hc.
  assert (Hidx : sample_index weights (rng w 0) < List.length weights).
  { unfold sample_index. cbv zeta.
    pose proof (searchsorted_le (cumsum weights) (choice weights (rng w 0))) as Hs.
    destruct (Nat.eqb_spec (searchsorted (cumsum weights) (choice weights (rng w 0)))
                           (List.length (cumsum weights))); lia. }
  destruct (nth_error values (sample_index weights (rng w 0))) as [v|] eqn:Ev.
  2:{ apply nth_error_None in Ev. lia. }
  exists v. repeat split; auto.
  unfold Model.sample, item_last, item, uniform, random, bind, ret.
  unfold sample_index, choice, total_weight in Ev. rewrite Hc.
  destruct (nth_error (cumsum weights) (List.length weights - 1)) as [total|] eqn:Et.
  2:{ apply nth_error_None in Et. lia. }
  cbv beta iota zeta in *. rewrite Hc in Ev. rewrite Ev.
  unfold sample_index, choice, total_weight. rewrite Et, Hc. reflexivity.
Qed.

(** X1. [sample] raises exactly when the weight list is empty (the values
    being at least as many as the weights): on an empty weight list it
    raises [IndexError] without consuming a draw; otherwise it returns
    normally, whatever the weights and the draw are, and consumes exactly
    one draw. *)
Theorem sample_raises_iff_empty {V : Type} (values : list V) (weights : list Q)
    (w : world) :
  List.length weights <= List.length values ->
  (weights = [] -> Model.sample values weights w = (Raise IndexError, w))
  /\ (weights <> [] ->
      exists v i,
        Model.sample values weights w = (Return (v, i), advance w)
        /\ i < List.length weights
        /\ nth_error values i = Some v).
Proof.
  intros Hlen. split.
  - intros ->. reflexivity.
  - intros Hne. destruct (sample_run values weights w Hne Hlen) as (v & E & Hi & Hv).
    eauto.
Qed.

Lemma sample_raises_iff_empty_witness :
  (@nil Q = [] ->
   Model.sample ["x"; "y"] [] (example_world 0 []) = (Raise IndexError, example_world 0 []))
  /\ (@nil Q <> [] ->
      exists v i,
        Model.sample ["x"; "y"] [] (example_world 0 [])
        = (Return (v, i), advance (example_world 0 []))
        /\ i < 0
        /\ nth_error ["x"; "y"] i = Some v).
Proof.
  apply (sample_raises_iff_empty ["x"; "y"] [] (example_world 0 [])).
  simpl. lia.
Defined.

Lemma total_weight_last weights total :
  nth_error (cumsum weights) (List.length weights - 1) = Some total ->
  total_weight weights = total.
Proof. unfold total_weight. now intros ->. Qed.

Lemma cumsum_nonneg weights :
  (forall p, In p weights -> (0 <= p)%Q) ->
  forall c, In c (cumsum weights) -> (0 <= c)%Q.
Proof.
  destruct weights as [|p l]; simpl; intros Hnn c Hc; [tauto|].
  assert (0 <= p)%Q by auto.
  destruct Hc as [<-|Hc]; auto.
  apply cumsum_from_ge in Hc; auto. lra.
Qed.

Lemma total_weight_nonneg weights :
  (forall p, In p weights -> (0 <= p)%Q) -> (0 <= total_weight weights)%Q.
Proof.
  intros Hnn. unfold total_weight.
  destruct (nth_error (cumsum weights) (List.length weights - 1)) as [t|] eqn:E; [|lra].
  apply nth_error_In in E. eapply cumsum_nonneg; eauto.
Qed.

(** With non-negative weights a draw in [0, 1] gives a choice in
    [0, total]. *)
Lemma choice_in_range weights u :
  (forall p, In p weights -> (0 <= p)%Q) ->
  (0 <= u <= 1)%Q ->
  (0 <= choice weights u <= total_weight weights)%Q.
Proof.
  intros Hnn Hu. pose proof (total_weight_nonneg weights Hnn). unfold choice. nra.
Qed.

(** Inside the range of the running sums no clamping takes place. *)
Lemma sample_index_unclamped weights u :
  weights <> [] ->
  (choice weights u <= total_weight weights)%Q ->
  sample_index weights u = searchsorted (cumsum weights) (choice weights u)
  /\ sample_index weights u < List.length weights.
Proof.
  intros Hne Hch.
  assert (Hpos : 0 < List.length weights) by (destruct weights; simpl; [congruence | lia]).
  pose proof (cumsum_length weights) as Hc.
  destruct (nth_error (cumsum weights) (List.length weights - 1)) as [total|] eqn:Et.
  2:{ apply nth_error_None in Et. lia. }
  rewrite (total_weight_last _ _ Et) in Hch.
  assert (Hin : searchsorted (cumsum weights) (choice weights u)
                < List.length (cumsum weights)).
  { apply searchsorted_inside with (total := total); auto. now rewrite Hc. }
  unfold sample_index. cbv zeta.
  destruct (Nat.eqb_spec (searchsorted (cumsum weights) (choice weights u))
                         (List.length (cumsum weights))); lia.
Qed.

(** The index [sample] returns is the least one whose running sum reaches
    the choice. *)
Lemma sample_least {V : Type} (values : list V) (weights : list Q)
    (w : world) :
  weights <> [] ->
  List.length values = List.length weights ->
  (forall p, In p weights -> (0 <= p)%Q) ->
  (0 <= rng w 0 <= 1)%Q ->
  exists v i c,
    Model.sample values weights w = (Return (v, i), advance w)
    /\ nth_error values i = Some v
    /\ nth_error (cumsum weights) i = Some c
    /\ (choice weights (rng w 0) <= c)%Q
    /\ (forall j cj, j < i -> nth_error (cumsum weights) j = Some cj ->
          (cj < choice weights (rng w 0))%Q).
Proof.
  intros Hne Hlen Hnn Hu.
  destruct (sample_run values weights w Hne) as (v & E & Hi & Hv); [lia|].
  destruct (choice_in_range weights (rng w 0) Hnn Hu) as [_ Hch].
  destruct (sample_index_unclamped weights (rng w 0) Hne Hch) as [Hidx _].
  rewrite Hidx in *.
  destruct (nth_error (cumsum weights)
              (searchsorted (cumsum weights) (choice weights (rng w 0)))) as [c|] eqn:Ec.
  2:{ apply nth_error_None in Ec. rewrite cumsum_length in Ec. lia. }
  exists v, (searchsorted (cumsum weights) (choice weights (rng w 0))), c.
  repeat split; auto.
  - eapply searchsorted_reaches; eauto.
  - intros j cj Hj Hcj. eapply searchsorted_below; eauto.
Qed.

(** X2. With non-negative weights and a draw in [0, 1], the index [sample]
    returns is the least one whose running sum reaches the choice: every
    running sum before it is strictly below the choice, and its own is not.
    This is the inverse of the cumulative distribution of the weights. *)
Theorem sample_least_index {V : Type} (values : list V) (weights : list Q)
    (w : world) :
  weights <> [] ->
  List.length values = List.length weights ->
  (forall p, In p weights -> (0 <= p)%Q) ->
  (0 <= rng w 0 <= 1)%Q ->
  exists v i c,
    Model.sample values weights w = (Return (v, i), advance w)
    /\ nth_error values i = Some v
    /\ nth_error (cumsum weights) i = Some c
    /\ (choice weights (rng w 0) <= c)%Q
    /\ (forall j cj, j < i -> nth_error (cumsum weights) j = Some cj ->
          (cj < choice weights (rng w 0))%Q).
Proof. apply sample_least. Qed.

Lemma sample_least_index_witness :
  exists v i c,
    Model.sample ["x"; "y"] [3 # 5; 2 # 5]%Q (example_world (7 # 10) [])
    = (Return (v, i), advance (example_world (7 # 10) []))
    /\ nth_error ["x"; "y"] i = Some v
    /\ nth_error (cumsum [3 # 5; 2 # 5]%Q) i = Some c
    /\ (choice [3 # 5; 2 # 5]%Q (7 # 10) <= c)%Q
    /\ (forall j cj, j < i -> nth_error (cumsum [3 # 5; 2 # 5]%Q) j = Some cj ->
          (cj < choice [3 # 5; 2 # 5]%Q (7 # 10))%Q).
Proof.
  apply (sample_least_index ["x"; "y"] [3 # 5; 2 # 5]%Q (example_world (7 # 10) [])).
  - discriminate.
  - reflexivity.
  - simpl. intros p [<-|[<-|[]]]; vm_compute; discriminate.
  - split; vm_compute; discriminate.
Defined.

(** Each running sum is the one before plus the weight at its position. *)
Lemma cumsum_from_step acc l : forall j c',
  nth_error (cumsum_from acc l) (S j) = Some c' ->
  exists c x,
    nth_error (cumsum_from acc l) j = Some c
    /\ nth_error l (S j) = Some x
    /\ c' = (c + x)%Q.
Proof.
  revert acc. induction l as [|a l IH]; intros acc j c'; [discriminate|].
  simpl. destruct j as [|j].
  - destruct l as [|b l]; [discriminate|]. simpl. intros [= <-]. eauto.
  - intros H. apply IH in H. exact H.
Qed.

Lemma cumsum_step l j c' :
  nth_error (cumsum l) (S j) = Some c' ->
  exists c x,
    nth_error (cumsum l) j = Some c
    /\ nth_error l (S j) = Some x
    /\ c' = (c + x)%Q.
Proof.
  destruct l as [|a l]; [discriminate|]. simpl. destruct j as [|j].
  - destruct l as [|b l]; [discriminate|]. simpl. intros [= <-]. eauto.
  - intros H. apply cumsum_from_step in H. exact H.
Qed.

Lemma cumsum_head l c x :
  nth_error (cumsum l) 0 = Some c -> nth_error l 0 = Some x -> c = x.
Proof. destruct l; simpl; congruence. Qed.

(** X3. With non-negative weights and a draw in [0, 1], a value of weight
    zero is never returned, except the first value when the choice is
    exactly zero. *)
Theorem sample_skips_zero_weight {V : Type} (values : list V) (weights : list Q)
    (w : world) :
  weights <> [] ->
  List.length values = List.length weights ->
  (forall p, In p weights -> (0 <= p)%Q) ->
  (0 <= rng w 0 <= 1)%Q ->
  exists v i,
    Model.sample values weights w = (Return (v, i), advance w)
    /\ forall x, nth_error weights i = Some x -> (x == 0)%Q ->
         i = 0 /\ (choice weights (rng w 0) == 0)%Q.
Proof.
  intros Hne Hlen Hnn Hu.
  destruct (sample_least values weights w Hne Hlen Hnn Hu)
    as (v & i & c & E & Hv & Hc & Hreach & Hbelow).
  exists v, i. split; auto. intros x Hx Hzero.
  destruct (choice_in_range weights (rng w 0) Hnn Hu) as [Hge _].
  destruct i as [|j].
  - split; auto. rewrite (cumsum_head _ _ _ Hc Hx) in Hreach. lra.
  - exfalso. destruct (cumsum_step weights j c Hc) as (cj & x' & Hcj & Hx' & ->).
    assert (x' = x) by congruence. subst x'.
    pose proof (Hbelow j cj (Nat.lt_succ_diag_r j) Hcj). lra.
Qed.

Lemma sample_skips_zero_weight_witness :
  exists v i,
    Model.sample ["x"; "y"; "size"] [3 # 5; 0; 2 # 5]%Q (example_world (3 # 5) [])
    = (Return (v, i), advance (example_world (3 # 5) []))
    /\ forall x, nth_error [3 # 5; 0; 2 # 5]%Q i = Some x -> (x == 0)%Q ->
         i = 0 /\ (choice [3 # 5; 0; 2 # 5]%Q (3 # 5) == 0)%Q.
Proof.
  apply (sample_skips_zero_weight ["x"; "y"; "size"] [3 # 5; 0; 2 # 5]%Q
                                  (example_world (3 # 5) [])).
  - discriminate.
  - reflexivity.
  - simpl. intros p [<-|[<-|[<-|[]]]]; vm_compute; discriminate.
  - split; vm_compute; discriminate.
Defined.

Lemma cumsum_from_zero acc l :
  (forall p, In p l -> (p == 0)%Q) ->
  forall c, In c (cumsum_from acc l) -> (c == acc)%Q.
Proof.
  revert acc. induction l as [|p l IH]; simpl; intros acc Hz c Hc; [tauto|].
  assert (p == 0)%Q by auto.
  destruct Hc as [<-|Hc]; [lra|]. apply IH in Hc; auto. lra.
Qed.

(** X4. Weights that are all zero are not an error for [sample]: whatever
    the draw, it returns the first value, with index 0. *)
Theorem sample_all_zero_first {V : Type} (v0 : V) (values : list V)
    (weights : list Q) (w : world) :
  List.length (v0 :: values) = List.length weights ->
  (forall p, In p weights -> (p == 0)%Q) ->
  Model.sample (v0 :: values) weights w = (Return (v0, 0), advance w).
Proof.
  intros Hlen Hz. destruct weights as [|p ws]; [discriminate|].
  destruct (sample_run (v0 :: values) (p :: ws) w) as (v & E & Hi & Hv);
    [discriminate | simpl in *; lia |].
  assert (Hp : (p == 0)%Q) by (apply Hz; simpl; auto).
  assert (Ht : (total_weight (p :: ws) == 0)%Q).
  { unfold total_weight.
    destruct (nth_error (cumsum (p :: ws)) (List.length (p :: ws) - 1)) as [t|] eqn:Et;
      [|lra].
    apply nth_error_In in Et. simpl in Et. destruct Et as [<-|Et]; auto.
    apply cumsum_from_zero in Et; [lra|]. intros q Hq. apply Hz. simpl. auto. }
  assert (Hidx : sample_index (p :: ws) (rng w 0) = 0).
  { unfold sample_index. cbv zeta. cbn [cumsum searchsorted].
    assert (Hlt : Qltb p (choice (p :: ws) (rng w 0)) = false).
    { apply Qltb_false. unfold choice. nra. }
    rewrite Hlt. reflexivity. }
  rewrite Hidx in *. simpl in Hv. injection Hv as <-. exact E.
Qed.

Lemma sample_all_zero_first_witness :
  Model.sample ["x"; "y"] [0; 0]%Q (example_world (9 # 10) [])
  = (Return ("x", 0), advance (example_world (9 # 10) [])).
Proof.
  apply (sample_all_zero_first "x" ["y"] [0; 0]%Q (example_world (9 # 10) [])).
  - reflexivity.
  - simpl. intros p [<-|[<-|[]]]; reflexivity.
Defined.

Lemma searchsorted_monotone a v v' :
  (v <= v')%Q -> searchsorted a v <= searchsorted a v'.
Proof.
  intros Hv. induction a as [|x a IH]; simpl; auto.
  destruct (Qltb x v) eqn:E; [|lia].
  apply Qltb_true in E.
  assert (E' : Qltb x v' = true) by (apply Qltb_true; lra).
  rewrite E'. lia.
Qed.

(** X5. [sample] is monotone in the draw: with non-negative weights, a
    larger draw never selects an earlier value. *)
Theorem sample_monotone {V : Type} (values : list V) (weights : list Q)
    (w1 w2 : world) :
  weights <> [] ->
  List.length values = List.length weights ->
  (forall p, In p weights -> (0 <= p)%Q) ->
  (rng w1 0 <= rng w2 0)%Q ->
  exists v1 i1 v2 i2,
    Model.sample values weights w1 = (Return (v1, i1), advance w1)
    /\ Model.sample values weights w2 = (Return (v2, i2), advance w2)
    /\ i1 <= i2.
Proof.
  intros Hne Hlen Hnn Hu.
  destruct (sample_run values weights w1 Hne) as (v1 & E1 & _ & _); [lia|].
  destruct (sample_run values weights w2 Hne) as (v2 & E2 & _ & _); [lia|].
  exists v1, (sample_index weights (rng w1 0)), v2, (sample_index weights (rng w2 0)).
  repeat split; auto.
  pose proof (total_weight_nonneg weights Hnn) as Ht.
  assert (Hch : (choice weights (rng w1 0) <= choice weights (rng w2 0))%Q)
    by (unfold choice; nra).
  pose proof (searchsorted_monotone (cumsum weights) _ _ Hch) as Hs.
  pose proof (searchsorted_le (cumsum weights) (choice weights (rng w2 0))) as Hle.
  unfold sample_index. cbv zeta.
  destruct (Nat.eqb_spec (searchsorted (cumsum weights) (choice weights (rng w1 0)))
                         (List.length (cumsum weights)));
    destruct (Nat.eqb_spec (searchsorted (cumsum weights) (choice weights (rng w2 0)))
                           (List.length (cumsum weights))); lia.
Qed.

Lemma sample_monotone_witness :
  exists v1 i1 v2 i2,
    Model.sample ["x"; "y"] [3 # 5; 2 # 5]%Q (example_world (1 # 10) [])
    = (Return (v1, i1), advance (example_world (1 # 10) []))
    /\ Model.sample ["x"; "y"] [3 # 5; 2 # 5]%Q (example_world (9 # 10) [])
       = (Return (v2, i2), advance (example_world (9 # 10) []))
    /\ i1 <= i2.
Proof.
  apply (sample_monotone ["x"; "y"] [3 # 5; 2 # 5]%Q
                         (example_world (1 # 10) []) (example_world (9 # 10) [])).
  - discriminate.
  - reflexivity.
  - simpl. intros p [<-|[<-|[]]]; vm_compute; discriminate.
  - vm_compute. discriminate.
Defined.

(** ** The tables built by [Model.__init__] *)

Lemma dget_map_key {A B : Type} (f : string -> A -> B) k (d : dict A) :
  dget k (map (fun kv => (fst kv, f (fst kv) (snd kv))) d)
  = option_map (f k) (dget k d).
Proof.
  induction d as [|[k' v] d IH]; simpl; auto.
  destruct (String.eqb_spec k k'); subst; auto.
Qed.

Lemma fold_dset_last values : forall (acc : dict Q) name,
  dget name
       (fold_left (fun d ep => dset (fst ep) (snd ep) d)
                  (combine (map Model.name values)
                           (map Model.enum_probability values))
                  acc)
  = match last_probability values name with
    | Some p => Some p
    | None => dget name acc
    end.
Proof.
  induction values as [|v values IH]; intros acc name; [reflexivity|].
  cbn [map combine fold_left fst snd last_probability]. rewrite IH.
  destruct (last_probability values name); auto.
  destruct (String.eqb_spec name (Model.name v)) as [->|Hne].
  - apply dget_dset_same.
  - now apply dget_dset_other.
Qed.

Lemma last_probability_None values name :
  ~ In name (map Model.name values) -> last_probability values name = None.
Proof.
  induction values as [|v values IH]; simpl; auto.
  intros H. rewrite IH by tauto.
  destruct (String.eqb_spec name (Model.name v)); auto. subst. tauto.
Qed.

Lemma last_probability_distinct values v :
  NoDup (map Model.name values) -> In v values ->
  last_probability values (Model.name v) = Some (Model.enum_probability v).
Proof.
  induction values as [|a values IH]; simpl; [tauto|].
  intros Hnd [->|Hin].
  - rewrite last_probability_None by (now apply NoDup_cons_iff in Hnd).
    now rewrite String.eqb_refl.
  - rewrite IH; auto. now apply NoDup_cons_iff in Hnd.
Qed.

(** X6. The tables [Model.__init__] builds for a property of the
    distribution table: [get_enums] returns the declared names in their
    order, the weights have the same order and length, and [enum_probs]
    maps every name to the probability of the last declared value of that
    name (so to the probability of the value itself when the names are
    pairwise distinct), and no other name to anything. *)
Theorem init_tables (S : Type) (ds : dict Model.distribution) (top enc : list string)
    (prop : string) (d : Model.distribution) (s : S) :
  dget prop ds = Some d ->
  let m := Model.init ds top enc in
  Model.get_enums m prop s = (Return (map Model.name (Model.values d)), s)
  /\ dget prop (Model.probs m) = Some (map Model.enum_probability (Model.values d))
  /\ exists table,
       dget prop (Model.enum_probs m) = Some table
       /\ (forall name, dget name table = last_probability (Model.values d) name)
       /\ (NoDup (map Model.name (Model.values d)) ->
           forall v, In v (Model.values d) ->
             dget (Model.name v) table = Some (Model.enum_probability v))
       /\ (forall name, ~ In name (map Model.name (Model.values d)) ->
             dget name table = None).
Proof.
  intros Hd m.
  assert (He : dget prop (Model.enums m) = Some (map Model.name (Model.values d))).
  { cbn [m Model.init Model.enums].
    rewrite (dget_map (fun d => map Model.name (Model.values d))). now rewrite Hd. }
  assert (Hp : dget prop (Model.probs m)
               = Some (map Model.enum_probability (Model.values d))).
  { cbn [m Model.init Model.probs].
    rewrite (dget_map (fun d => map Model.enum_probability (Model.values d))).
    now rewrite Hd. }
  split; [unfold Model.get_enums, getitem; now rewrite He|].
  split; [exact Hp|].
  exists (fold_left (fun d ep => dset (fst ep) (snd ep) d)
                    (combine (map Model.name (Model.values d))
                             (map Model.enum_probability (Model.values d))) []).
  assert (Hl : forall name,
             dget name
                  (fold_left (fun d ep => dset (fst ep) (snd ep) d)
                     (combine (map Model.name (Model.values d))
                              (map Model.enum_probability (Model.values d))) [])
             = last_probability (Model.values d) name).
  { intros name. rewrite fold_dset_last.
    destruct (last_probability (Model.values d) name); reflexivity. }
  repeat split; auto.
  - cbn [m Model.init Model.enum_probs Model.enums Model.probs] in *.
    rewrite (dget_map_key
               (fun prop enums =>
                  fold_left (fun d ep => dset (fst ep) (snd ep) d)
                    (combine enums
                       match dget prop
                               (map (fun kd => (fst kd,
                                       map Model.enum_probability (Model.values (snd kd))))
                                    ds)
                       with Some p => p | None => [] end) [])).
    rewrite He. cbn [option_map]. now rewrite Hp.
  - intros Hnd v Hv. rewrite Hl. now apply last_probability_distinct.
  - intros name Hn. rewrite Hl. now apply last_probability_None.
Qed.

Lemma init_tables_witness :
  let m := Model.init example_distributions ["mark"; "orient"] ["type"] in
  @Model.get_enums unit m "channel" tt = (Return ["x"; "y"], tt)
  /\ dget "channel" (Model.probs m) = Some [3 # 5; 2 # 5]%Q
  /\ exists table,
       dget "channel" (Model.enum_probs m) = Some table
       /\ (forall name,
             dget name table
             = last_probability [Model.mkEnum "x" (3 # 5); Model.mkEnum "y" (2 # 5)] name)
       /\ (NoDup ["x"; "y"] ->
           forall v, In v [Model.mkEnum "x" (3 # 5); Model.mkEnum "y" (2 # 5)] ->
             dget (Model.name v) table = Some (Model.enum_probability v))
       /\ (forall name, ~ In name ["x"; "y"] -> dget name table = None).
Proof.
  apply (@init_tables unit example_distributions ["mark"; "orient"] ["type"]
           "channel" (Model.mkDist 1 [Model.mkEnum "x" (3 # 5); Model.mkEnum "y" (2 # 5)])
           tt).
  reflexivity.
Defined.

(** ** Mutation, continued *)

Section MutatePropMore.
Context {PO : PropObjects}.
Variable m : Model.t.

(** X7. For a top-level property [mutate_prop] returns normally, whatever
    the spec holds: it stores the value built from the enum under the
    property (overwriting in place, or appending a new key), leaves every
    other key of the spec alone and consumes no randomness. The top-level
    branch comes first: it is also taken for ['channel'] or an encoding-level
    name that is configured as top-level. *)
Theorem mutate_prop_top_level prop enum spec w :
  In prop (Model.top_level_props m) ->
  exists spec',
    Model.mutate_prop m prop enum (spec, w) = (Return tt, (spec', w))
    /\ dget prop spec' = Some (Model.build_value_from_enum prop enum)
    /\ (forall k, k <> prop -> dget k spec' = dget k spec)
    /\ (In prop (dkeys spec) -> dkeys spec' = dkeys spec)
    /\ (~ In prop (dkeys spec) -> dkeys spec' = (dkeys spec ++ [prop])%list).
Proof.
  intros Hin. apply mem_In in Hin.
  exists (dset prop (Model.build_value_from_enum prop enum) spec).
  repeat split.
  - unfold Model.mutate_prop, bind, get_spec, put_spec. cbn [fst snd].
    now rewrite Hin.
  - apply dget_dset_same.
  - intros k Hk. now apply dget_dset_other.
  - apply dkeys_dset_present.
  - intros Hfresh. rewrite dset_fresh by exact Hfresh.
    unfold dkeys. now rewrite map_app.
Qed.

(** X8. On a spec whose encoding map is empty, [mutate_prop] with
    ['channel'] or with an encoding-level property (neither being top-level)
    raises [IndexError]: there is no used channel to sample from. The spec
    is unchanged and no draw is consumed. *)
Theorem mutate_prop_empty_encoding prop enum spec w :
  ~ In prop (Model.top_level_props m) ->
  prop = "channel" \/ In prop (Model.encoding_props m) ->
  dget "encoding" spec = Some (VDict []) ->
  Model.mutate_prop m prop enum (spec, w) = (Raise IndexError, (spec, w)).
Proof.
  intros Htop Hprop Hget. apply mem_false in Htop.
  unfold Model.mutate_prop, bind, get_spec, getitem, as_dict. cbn [fst snd].
  rewrite Htop.
  destruct (String.eqb prop "channel") eqn:Ec.
  - rewrite Hget. cbn [ret dmem dget negb dkeys map mapM]. reflexivity.
  - cbn [ret]. destruct Hprop as [->|Henc]; [discriminate|].
    apply mem_In in Henc. rewrite Henc, Hget. reflexivity.
Qed.
End MutatePropMore.

Lemma mutate_prop_top_level_witness :
  exists spec',
    @Model.mutate_prop example_objects example_model "mark" "point"
      (example_spec, example_world 0 [])
    = (Return tt, (spec', example_world 0 []))
    /\ dget "mark" spec' = Some (@Model.build_value_from_enum example_objects "mark" "point")
    /\ (forall k, k <> "mark" -> dget k spec' = dget k example_spec)
    /\ (In "mark" (dkeys example_spec) -> dkeys spec' = dkeys example_spec)
    /\ (~ In "mark" (dkeys example_spec) ->
        dkeys spec' = (dkeys example_spec ++ ["mark"])%list).
Proof.
  apply (@mutate_prop_top_level example_objects example_model "mark" "point"
           example_spec (example_world 0 [])).
  simpl. auto.
Defined.

Lemma mutate_prop_empty_encoding_witness :
  @Model.mutate_prop example_objects example_model "channel" "x"
    ([("encoding", VDict []); ("mark", VStr "bar")], example_world 0 [])
  = (Raise IndexError, ([("encoding", VDict []); ("mark", VStr "bar")], example_world 0 [])).
Proof.
  apply (@mutate_prop_empty_encoding example_objects example_model "channel" "x"
           [("encoding", VDict []); ("mark", VStr "bar")] (example_world 0 [])).
  - simpl. intros [H|[H|[]]]; discriminate.
  - left. reflexivity.
  - reflexivity.
Defined.

(** ** The improvements *)

Section ImprovementsFacts.
Context {PO : PropObjects}.

Ltac unchanged_case :=
  do 3 eexists; split; [reflexivity|]; split; [solve [auto] | left; reflexivity].

(** The outcomes of [improve_aggregate]. *)
Lemma improve_aggregate_outcomes (spec : dict value) (w : world) :
  exists r spec' w',
    Improvements.improve_aggregate (spec, w) = (r, (spec', w'))
    /\ (w' = w \/ w' = advance w)
    /\ (spec' = spec
        \/ exists mark encodings x_enc y_enc,
             r = Return tt
             /\ w' = advance w
             /\ (1 # 2 <= rng w 0)%Q
             /\ dget "mark" spec = Some mark
             /\ aggregate_mark mark = true
             /\ dget "encoding" spec = Some (VDict encodings)
             /\ dget "x" encodings = Some (VDict x_enc)
             /\ dget "y" encodings = Some (VDict y_enc)
             /\ ((is_quantitative x_enc = true /\ is_quantitative y_enc = false
                  /\ spec' = with_mean spec encodings "x" x_enc)
                 \/ (is_quantitative x_enc = false /\ is_quantitative y_enc = true
                     /\ spec' = with_mean spec encodings "y" y_enc))).
Proof.
  unfold Improvements.improve_aggregate, Model.get_enc_by_channel, set_enc, lift,
    random, bind, get_spec, put_spec, getitem, as_dict.
  cbn [fst snd].
  destruct (dget "mark" spec) as [mark|] eqn:Emark; cbn [ret raise fst snd];
    [|unchanged_case].
  fold (aggregate_mark mark).
  destruct (aggregate_mark mark) eqn:Eagg; cbn [negb ret raise fst snd];
    [|unchanged_case].
  destruct (Qltb (rng w 0) (1 # 2)) eqn:Ecoin; cbn [ret raise fst snd];
    [unchanged_case|].
  apply Qltb_false in Ecoin.
  destruct (dget "encoding" spec) as [[| |encodings]|] eqn:Eenc; cbn [ret raise fst snd];
    try unchanged_case.
  destruct (dget "x" encodings) as [x_enc|] eqn:Ex; cbn [ret raise fst snd];
    destruct (dget "y" encodings) as [y_enc|] eqn:Ey; cbn [ret raise fst snd];
    try unchanged_case.
  destruct x_enc as [| |x_enc]; cbn [ret raise fst snd]; try unchanged_case.
  destruct (dget "type" x_enc) as [x_type|] eqn:Ext; cbn [ret raise fst snd];
    try unchanged_case.
  destruct y_enc as [| |y_enc]; cbn [ret raise fst snd]; try unchanged_case.
  destruct (dget "type" y_enc) as [y_type|] eqn:Eyt; cbn [ret raise fst snd];
    try unchanged_case.
  destruct (is_str x_type "quantitative") eqn:Eqx;
    destruct (is_str y_type "quantitative") eqn:Eqy;
    cbn [xorb negb ret raise fst snd]; try unchanged_case.
  - rewrite Eenc. cbn [ret fst snd].
    do 3 eexists. split; [reflexivity|]. split; [auto|]. right.
    exists mark, encodings, x_enc, y_enc. unfold is_quantitative. rewrite Ext, Eyt.
    repeat split; auto.
  - rewrite Eenc. cbn [ret fst snd].
    do 3 eexists. split; [reflexivity|]. split; [auto|]. right.
    exists mark, encodings, x_enc, y_enc. unfold is_quantitative. rewrite Ext, Eyt.
    repeat split; auto.
Qed.

(** X9. What [improve_aggregate] can do to a spec, for every spec and every
    draw: either it leaves the spec as it is (also when it raises), or it
    returns after setting [aggregate = 'mean'] on exactly one of the
    encodings [x] and [y], namely the quantitative one, the other one not
    being quantitative; this happens only for a mark among bar, line and
    area and a coin draw of at least 1/2. It consumes at most one draw. *)
Theorem improve_aggregate_cases (spec : dict value) (w : world) :
  exists r spec' w',
    Improvements.improve_aggregate (spec, w) = (r, (spec', w'))
    /\ (w' = w \/ w' = advance w)
    /\ (spec' = spec
        \/ exists mark encodings x_enc y_enc,
             r = Return tt
             /\ w' = advance w
             /\ (1 # 2 <= rng w 0)%Q
             /\ dget "mark" spec = Some mark
             /\ aggregate_mark mark = true
             /\ dget "encoding" spec = Some (VDict encodings)
             /\ dget "x" encodings = Some (VDict x_enc)
             /\ dget "y" encodings = Some (VDict y_enc)
             /\ ((is_quantitative x_enc = true /\ is_quantitative y_enc = false
                  /\ spec' = with_mean spec encodings "x" x_enc)
                 \/ (is_quantitative x_enc = false /\ is_quantitative y_enc = true
                     /\ spec' = with_mean spec encodings "y" y_enc))).
Proof. apply improve_aggregate_outcomes. Qed.
End ImprovementsFacts.

Section ImproveFacts.
Context {PO : PropObjects}.
Variable m : Model.t.

Lemma improve_unfold sw :
  Model_improve m sw
  = bind Improvements.improve_aggregate
      (fun _ => bind Improvements.improve_bar (fun done => ret done)) sw.
Proof. reflexivity. Qed.

Lemma aggregate_mark_not_rect mark :
  aggregate_mark mark = true -> is_str mark "rect" = false.
Proof.
  destruct mark as [s| |]; try discriminate.
  unfold aggregate_mark, is_str. cbn [existsb]. rewrite !orb_true_iff.
  intros [H|[H|[H|H]]]; try discriminate; apply String.eqb_eq in H; subst; reflexivity.
Qed.

(** X10. How the two improvements compose in [Model.improve], by the mark
    of the spec. Without a mark the pass raises [KeyError] and changes
    nothing. For the mark [rect] it sets the zero-baseline scale, touches
    nothing else and consumes no draw. For a mark among bar, line and area
    it is the aggregate heuristic alone: no scale is ever set on such a
    spec. For every other mark it returns with spec and random generator
    unchanged. *)
Theorem improve_by_mark (spec : dict value) (w : world) :
  (dget "mark" spec = None ->
   Model_improve m (spec, w) = (Raise (KeyError "mark"), (spec, w)))
  /\ (forall mark, dget "mark" spec = Some mark ->
        (is_str mark "rect" = true ->
         Model_improve m (spec, w)
         = (Return tt, (dset "scale" (VDict [("zero", VBool true)]) spec, w)))
        /\ (aggregate_mark mark = true ->
            Model_improve m (spec, w) = Improvements.improve_aggregate (spec, w))
        /\ (is_str mark "rect" = false -> aggregate_mark mark = false ->
            Model_improve m (spec, w) = (Return tt, (spec, w)))).
Proof.
  split; [|intros mark Emark; repeat split].
  - intros Emark. rewrite improve_unfold.
    unfold Improvements.improve_aggregate, bind, get_spec, getitem. cbn [fst snd].
    now rewrite Emark.
  - intros Erect.
    assert (Eagg : aggregate_mark mark = false).
    { destruct (aggregate_mark mark) eqn:E; auto.
      apply aggregate_mark_not_rect in E. congruence. }
    rewrite improve_unfold.
    unfold Improvements.improve_aggregate, Improvements.improve_bar, bind, get_spec,
      put_spec, getitem.
    cbn [fst snd]. rewrite Emark. cbn [ret fst snd].
    fold (aggregate_mark mark). rewrite Eagg. cbn [negb ret fst snd].
    rewrite Emark. cbn [ret fst snd]. now rewrite Erect.
  - intros Eagg. rewrite improve_unfold.
    destruct (improve_aggregate_outcomes spec w) as (r & spec' & w' & E & _ & Hspec).
    unfold bind at 1. rewrite E.
    destruct r as [[]|e]; [|reflexivity].
    assert (Emark' : dget "mark" spec' = Some mark).
    { destruct Hspec as [->|(mk & encs & xe & ye & _ & _ & _ & _ & _ & _ & _ & _ & Hs)];
        auto.
      destruct Hs as [(_ & _ & ->)|(_ & _ & ->)]; unfold with_mean;
        rewrite dget_dset_other; auto; discriminate. }
    unfold Improvements.improve_bar, bind, get_spec, getitem. cbn [fst snd].
    rewrite Emark'. cbn [ret fst snd].
    now rewrite (aggregate_mark_not_rect mark Eagg).
  - intros Erect Eagg. rewrite improve_unfold.
    unfold Improvements.improve_aggregate, Improvements.improve_bar, bind, get_spec,
      put_spec, getitem.
    cbn [fst snd]. rewrite Emark. cbn [ret fst snd].
    fold (aggregate_mark mark). rewrite Eagg. cbn [negb ret fst snd].
    rewrite Emark. cbn [ret fst snd]. now rewrite Erect.
Qed.
End ImproveFacts.

(** ** Field names, continued *)

Lemma foldM_app {S A B : Type} (body : B -> A -> M S B) l1 l2 acc s :
  foldM body (l1 ++ l2)%list acc s
  = bind (foldM body l1 acc) (fun acc' => foldM body l2 acc') s.
Proof.
  revert acc s. induction l1 as [|x l1 IH]; intros acc s; simpl.
  - reflexivity.
  - unfold bind in *. destruct (body acc x s) as [[acc'|e] s']; auto.
Qed.

Lemma dkeys_with_fields e : forall names, dkeys (with_fields e names) = dkeys e.
Proof.
  induction e as [|[c [| |d]] e IH]; intros [|n names]; simpl; auto.
  f_equal. apply IH.
Qed.

Lemma type_code_with_field field d :
  type_code (VDict (dset "field" field d)) = type_code (VDict d).
Proof. unfold type_code. rewrite dget_dset_other; [reflexivity | discriminate]. Qed.

Lemma type_codes_with_fields e : forall names,
  type_codes (with_fields e names) = type_codes e.
Proof.
  unfold type_codes.
  induction e as [|[c [| |d]] e IH]; intros [|n names]; auto.
  cbn [with_fields flat_map snd]. rewrite type_code_with_field. f_equal. apply IH.
Qed.

Lemma typed_with_fields e names : typed e -> typed (with_fields e names).
Proof.
  revert names. induction e as [|[c v] e IH]; intros names Ht; [destruct names; auto|].
  destruct names as [|n names]; [destruct v; auto|].
  destruct v as [| |d]; auto.
  cbn [with_fields]. intros c' v' [H|H].
  - injection H as <- <-. rewrite type_code_with_field.
    apply (Ht c (VDict d)). now left.
  - apply (IH names (typed_tail _ _ Ht) c' v' H).
Qed.

Lemma with_fields_twice e : forall names,
  with_fields (with_fields e names) names = with_fields e names.
Proof.
  induction e as [|[c [| |d]] e IH]; intros [|n names]; auto.
  cbn [with_fields]. rewrite dset_dset_same. f_equal. apply IH.
Qed.

(** On encodings that all carry a valid type, [populate_field_names]
    returns the spec with the names [name_fields] written. *)
Lemma populate_typed spec e w :
  dget "encoding" spec = Some (VDict e) -> NoDup (dkeys e) -> typed e ->
  Generator.populate_field_names (spec, w)
  = (Return tt,
     (dset "encoding" (VDict (with_fields e (name_fields [] (type_codes e)))) spec, w)).
Proof.
  intros Hget Hn Ht.
  destruct (populate_loop e [] [] [("n", 1); ("o", 1); ("q", 1); ("t", 1)] spec w)
    as (counts' & E); auto.
  { split; [reflexivity|]. intros code Hc. simpl in Hc.
    destruct Hc as [<-|[<-|[<-|[<-|[]]]]]; reflexivity. }
  unfold Generator.populate_field_names, get_spec, bind, getitem, as_dict.
  cbn [fst snd]. rewrite Hget. cbn [ret]. rewrite E. reflexivity.
Qed.

(** X11. Field-name assignment is idempotent: on a spec whose encodings
    all carry a valid type, a second run of [populate_field_names], at any
    later point of the random stream, returns the spec the first run
    produced. *)
Theorem populate_field_names_idempotent spec e w w' :
  dget "encoding" spec = Some (VDict e) ->
  NoDup (dkeys e) ->
  typed e ->
  exists spec',
    Generator.populate_field_names (spec, w) = (Return tt, (spec', w))
    /\ Generator.populate_field_names (spec', w') = (Return tt, (spec', w')).
Proof.
  intros Hget Hn Ht.
  set (names := name_fields [] (type_codes e)).
  exists (dset "encoding" (VDict (with_fields e names)) spec).
  split; [now apply populate_typed|].
  rewrite (populate_typed _ (with_fields e names)).
  - rewrite type_codes_with_fields. fold names. rewrite with_fields_twice.
    now rewrite dset_dset_same.
  - apply dget_dset_same.
  - now rewrite dkeys_with_fields.
  - now apply typed_with_fields.
Qed.

Lemma populate_field_names_idempotent_witness :
  exists spec',
    Generator.populate_field_names (shaped_spec "bar" "mean", example_world 0 [])
    = (Return tt, (spec', example_world 0 []))
    /\ Generator.populate_field_names (spec', example_world 1 [])
       = (Return tt, (spec', example_world 1 [])).
Proof.
  apply (populate_field_names_idempotent (shaped_spec "bar" "mean")
           (shaped_encodings "mean") (example_world 0 []) (example_world 1 [])).
  - reflexivity.
  - repeat constructor; simpl; intuition discriminate.
  - apply shaped_typed.
Defined.

(** The loop of [populate_field_names] over the entries [todo], between
    the entries [done] before them and the entries [tail] after them. *)
Lemma populate_loop_tail todo : forall done tail seen counts spec w,
  NoDup (dkeys (done ++ todo ++ tail)%list) ->
  typed todo ->
  counts_after counts seen ->
  dget "encoding" spec = Some (VDict (done ++ todo ++ tail)%list) ->
  exists counts',
    foldM Generator.populate_step (dkeys todo) counts (spec, w)
    = (Return counts',
       (dset "encoding"
             (VDict (done ++ with_fields todo (name_fields seen (type_codes todo))
                          ++ tail)%list)
             spec, w))
    /\ dkeys counts' = ["n"; "o"; "q"; "t"].
Proof.
  induction todo as [|[channel enc] todo IH];
    intros done tail seen counts spec w Hnd Hty Hc Hget.
  - exists counts. simpl. unfold ret. rewrite dset_dget_same; auto.
    split; auto. apply Hc.
  - destruct (Hty channel enc (or_introl eq_refl)) as (code & Hcode & Hin).
    assert (Hfresh : ~ In channel (dkeys done)).
    { unfold dkeys in *. rewrite map_app in Hnd. simpl in Hnd.
      apply NoDup_remove_2 in Hnd. rewrite in_app_iff in Hnd. tauto. }
    unfold type_code in Hcode. destruct enc as [| |d]; try discriminate.
    destruct (dget "type" d) as [[ty| |]|] eqn:Ety; try discriminate.
    injection Hcode as Hcode.
    destruct Hc as [Hk Hcnt]. pose proof (Hcnt code Hin) as Hcount.
    set (field := code ++ str (1 + count_occ string_dec seen code)).
    set (enc' := dset "field" (VStr field) d).
    set (spec' := dset "encoding"
                       (VDict (done ++ (channel, VDict enc') :: todo ++ tail)%list) spec).
    destruct (IH (done ++ [(channel, VDict enc')])%list tail (code :: seen)
                 (dset code (1 + count_occ string_dec seen code + 1) counts)
                 spec' w) as (counts' & E & Hk').
    + rewrite <- app_assoc. simpl. unfold dkeys in *.
      rewrite map_app in *. exact Hnd.
    + intros c e Hce. apply (Hty c e). now right.
    + apply counts_after_step; [split|]; auto.
    + subst spec'. rewrite dget_dset_same. now rewrite <- app_assoc.
    + exists counts'. split; [|exact Hk'].
      cbn [dkeys map fst foldM].
      unfold bind at 1.
      assert (Estep : Generator.populate_step counts channel (spec, w)
                      = (Return (dset code (1 + count_occ string_dec seen code + 1) counts),
                         (spec', w))).
      { unfold Generator.populate_step, set_enc, get_spec, put_spec, bind, getitem,
          as_dict, as_str. cbn [fst snd]. rewrite Hget. cbn [ret].
        cbn [app] in *.
        rewrite (dget_app_here channel (VDict d) done (todo ++ tail)%list Hfresh).
        cbn [ret].
        rewrite Ety. cbn [ret]. rewrite Hcode, Hcount. cbn [ret fst snd].
        rewrite Hget. cbn [ret fst snd].
        rewrite (dset_app_here channel _ (VDict d) done (todo ++ tail)%list Hfresh).
        reflexivity. }
      rewrite Estep. fold (dkeys todo). rewrite E. subst spec'.
      rewrite dset_dset_same. rewrite <- app_assoc.
      cbn [type_codes flat_map snd type_code with_fields app].
      rewrite Ety, Hcode. cbn [app name_fields with_fields]. reflexivity.
Qed.

(** X12. On the first encoding, in key order, that has no ['type'] or
    whose type is not in one of the four categories, [populate_field_names]
    raises [KeyError] (of ['type'], or of the unknown type code). The spec is
    left half-finalized: the encodings before that one carry their field
    names, that one and the later ones are untouched. *)
Theorem populate_field_names_stops_at_untyped spec good channel enc rest key w :
  dget "encoding" spec = Some (VDict (good ++ (channel, VDict enc) :: rest)%list) ->
  NoDup (dkeys (good ++ (channel, VDict enc) :: rest)%list) ->
  typed good ->
  (dget "type" enc = None /\ key = "type")
  \/ (exists ty, dget "type" enc = Some (VStr ty)
                 /\ key = String.substring 0 1 ty
                 /\ ~ In key ["n"; "o"; "q"; "t"]) ->
  Generator.populate_field_names (spec, w)
  = (Raise (KeyError key),
     (dset "encoding"
           (VDict (with_fields good (name_fields [] (type_codes good))
                     ++ (channel, VDict enc) :: rest)%list)
           spec, w)).
Proof.
  intros Hget Hnd Hty Hbad.
  set (named := with_fields good (name_fields [] (type_codes good))).
  destruct (populate_loop_tail good [] ((channel, VDict enc) :: rest) []
              [("n", 1); ("o", 1); ("q", 1); ("t", 1)] spec w)
    as (counts' & E & Hk); auto.
  { split; [reflexivity|]. intros code Hc. simpl in Hc.
    destruct Hc as [<-|[<-|[<-|[<-|[]]]]]; reflexivity. }
  cbn [app] in E. fold named in E.
  assert (Hfresh : ~ In channel (dkeys named)).
  { subst named. rewrite dkeys_with_fields.
    unfold dkeys in Hnd. rewrite map_app in Hnd. simpl in Hnd.
    now apply NoDup_remove_2 in Hnd; rewrite in_app_iff in Hnd; tauto. }
  assert (Hpop : Generator.populate_field_names (spec, w)
                 = bind (foldM Generator.populate_step
                           (dkeys (good ++ (channel, VDict enc) :: rest)%list)
                           [("n", 1); ("o", 1); ("q", 1); ("t", 1)])
                        (fun _ => ret tt) (spec, w)).
  { unfold Generator.populate_field_names, get_spec, bind, getitem, as_dict.
    cbn [fst snd]. rewrite Hget. reflexivity. }
  rewrite Hpop. unfold bind at 1.
  replace (dkeys (good ++ (channel, VDict enc) :: rest)%list)
    with (dkeys good ++ channel :: dkeys rest)%list
    by (unfold dkeys; rewrite map_app; reflexivity).
  rewrite foldM_app. unfold bind at 1. rewrite E.
  cbn [foldM]. unfold bind at 1.
  assert (Estep : Generator.populate_step counts' channel
                    (dset "encoding" (VDict (named ++ (channel, VDict enc) :: rest)%list) spec, w)
                  = (Raise (KeyError key),
                     (dset "encoding" (VDict (named ++ (channel, VDict enc) :: rest)%list) spec, w))).
  { unfold Generator.populate_step, get_spec, bind, getitem, as_dict, as_str.
    cbn [fst snd]. rewrite dget_dset_same. cbn [ret].
    rewrite (dget_app_here channel (VDict enc) named rest Hfresh). cbn [ret].
    destruct Hbad as [[Hnone ->]|(ty & Hsome & -> & Hcode)].
    - rewrite Hnone. reflexivity.
    - rewrite Hsome. cbn [ret].
      assert (Hmiss : dget (String.substring 0 1 ty) counts' = None).
      { apply dget_None_notin. now rewrite Hk. }
      rewrite Hmiss. reflexivity. }
  rewrite Estep. reflexivity.
Qed.

Lemma populate_field_names_stops_at_untyped_witness :
  Generator.populate_field_names
    ([("mark", VStr "bar");
      ("encoding", VDict [("x", VDict [("type", VStr "quantitative")]);
                          ("y", VDict [("aggregate", VStr "mean")]);
                          ("color", VDict [("type", VStr "nominal")])])],
     example_world 0 [])
  = (Raise (KeyError "type"),
     (dset "encoding"
           (VDict (with_fields [("x", VDict [("type", VStr "quantitative")])]
                               (name_fields [] (type_codes
                                  [("x", VDict [("type", VStr "quantitative")])]))
                     ++ ("y", VDict [("aggregate", VStr "mean")])
                        :: [("color", VDict [("type", VStr "nominal")])])%list)
           [("mark", VStr "bar");
            ("encoding", VDict [("x", VDict [("type", VStr "quantitative")]);
                                ("y", VDict [("aggregate", VStr "mean")]);
                                ("color", VDict [("type", VStr "nominal")])])],
      example_world 0 [])).
Proof.
  apply (populate_field_names_stops_at_untyped
           [("mark", VStr "bar");
            ("encoding", VDict [("x", VDict [("type", VStr "quantitative")]);
                                ("y", VDict [("aggregate", VStr "mean")]);
                                ("color", VDict [("type", VStr "nominal")])])]
           [("x", VDict [("type", VStr "quantitative")])]
           "y" [("aggregate", VStr "mean")]
           [("color", VDict [("type", VStr "nominal")])] "type" (example_world 0 [])).
  - reflexivity.
  - repeat constructor; simpl; intuition discriminate.
  - intros c e [H|[]]. injection H as <- <-.
    eexists. split; [reflexivity | simpl; auto].
  - left. split; reflexivity.
Defined.

Lemma str_inj n n' : str n = str n' -> n = n'.
Proof.
  unfold str. intros H.
  assert (Hnn : forall k, Nat.to_uint k <> Decimal.Nil).
  { intros k. rewrite <- (Unsigned.of_to k) at 1. rewrite Unsigned.to_of.
    apply unorm_nonnil. }
  apply (f_equal NilZero.uint_of_string) in H.
  rewrite !NilZero.usu in H by apply Hnn.
  injection H as H. now apply Unsigned.to_uint_inj.
Qed.

Lemma type_letter code :
  In code ["n"; "o"; "q"; "t"] -> exists a, code = String a EmptyString.
Proof. intros [<-|[<-|[<-|[<-|[]]]]]; eexists; reflexivity. Qed.

(** Every name is a code followed by a counter above the occurrences seen. *)
Lemma name_fields_form codes : forall seen name,
  In name (name_fields seen codes) ->
  exists code k,
    In code codes
    /\ count_occ string_dec seen code <= k
    /\ name = code ++ str (1 + k).
Proof.
  induction codes as [|code codes IH]; intros seen name; simpl; [tauto|].
  intros [<-|Hin].
  - exists code, (count_occ string_dec seen code). auto.
  - destruct (IH _ _ Hin) as (code' & k & Hc & Hk & ->).
    exists code', k. repeat split; auto.
    simpl in Hk. destruct (string_dec code code'); lia.
Qed.

Lemma name_fields_NoDup codes : forall seen,
  (forall code, In code codes -> In code ["n"; "o"; "q"; "t"]) ->
  NoDup (name_fields seen codes).
Proof.
  induction codes as [|code codes IH]; intros seen Hcodes; simpl; constructor.
  - intros Hin. destruct (name_fields_form _ _ _ Hin) as (code' & k & Hc & Hk & E).
    destruct (type_letter code) as [a ->]; [apply Hcodes; simpl; auto|].
    destruct (type_letter code') as [a' ->]; [apply Hcodes; simpl; auto|].
    simpl in E. injection E as -> E. apply str_inj in E.
    rewrite (count_occ_cons_eq string_dec seen eq_refl) in Hk. lia.
  - apply IH. intros c Hc. apply Hcodes. simpl. auto.
Qed.

Lemma name_fields_length codes : forall seen,
  List.length (name_fields seen codes) = List.length codes.
Proof. induction codes; simpl; auto. Qed.

Lemma type_codes_typed e :
  typed e ->
  List.length (type_codes e) = List.length e
  /\ forall code, In code (type_codes e) -> In code ["n"; "o"; "q"; "t"].
Proof.
  unfold type_codes. induction e as [|[c v] e IH]; intros Ht; [simpl; tauto|].
  destruct (Ht c v (or_introl eq_refl)) as (code & Hcode & Hin).
  destruct (IH (typed_tail _ _ Ht)) as [Hl Hc].
  cbn [flat_map snd]. rewrite Hcode. cbn [app List.length]. split; [lia|].
  intros code' [<-|H]; auto.
Qed.

Lemma map_fst_combine_same {A B : Type} (l : list A) (l' : list B) :
  List.length l = List.length l' -> map fst (combine l l') = l.
Proof.
  revert l'. induction l; intros [|b l']; simpl; try discriminate; auto.
  intros [= H]. f_equal. auto.
Qed.

Lemma map_snd_combine_same {A B : Type} (l : list A) (l' : list B) :
  List.length l = List.length l' -> map snd (combine l l') = l'.
Proof.
  revert l'. induction l; intros [|b l']; simpl; try discriminate; auto.
  intros [= H]. f_equal. auto.
Qed.

(** X13. On a spec whose encodings all carry a valid type,
    [populate_field_names] gives every encoding a field name, and the names
    it gives within one spec are pairwise distinct. *)
Theorem populate_field_names_distinct spec e w :
  dget "encoding" spec = Some (VDict e) ->
  NoDup (dkeys e) ->
  typed e ->
  exists e',
    Generator.populate_field_names (spec, w)
    = (Return tt, (dset "encoding" (VDict e') spec, w))
    /\ map fst (assigned e') = dkeys e
    /\ NoDup (map snd (assigned e')).
Proof.
  intros Hget Hnd Ht.
  exists (with_fields e (name_fields [] (type_codes e))).
  destruct (type_codes_typed e Ht) as [Hlen Hcodes].
  assert (Hl : List.length (dkeys e)
               = List.length (name_fields [] (type_codes e))).
  { rewrite name_fields_length, Hlen. unfold dkeys. now rewrite length_map. }
  split; [now apply populate_typed|].
  rewrite assigned_with_fields by exact Ht.
  rewrite map_fst_combine_same, map_snd_combine_same by exact Hl.
  split; auto. now apply name_fields_NoDup.
Qed.

Lemma populate_field_names_distinct_witness :
  exists e',
    Generator.populate_field_names (shaped_spec "bar" "mean", example_world 0 [])
    = (Return tt, (dset "encoding" (VDict e') (shaped_spec "bar" "mean"),
                   example_world 0 []))
    /\ map fst (assigned e') = dkeys (shaped_encodings "mean")
    /\ NoDup (map snd (assigned e')).
Proof.
  apply (populate_field_names_distinct (shaped_spec "bar" "mean")
           (shaped_encodings "mean") (example_world 0 [])).
  - reflexivity.
  - repeat constructor; simpl; intuition discriminate.
  - apply shaped_typed.
Defined.

(** ** The working pools *)

Lemma same_pools_refl w : same_pools w w.
Proof. split; reflexivity. Qed.

Lemma same_pools_trans w1 w2 w3 :
  same_pools w1 w2 -> same_pools w2 w3 -> same_pools w1 w3.
Proof. unfold same_pools. intros [] []. split; congruence. Qed.

Lemma pools_random : framed same_pools random.
Proof. intros w. split; [split; reflexivity | discriminate]. Qed.

Lemma pools_get_world : framed same_pools get_world.
Proof. intros w. split; [split; reflexivity | discriminate]. Qed.

#[local] Hint Resolve same_pools_refl same_pools_trans pools_random pools_get_world
  : frame.

Lemma pools_uniform a b : framed same_pools (uniform a b).
Proof. unfold uniform. frame_auto. Qed.

#[local] Hint Resolve pools_uniform : frame.

Lemma pools_sample {V : Type} (enums : list V) probs :
  framed same_pools (Model.sample enums probs).
Proof. unfold Model.sample. frame_auto. Qed.

#[local] Hint Resolve pools_sample : frame.

Lemma framed_foldM_in {S A B : Type} (R : S -> S -> Prop)
    (body : B -> A -> M S B) l :
  (forall s, R s s) ->
  (forall s1 s2 s3, R s1 s2 -> R s2 s3 -> R s1 s3) ->
  (forall acc x, In x l -> framed R (body acc x)) ->
  forall acc, framed R (foldM body l acc).
Proof.
  intros Hr Ht. induction l as [|x l IH]; simpl; intros Hb acc.
  - now apply framed_ret.
  - apply framed_bind; auto.
Qed.

Section PoolsFacts.
Context {PO : PropObjects}.
Variable m : Model.t.

Lemma pools_include prop : framed same_pools (Model.include m prop).
Proof. unfold Model.include. frame_auto. Qed.

Lemma pools_sample_enum prop :
  prop <> "channel" -> framed same_pools (Model.sample_enum m prop).
Proof.
  intros Hne. apply String.eqb_neq in Hne.
  unfold Model.sample_enum. rewrite Hne. frame_auto.
Qed.

Lemma pools_sample_prop prop :
  prop <> "channel" -> framed same_pools (Model.sample_prop m prop).
Proof.
  intros Hne. pose proof (pools_sample_enum prop Hne).
  unfold Model.sample_prop. frame_auto.
Qed.

Lemma pools_generate_enc :
  ~ In "channel" (Model.encoding_props m) ->
  framed same_pools (Model.generate_enc m).
Proof.
  intros Hch. unfold Model.generate_enc.
  apply framed_foldM_in; eauto using same_pools_refl, same_pools_trans.
  intros acc p Hp.
  assert (Hne : p <> "channel") by (intros ->; tauto).
  pose proof (pools_include p). pose proof (pools_sample_prop p Hne).
  frame_auto.
Qed.

(** X14. Only the channel pool is consumed. Sampling any other property
    leaves the working enum and weight lists of every property as they
    were, whether the call returns or raises; so does building a whole
    encoding, unless ['channel'] is configured as an encoding-level
    property. *)
Theorem sampling_with_replacement (prop : string) (w : world) :
  (prop <> "channel" -> same_pools w (snd (Model.sample_enum m prop w)))
  /\ (prop <> "channel" -> same_pools w (snd (Model.sample_prop m prop w)))
  /\ (~ In "channel" (Model.encoding_props m) ->
      same_pools w (snd (Model.generate_enc m w))).
Proof.
  repeat split.
  - apply (pools_sample_enum prop H w).
  - apply (pools_sample_enum prop H w).
  - apply (pools_sample_prop prop H w).
  - apply (pools_sample_prop prop H w).
  - apply (pools_generate_enc H w).
  - apply (pools_generate_enc H w).
Qed.
End PoolsFacts.

Lemma pop_without {A : Type} (l : list A) : forall i,
  i < List.length l -> pop i l = Some (without i l).
Proof.
  induction l as [|x l IH]; intros [|i] H; simpl in H; try lia.
  - reflexivity.
  - simpl. rewrite IH by lia. reflexivity.
Qed.

Section ChannelDraw.
Variable m : Model.t.

(** X15. Drawing a channel is sampling without replacement, and it keeps
    the two working lists aligned: with a non-empty weight list that is not
    longer than the pool, [__sample_enum('channel')] consumes one draw,
    returns the pool entry at the sampled index, and removes that index
    from the pool and from the weight list alike; the lists of the other
    properties and the shared lists are left alone. *)
Theorem channel_draw_aligned (w : world) (pool : list string) (weights : list Q) :
  dget "channel" (curr_enums w) = Some pool ->
  dget "channel" (curr_probs w) = Some weights ->
  weights <> [] ->
  List.length weights <= List.length pool ->
  exists c,
    nth_error pool (sample_index weights (rng w 0)) = Some c
    /\ Model.sample_enum m "channel" w
       = (Return c,
          mkWorld (fun n => rng w (S n))
                  (dset "channel" (without (sample_index weights (rng w 0)) pool)
                        (curr_enums w))
                  (dset "channel" (without (sample_index weights (rng w 0)) weights)
                        (curr_probs w))
                  (heap w)).
Proof.
  intros He Hp Hne Hlen.
  destruct (sample_run pool weights w Hne Hlen) as (c & Es & Hi & Hc).
  exists c. split; [exact Hc|].
  unfold Model.sample_enum, get_world, bind, getitem.
  rewrite He, Hp. cbn [ret]. rewrite Es. cbn [String.eqb Ascii.eqb Bool.eqb].
  rewrite (pop_without pool) by lia. rewrite (pop_without weights) by lia.
  reflexivity.
Qed.
End ChannelDraw.

Lemma channel_draw_aligned_witness :
  exists c,
    nth_error ["x"; "y"; "color"] (sample_index [1 # 2; 1 # 4; 1 # 4]%Q (1 # 2)%Q) = Some c
    /\ Model.sample_enum example_model "channel"
         (mkWorld (fun _ => (1 # 2)%Q)
                  [("channel", ["x"; "y"; "color"])]
                  [("channel", [1 # 2; 1 # 4; 1 # 4]%Q)] [])
       = (Return c,
          mkWorld (fun _ => (1 # 2)%Q)
                  (dset "channel"
                        (without (sample_index [1 # 2; 1 # 4; 1 # 4]%Q (1 # 2)%Q)
                                 ["x"; "y"; "color"])
                        [("channel", ["x"; "y"; "color"])])
                  (dset "channel"
                        (without (sample_index [1 # 2; 1 # 4; 1 # 4]%Q (1 # 2)%Q)
                                 [1 # 2; 1 # 4; 1 # 4]%Q)
                        [("channel", [1 # 2; 1 # 4; 1 # 4]%Q)])
                  []).
Proof.
  apply (channel_draw_aligned example_model
           (mkWorld (fun _ => (1 # 2)%Q)
                    [("channel", ["x"; "y"; "color"])]
                    [("channel", [1 # 2; 1 # 4; 1 # 4]%Q)] [])
           ["x"; "y"; "color"] [1 # 2; 1 # 4; 1 # 4]%Q).
  - reflexivity.
  - reflexivity.
  - discriminate.
  - simpl. lia.
Defined.

(** ** Total correctness of spec generation *)

Section Total.
Context {S : Type}.

Lemma total_ret {A : Type} (P : S -> Prop) (Q : A -> S -> Prop) a :
  (forall s, P s -> Q a s) -> total P (ret a) Q.
Proof. intros H s Hs. exists a, s. split; auto. Qed.

Lemma total_bind {A B : Type} (P : S -> Prop) (Q1 : A -> S -> Prop)
    (Q : B -> S -> Prop) (c : M S A) (k : A -> M S B) :
  total P c Q1 -> (forall a, total (Q1 a) (k a) Q) -> total P (bind c k) Q.
Proof.
  intros Hc Hk s Hs. destruct (Hc s Hs) as (a & s1 & E1 & H1).
  destruct (Hk a s1 H1) as (b & s2 & E2 & H2).
  exists b, s2. unfold bind. rewrite E1, E2. auto.
Qed.

Lemma total_weaken {A : Type} (P P' : S -> Prop) (Q Q' : A -> S -> Prop) (c : M S A) :
  total P c Q -> (forall s, P' s -> P s) -> (forall a s, Q a s -> Q' a s) ->
  total P' c Q'.
Proof.
  intros Hc HP HQ s Hs. destruct (Hc s (HP s Hs)) as (a & s' & E & H).
  exists a, s'. auto.
Qed.

Lemma total_pre {A : Type} (F : Prop) (P : S -> Prop) (Q : A -> S -> Prop) (c : M S A) :
  (forall s, P s -> F) -> (F -> total P c Q) -> total P c Q.
Proof. intros HF Hc s Hs. apply Hc; eauto. Qed.

(** A loop with an invariant that knows the elements already visited. *)
Lemma total_foldM {A B : Type} (I : list A -> B -> S -> Prop)
    (body : B -> A -> M S B) (l : list A) :
  (forall done x rest acc, l = (done ++ x :: rest)%list ->
     total (I done acc) (body acc x) (I (done ++ [x])%list)) ->
  forall acc, total (I [] acc) (foldM body l acc) (I l).
Proof.
  intros Hb.
  assert (H : forall todo done, l = (done ++ todo)%list ->
            forall acc, total (I done acc) (foldM body todo acc) (I l)).
  { induction todo as [|x todo IH]; intros done El acc; simpl.
    - rewrite List.app_nil_r in El. subst done. now apply total_ret.
    - eapply total_bind; [apply (Hb done x todo acc El)|].
      intros acc'. apply IH. rewrite <- app_assoc. exact El. }
  intros acc. now apply (H l []).
Qed.
End Total.

Lemma fair_advance w : fair w -> fair (advance w).
Proof. intros H n. apply (H (S n)). Qed.

Lemma without_length {A : Type} i (l : list A) :
  i < List.length l -> S (List.length (without i l)) = List.length l.
Proof.
  intros H. unfold without. rewrite length_app, length_firstn, length_skipn. lia.
Qed.

Lemma without_incl {A : Type} (l : list A) x : forall i, In x (without i l) -> In x l.
Proof.
  unfold without. induction l as [|y l IH]; intros [|i]; simpl; auto.
  intros [H|H]; [now left | right; now apply (IH i)].
Qed.

Lemma NoDup_dkeys_dset {V : Type} k (v : V) d :
  NoDup (dkeys d) -> NoDup (dkeys (dset k v d)).
Proof.
  intros Hnd. destruct (in_dec string_dec k (dkeys d)) as [Hin|Hout].
  - now rewrite dkeys_dset_present.
  - rewrite dset_fresh by auto. unfold dkeys in *. rewrite map_app. simpl.
    apply NoDup_app; auto.
    + repeat constructor. simpl. tauto.
    + intros x Hx [<-|[]]. tauto.
Qed.

Lemma In_dget {V : Type} k (v : V) d :
  NoDup (dkeys d) -> In (k, v) d -> dget k d = Some v.
Proof.
  induction d as [|[k' v'] d IH]; simpl; [tauto|].
  intros Hnd [H|H].
  - injection H as -> ->. now rewrite String.eqb_refl.
  - inversion Hnd as [|? ? Hk Hnd']; subst.
    destruct (String.eqb_spec k k') as [->|Hne]; [|auto].
    exfalso. apply Hk. unfold dkeys. apply in_map_iff. now exists (k', v).
Qed.

Section Shape.
Context {PO : PropObjects}.
Variables (ds : dict Model.distribution) (top enc : list string).
Hypothesis WF : well_formed ds top enc.

Let m : Model.t := Model.init ds top enc.

Section Pools.
Variables (E : dict (list string)) (W : dict (list Q)).
Hypothesis pools : pools_for ds top enc E W.

Lemma include_total p d :
  dget p ds = Some d ->
  total (drawing E W) (Model.include m p)
    (fun b w' => drawing E W w'
                 /\ (b = true -> (0 < Model.probability d)%Q)
                 /\ ((1 <= Model.probability d)%Q -> b = true)).
Proof.
  intros Hd w (Hf & He & Hw).
  unfold Model.include, bind, getitem. cbn [Model.distributions m Model.init].
  rewrite Hd. cbn [ret random].
  eexists _, _. split; [reflexivity|].
  destruct (Hf 0) as [H0 H1].
  split; [|split].
  - split; [|split; auto]. intros n. apply (Hf (S n)).
  - unfold Qltb. intros Hb. apply negb_true_iff in Hb.
    destruct (Qlt_le_dec (rng w 0) (Model.probability d)) as [Hlt|Hle].
    + eapply Qle_lt_trans; eauto.
    + apply Qle_bool_iff in Hle. congruence.
  - intros Hp. unfold Qltb. apply negb_true_iff.
    destruct (Qle_bool (Model.probability d) (rng w 0)) eqn:Eb; auto.
    apply Qle_bool_iff in Eb. lra.
Qed.

Lemma sample_prop_total p d :
  In p top \/ In p enc -> dget p ds = Some d ->
  total (drawing E W) (Model.sample_prop m p)
    (fun v w' => drawing E W w'
                 /\ exists name, In name (map Model.name (Model.values d))
                                 /\ v = Model.build_value_from_enum p name).
Proof.
  intros Hin Hd w (Hf & He & Hw).
  destruct (pools p Hin) as (d' & Hd' & Hne & Hpe & Hpw).
  assert (d' = d) by congruence. subst d'.
  destruct (sample_ok (map Model.name (Model.values d))
                      (map Model.enum_probability (Model.values d)) w)
    as (name & i & Es & Hi & Hn).
  { destruct (Model.values d); simpl; congruence. }
  { now rewrite !length_map. }
  unfold Model.sample_prop, Model.sample_enum, get_world, bind, getitem.
  rewrite He, Hw, Hpe, Hpw. cbn [ret]. rewrite Es.
  rewrite (not_channel ds top enc WF p Hin). cbn [ret].
  assert (Hdraw : drawing E W (advance w)).
  { split; [now apply fair_advance | split; auto]. }
  assert (Hname : In name (map Model.name (Model.values d))).
  { eapply nth_error_In; eauto. }
  unfold Model.build_value_from_enum.
  destruct (dget p Model.SPECIAL_ENUMS); eexists _, _; (split; [reflexivity|]);
    (split; [exact Hdraw|]); exists name; split; auto.
Qed.

(** The loop over a list of properties, from any start dict. *)
Lemma props_loop_total props init :
  (forall p, In p props -> In p top \/ In p enc) ->
  total (drawing E W) (foldM (include_and_sample m) props init)
    (fun acc w' => drawing E W w' /\ filled ds props init acc).
Proof.
  intros Hprops.
  pose (I := fun (done : list string) (acc : dict value) (w : world) =>
               drawing E W w /\ filled ds done init acc).
  apply total_weaken with (P := I [] init) (Q := I props).
  - apply total_foldM. intros done p rest acc El.
    assert (Hp : In p props) by (rewrite El; apply in_elt).
    destruct (wf_declared _ _ _ WF p (Hprops p Hp)) as (d & Hd & _).
    unfold include_and_sample.
    apply total_bind with
      (Q1 := fun b w' => (drawing E W w' /\ filled ds done init acc)
                         /\ (b = true -> (0 < Model.probability d)%Q)
                         /\ ((1 <= Model.probability d)%Q -> b = true)).
    { intros w [Hw Hacc].
      destruct (include_total p d Hd w Hw) as (b & w' & Eq & Hw' & H1 & H2).
      exists b, w'. repeat split; auto; try apply Hw'; apply Hacc. }
    intros b.
    apply total_pre with
      (F := filled ds done init acc
            /\ (b = true -> (0 < Model.probability d)%Q)
            /\ ((1 <= Model.probability d)%Q -> b = true)).
    { intros w ((_ & Hacc) & H1 & H2). auto. }
    intros ((Hold & Hcert & Hkeep) & Hpos & Hone).
    destruct b.
    + eapply total_bind.
      * eapply total_weaken; [apply (sample_prop_total p d (Hprops p Hp) Hd)| |].
        -- intros w ((Hw & _) & _). exact Hw.
        -- intros v w H. exact H.
      * intros v. apply total_ret. intros w (Hw & name & Hname & ->).
        split; [exact Hw|]. split; [|split].
        -- intros k v. destruct (string_dec k p) as [->|Hne].
           ++ rewrite dget_dset_same. intros [= <-]. right. split.
              ** apply in_or_app. right. simpl. auto.
              ** exists d, name. auto.
           ++ rewrite dget_dset_other by auto. intros Hk.
              destruct (Hold k v Hk) as [?|[? ?]]; auto.
              right. split; auto. apply in_or_app. auto.
        -- intros q Hq Hc. destruct (string_dec q p) as [->|Hne].
           ++ rewrite dget_dset_same. discriminate.
           ++ rewrite dget_dset_other by auto. apply Hcert; auto.
              apply in_app_or in Hq. destruct Hq as [|[|[]]]; auto. congruence.
        -- intros k Hk. rewrite dget_dset_other.
           ++ apply Hkeep. intros Hin. apply Hk. apply in_or_app. auto.
           ++ intros ->. apply Hk. apply in_or_app. right. simpl. auto.
    + apply total_ret. intros w ((Hw & _) & _). split; [exact Hw|]. split; [|split].
      * intros k v Hk. destruct (Hold k v Hk) as [?|[? ?]]; auto.
        right. split; auto. apply in_or_app. auto.
      * intros q Hq Hc. apply in_app_or in Hq. destruct Hq as [Hq|[<-|[]]].
        -- apply Hcert; auto.
        -- destruct Hc as (d' & Hd' & H1). assert (d' = d) by congruence. subst d'.
           specialize (Hone H1). discriminate.
      * intros k Hk. apply Hkeep. intros Hin. apply Hk. apply in_or_app. auto.
  - intros w Hw. split; [exact Hw|]. split; [|split].
    + intros k v H. now left.
    + intros p [].
    + reflexivity.
  - intros acc w H. exact H.
Qed.

Lemma generate_enc_total :
  total (drawing E W) (Model.generate_enc m)
    (fun e w' => drawing E W w' /\ built ds enc e).
Proof.
  eapply total_weaken.
  - apply (props_loop_total (Model.encoding_props m) []).
    intros p Hp. cbn [Model.encoding_props m Model.init] in Hp.
    apply nodup_In in Hp. auto.
  - auto.
  - cbv beta. intros e w (Hw & H1 & H2 & _). split; [exact Hw|].
    cbn [Model.encoding_props m Model.init] in *. split.
    + intros k v Hk. destruct (H1 k v Hk) as [Hn|[Hin Hs]]; [discriminate|].
      apply nodup_In in Hin. auto.
    + intros p Hp. apply H2. now apply nodup_In.
Qed.
End Pools.

Lemma pools_for_channel E W pool ws :
  pools_for ds top enc E W ->
  pools_for ds top enc (dset "channel" pool E) (dset "channel" ws W).
Proof.
  intros H p Hin. destruct (H p Hin) as (d & Hd & Hne & He & Hw).
  assert (Hnc : p <> "channel") by (apply String.eqb_neq; eapply not_channel; eauto).
  exists d. rewrite !dget_dset_other by auto. auto.
Qed.

(** A channel draw from a non-empty pool. *)
Lemma channel_total E W pool ws :
  dget "channel" E = Some pool -> dget "channel" W = Some ws ->
  pool <> [] -> List.length pool = List.length ws ->
  total (drawing E W) (Model.sample_prop m "channel")
    (fun v w' =>
       exists i c,
         i < List.length pool /\ In c pool /\ v = VStr c
         /\ drawing (dset "channel" (without i pool) E)
                    (dset "channel" (without i ws) W) w').
Proof.
  intros He Hw Hne Hlen w (Hf & HE & HW).
  destruct (sample_ok pool ws w Hne Hlen) as (c & i & Es & Hi & Hc).
  unfold Model.sample_prop, Model.sample_enum, get_world, bind, getitem.
  rewrite HE, HW, He, Hw. cbn [ret]. rewrite Es. cbn [String.eqb Ascii.eqb Bool.eqb].
  rewrite (pop_without pool) by lia. rewrite (pop_without ws) by lia.
  cbn [set_curr_enums set_curr_probs ret dget Model.SPECIAL_ENUMS String.eqb
       Ascii.eqb Bool.eqb].
  eexists _, _. split; [reflexivity|].
  exists i, c. split; [exact Hi|]. split; [eapply nth_error_In; eauto|].
  split; [reflexivity|]. split; [|split; reflexivity].
  intros n. apply (Hf (S n)).
Qed.

(** One round of the loop over the dimensions. *)
Lemma dimension_total E W pool ws spec encoding :
  pools_for ds top enc E W ->
  dget "channel" E = Some pool -> dget "channel" W = Some ws ->
  pool <> [] -> List.length pool = List.length ws ->
  dget "encoding" spec = Some (VDict encoding) ->
  total (drawing E W) (dimension m spec)
    (fun spec' w' =>
       exists i c e,
         i < List.length pool /\ In c pool /\ built ds enc e
         /\ spec' = dset "encoding" (VDict (dset c (VDict e) encoding)) spec
         /\ drawing (dset "channel" (without i pool) E)
                    (dset "channel" (without i ws) W) w').
Proof.
  intros Hpools He Hw Hne Hlen Hget w Hdraw.
  destruct (generate_enc_total E W Hpools w Hdraw) as (e & w1 & E1 & Hdraw1 & Hbuilt).
  destruct (channel_total E W pool ws He Hw Hne Hlen w1 Hdraw1)
    as (v & w2 & E2 & i & c & Hi & Hc & -> & Hdraw2).
  unfold dimension. unfold bind at 1. rewrite E1. unfold bind at 1. rewrite E2.
  unfold Model.set_encoding, bind, getitem. rewrite Hget. cbn [ret as_dict as_str].
  eexists _, _. split; [reflexivity|].
  exists i, c, e. auto.
Qed.

(** The loop over the dimensions, on a pool that is large enough. *)
Lemma dimensions_total n : forall E W pool ws spec encoding,
  pools_for ds top enc E W ->
  dget "channel" E = Some pool -> dget "channel" W = Some ws ->
  List.length pool = List.length ws -> n <= List.length pool ->
  dget "encoding" spec = Some (VDict encoding) ->
  NoDup (dkeys encoding) ->
  total (drawing E W) (repeatM n (dimension m) spec)
    (fun spec' w' =>
       fair w'
       /\ exists encoding',
            dget "encoding" spec' = Some (VDict encoding')
            /\ NoDup (dkeys encoding')
            /\ (forall k, k <> "encoding" -> dget k spec' = dget k spec)
            /\ (forall c v, dget c encoding' = Some v ->
                  dget c encoding = Some v
                  \/ (In c pool /\ exists e, v = VDict e /\ built ds enc e))).
Proof.
  induction n as [|n IH];
    intros E W pool ws spec encoding Hpools He Hw Hlen Hn Hget Hnd.
  - simpl. apply total_ret. intros w (Hf & _). split; [exact Hf|].
    exists encoding. repeat split; auto.
  - assert (Hne : pool <> []) by (destruct pool; simpl in Hn; [lia | discriminate]).
    cbn [repeatM]. eapply total_bind.
    { apply (dimension_total E W pool ws spec encoding); auto. }
    intros spec1 w1 (i & c & e & Hi & Hc & Hbuilt & -> & Hdraw1).
    destruct (IH (dset "channel" (without i pool) E) (dset "channel" (without i ws) W)
                 (without i pool) (without i ws)
                 (dset "encoding" (VDict (dset c (VDict e) encoding)) spec)
                 (dset c (VDict e) encoding)) with (s := w1)
      as (spec' & w' & E' & Hf' & encoding' & Hget' & Hnd' & Hkeep & Hshape); auto.
    + now apply pools_for_channel.
    + apply dget_dset_same.
    + apply dget_dset_same.
    + pose proof (without_length i pool Hi). pose proof (without_length i ws).
      lia.
    + pose proof (without_length i pool Hi). lia.
    + apply dget_dset_same.
    + now apply NoDup_dkeys_dset.
    + exists spec', w'. split; [exact E'|]. split; [exact Hf'|].
      exists encoding'. split; [exact Hget'|]. split; [exact Hnd'|]. split.
      * intros k Hk. rewrite Hkeep by auto. now apply dget_dset_other.
      * intros c' v Hv. destruct (Hshape c' v Hv) as [H|[Hin H]].
        -- destruct (string_dec c' c) as [->|Hne'].
           ++ rewrite dget_dset_same in H. injection H as <-. right. eauto.
           ++ rewrite dget_dset_other in H by auto. now left.
        -- right. split; auto. eapply without_incl; eauto.
Qed.

Lemma init_pools_for :
  pools_for ds top enc (Model.enums m) (Model.probs m).
Proof.
  intros p Hin. destruct (wf_declared _ _ _ WF p Hin) as (d & Hd & Hne).
  exists d. cbn [Model.enums Model.probs m Model.init].
  rewrite (dget_map (fun d => map Model.name (Model.values d))).
  rewrite (dget_map (fun d => map Model.enum_probability (Model.values d))).
  rewrite Hd. auto.
Qed.

(** What [generate_spec] returns; the keys of the encoding map are listed
    once each. *)
Lemma generate_spec_built (n : nat) (w : world) :
  fair w ->
  n <= List.length (channel_enums ds) ->
  exists spec encoding w',
    Model.generate_spec (Model.init ds top enc) n w = (Return spec, w')
    /\ fair w'
    /\ dget "encoding" spec = Some (VDict encoding)
    /\ NoDup (dkeys encoding)
    /\ (forall k v, dget k spec = Some v ->
          k = "encoding" \/ (In k top /\ sampled ds k v))
    /\ (forall p, In p top -> certain ds p -> dget p spec <> None)
    /\ (forall c v, dget c encoding = Some v ->
          In c (channel_enums ds) /\ exists e, v = VDict e /\ built ds enc e).
Proof.
  intros Hf Hn.
  assert (Hdraw : drawing (Model.enums m) (Model.probs m) (readied ds top enc w)).
  { split; [exact Hf | split; reflexivity]. }
  destruct (props_loop_total (Model.enums m) (Model.probs m) init_pools_for
              (Model.top_level_props m) [("encoding", VDict [])]) with
    (s := readied ds top enc w) as (spec0 & w1 & E0 & Hdraw1 & Hold & Hcert & Hkeep);
    auto.
  { intros p Hp. cbn [Model.top_level_props m Model.init] in Hp.
    apply nodup_In in Hp. auto. }
  cbn [Model.top_level_props m Model.init] in Hold, Hcert, Hkeep.
  assert (Henc0 : dget "encoding" spec0 = Some (VDict [])).
  { rewrite Hkeep; [reflexivity|]. rewrite nodup_In. apply (wf_encoding_top _ _ _ WF). }
  assert (Htop : forall k v, dget k spec0 = Some v ->
                   k = "encoding" \/ (In k top /\ sampled ds k v)).
  { intros k v Hk. destruct (Hold k v Hk) as [H|[Hin Hs]].
    - left. simpl in H. destruct (String.eqb_spec k "encoding"); [auto | discriminate].
    - right. apply nodup_In in Hin. auto. }
  assert (Hcert' : forall p, In p top -> certain ds p -> dget p spec0 <> None).
  { intros p Hp. apply Hcert. now apply nodup_In. }
  assert (Eq : Model.generate_spec (Model.init ds top enc) n w
               = repeatM n (dimension m) spec0 w1).
  { unfold Model.generate_spec. unfold bind at 1.
    change (Model.ready (Model.init ds top enc) w) with (Return tt, readied ds top enc w).
    cbv beta iota. unfold bind at 1.
    change (foldM _ (Model.top_level_props (Model.init ds top enc)) _
              (readied ds top enc w))
      with (foldM (include_and_sample m) (Model.top_level_props m)
              [("encoding", VDict [])] (readied ds top enc w)).
    rewrite E0. reflexivity. }
  rewrite Eq. destruct n as [|n].
  - exists spec0, [], w1. simpl. split; [reflexivity|]. split; [apply Hdraw1|].
    repeat split; auto; try discriminate. constructor.
  - destruct (dget "channel" ds) as [d|] eqn:Hd.
    2:{ unfold channel_enums in Hn. rewrite Hd in Hn. simpl in Hn. lia. }
    destruct (dimensions_total (S n) (Model.enums m) (Model.probs m)
                (channel_enums ds) (map Model.enum_probability (Model.values d))
                spec0 []) with (s := w1)
      as (spec' & w' & E' & Hf' & encoding' & Hget' & Hnd' & Hkeep' & Hshape); auto.
    + apply init_pools_for.
    + cbn [Model.enums m Model.init].
      rewrite (dget_map (fun d => map Model.name (Model.values d))).
      unfold channel_enums. now rewrite Hd.
    + cbn [Model.probs m Model.init].
      rewrite (dget_map (fun d => map Model.enum_probability (Model.values d))).
      now rewrite Hd.
    + unfold channel_enums. rewrite Hd. now rewrite !length_map.
    + constructor.
    + exists spec', encoding', w'. split; [exact E'|]. split; [exact Hf'|].
      split; [exact Hget'|]. split; [exact Hnd'|]. split; [|split].
      * intros k v Hk. destruct (string_dec k "encoding") as [->|Hne]; auto.
        rewrite Hkeep' in Hk by auto. auto.
      * intros p Hp Hc. rewrite Hkeep'.
        -- now apply Hcert'.
        -- intros ->. now apply (wf_encoding_top _ _ _ WF).
      * intros c v Hv. destruct (Hshape c v Hv) as [H0|H0]; [discriminate | exact H0].
Qed.

(** X16. The shape of a generated spec. In a well-formed configuration,
    with draws from the unit interval and no more dimensions than declared
    channel values, [generate_spec] returns normally. Beside ['encoding'],
    the keys of the spec are top-level properties, each holding a declared
    value of its property (expanded the way [build_value_from_enum] does),
    and only properties of positive probability occur; a top-level
    property of probability one or more is always present. Every entry of
    the encoding map sits under a declared channel value and is a dict
    built the same way from the encoding-level properties. *)
Theorem generate_spec_shape (n : nat) (w : world) :
  fair w ->
  n <= List.length (channel_enums ds) ->
  exists spec encoding w',
    Model.generate_spec (Model.init ds top enc) n w = (Return spec, w')
    /\ fair w'
    /\ dget "encoding" spec = Some (VDict encoding)
    /\ (forall k v, dget k spec = Some v ->
          k = "encoding" \/ (In k top /\ sampled ds k v))
    /\ (forall p, In p top -> certain ds p -> dget p spec <> None)
    /\ (forall c v, dget c encoding = Some v ->
          In c (channel_enums ds) /\ exists e, v = VDict e /\ built ds enc e).
Proof.
  intros Hf Hn.
  destruct (generate_spec_built n w Hf Hn)
    as (spec & encoding & w' & E & Hf' & Hget & _ & H1 & H2 & H3).
  exists spec, encoding, w'. auto 7.
Qed.
End Shape.

Lemma fair_example_world lists : fair (example_world 0 lists).
Proof. intros n. simpl. split; [apply Qle_refl | reflexivity]. Qed.

Lemma generate_spec_shape_witness :
  exists spec encoding w',
    @Model.generate_spec example_objects
      (Model.init example_distributions ["mark"; "orient"] ["type"]) 2
      (example_world 0 [])
    = (Return spec, w')
    /\ fair w'
    /\ dget "encoding" spec = Some (VDict encoding)
    /\ (forall k v, dget k spec = Some v ->
          k = "encoding"
          \/ (In k ["mark"; "orient"] /\ @sampled example_objects example_distributions k v))
    /\ (forall p, In p ["mark"; "orient"] -> certain example_distributions p ->
          dget p spec <> None)
    /\ (forall c v, dget c encoding = Some v ->
          In c (channel_enums example_distributions)
          /\ exists e, v = VDict e
                       /\ @built example_objects example_distributions ["type"] e).
Proof.
  apply (@generate_spec_shape example_objects example_distributions
           ["mark"; "orient"] ["type"] example_well_formed 2 (example_world 0 [])).
  - apply fair_example_world.
  - simpl. lia.
Defined.

(** ** Enumerating one top-level property *)

Section ImproveReturns.
Context {PO : PropObjects}.

Lemma typed_entry encodings channel v :
  typed encodings -> NoDup (dkeys encodings) -> dget channel encodings = Some v ->
  exists enc ty, v = VDict enc /\ dget "type" enc = Some (VStr ty).
Proof.
  intros Ht Hnd Hget.
  assert (Hin : In (channel, v) encodings).
  { clear Ht Hnd. induction encodings as [|[k' v'] e IH]; simpl in *; [discriminate|].
    destruct (String.eqb_spec channel k'); [left; congruence | right; auto]. }
  destruct (Ht channel v Hin) as (code & Hcode & _).
  unfold type_code in Hcode. destruct v as [| |enc]; try discriminate.
  destruct (dget "type" enc) as [[ty| |]|] eqn:E; try discriminate.
  exists enc, ty. auto.
Qed.

Ltac returns_unchanged :=
  solve [do 2 eexists; split; [reflexivity|]; split; [reflexivity|]; auto].

(** On a spec with a mark whose encodings all carry a type, the aggregate
    heuristic returns; it touches no key but ['encoding']. *)
Lemma improve_aggregate_returns spec w mark encodings :
  dget "mark" spec = Some mark ->
  dget "encoding" spec = Some (VDict encodings) ->
  NoDup (dkeys encodings) -> typed encodings ->
  exists spec' w',
    Improvements.improve_aggregate (spec, w) = (Return tt, (spec', w'))
    /\ heap w' = heap w
    /\ (forall k, k <> "encoding" -> dget k spec' = dget k spec).
Proof.
  intros Emark Eenc Hnd Ht.
  unfold Improvements.improve_aggregate, Model.get_enc_by_channel, set_enc, lift,
    random, bind, get_spec, put_spec, getitem, as_dict.
  cbn [fst snd]. rewrite Emark. cbn [ret raise fst snd].
  destruct (negb (existsb (is_str mark) ["bar"; "line"; "area"]));
    cbn [ret raise fst snd]; [returns_unchanged|].
  destruct (Qltb (rng w 0) (1 # 2)); cbn [ret raise fst snd]; [returns_unchanged|].
  rewrite Eenc. cbn [ret raise fst snd].
  destruct (dget "x" encodings) as [x_enc|] eqn:Ex; cbn [ret raise fst snd];
    destruct (dget "y" encodings) as [y_enc|] eqn:Ey; cbn [ret raise fst snd];
    try returns_unchanged.
  destruct (typed_entry encodings "x" x_enc Ht Hnd Ex) as (xe & xt & -> & Ext).
  destruct (typed_entry encodings "y" y_enc Ht Hnd Ey) as (ye & yt & -> & Eyt).
  cbn [ret raise fst snd]. rewrite Ext. cbn [ret raise fst snd].
  rewrite Eyt. cbn [ret raise fst snd].
  destruct (xorb (negb (is_str (VStr xt) "quantitative"))
                 (negb (is_str (VStr yt) "quantitative")));
    cbn [ret raise fst snd]; [|returns_unchanged].
  destruct (is_str (VStr xt) "quantitative"); cbn [ret raise fst snd];
    rewrite Eenc; cbn [ret raise fst snd];
    (do 2 eexists; split; [reflexivity|]; split; [reflexivity|];
     intros k Hk; now apply dget_dset_other).
Qed.

Lemma improve_returns m spec w mark encodings :
  dget "mark" spec = Some mark ->
  dget "encoding" spec = Some (VDict encodings) ->
  NoDup (dkeys encodings) -> typed encodings ->
  exists spec' w',
    Model_improve m (spec, w) = (Return tt, (spec', w'))
    /\ heap w' = heap w
    /\ (forall k, k <> "encoding" -> k <> "scale" -> dget k spec' = dget k spec).
Proof.
  intros Emark Eenc Hnd Ht.
  destruct (improve_aggregate_returns spec w mark encodings Emark Eenc Hnd Ht)
    as (spec1 & w1 & E1 & Hh & Hk).
  assert (Emark1 : dget "mark" spec1 = Some mark).
  { rewrite Hk; [exact Emark | discriminate]. }
  rewrite improve_unfold. unfold bind at 1. rewrite E1.
  unfold Improvements.improve_bar, bind, get_spec, put_spec, getitem.
  cbn [fst snd]. rewrite Emark1. cbn [ret fst snd].
  destruct (is_str mark "rect"); cbn [ret fst snd].
  - do 2 eexists. split; [reflexivity|]. split; [exact Hh|].
    intros k H1 H2. rewrite dget_dset_other by auto. auto.
  - do 2 eexists. split; [reflexivity|]. split; [exact Hh|]. auto.
Qed.
End ImproveReturns.

Section Single.
Context {PO : PropObjects} {OR : Oracle}.
Variable g : Generator.t.

(** A leaf whose spec has a mark and typed encodings emits at most one
    spec, and exactly one if the oracle accepts. *)
Lemma leaf_returns spec specs w mark encodings :
  dget "mark" spec = Some mark ->
  dget "encoding" spec = Some (VDict encodings) ->
  NoDup (dkeys encodings) -> typed encodings ->
  exists named improved w',
    leaf g spec specs w
    = (Return (if is_valid (Generator.data g, from_vegalite named)
               then (specs ++ [improved])%list else specs), w')
    /\ heap w' = heap w
    /\ (forall k, k <> "encoding" -> k <> "scale" -> dget k improved = dget k spec).
Proof.
  intros Emark Eenc Hnd Ht.
  pose proof (populate_typed spec encodings w Eenc Hnd Ht) as E1.
  set (named := dset "encoding"
                  (VDict (with_fields encodings (name_fields [] (type_codes encodings))))
                  spec) in *.
  destruct (improve_returns (Generator.model g) named w mark
              (with_fields encodings (name_fields [] (type_codes encodings))))
    as (improved & w' & E2 & Hh & Hk).
  - unfold named. rewrite dget_dset_other; [exact Emark | discriminate].
  - apply dget_dset_same.
  - now rewrite dkeys_with_fields.
  - now apply typed_with_fields.
  - exists named, improved, w'. split; [|split; [exact Hh|]].
    + unfold leaf, bind, on_spec. rewrite E1, E2.
      destruct (is_valid (Generator.data g, from_vegalite named)); reflexivity.
    + intros k H1 H2. rewrite Hk by auto. unfold named. now apply dget_dset_other.
Qed.

(** The loop over the values of a top-level property, when it is the last
    one to enumerate. *)
Lemma branches_single base props p mark0 encodings :
  In p (Model.top_level_props (Generator.model g)) ->
  p <> "encoding" ->
  (p = "mark" \/ dget "mark" base = Some mark0) ->
  dget "encoding" base = Some (VDict encodings) ->
  NoDup (dkeys encodings) -> typed encodings ->
  forall enums specs w,
    nth props (heap w) [] = [] ->
    exists added w',
      branches g 1 base props p enums specs w = (Return (specs ++ added)%list, w')
      /\ heap w' = heap w
      /\ List.length added <= List.length enums
      /\ ((forall q, is_valid (Generator.data g, q) = true) ->
          List.length added = List.length enums
          /\ (p <> "scale" ->
              map (dget p) added
              = map (fun e => Some (Model.build_value_from_enum p e)) enums)).
Proof.
  intros Hp Hpe Hmark Eenc Hnd Ht.
  induction enums as [|enum enums IH]; intros specs w Hheap.
  - exists [], w. simpl. rewrite List.app_nil_r. repeat split; auto.
  - set (spec := dset p (Model.build_value_from_enum p enum) base).
    assert (Emut : on_spec (deepcopy base)
                     (Model.mutate_prop (Generator.model g) p enum) w
                   = (Return (tt, spec), w)).
    { unfold on_spec, Model.mutate_prop, bind, get_spec, put_spec, deepcopy.
      cbn [fst snd]. apply mem_In in Hp. rewrite Hp. reflexivity. }
    assert (Emark : exists mark, dget "mark" spec = Some mark).
    { unfold spec. destruct (string_dec p "mark") as [->|Hne].
      - rewrite dget_dset_same. eauto.
      - rewrite dget_dset_other by auto. destruct Hmark; [congruence | eauto]. }
    destruct Emark as (mark & Emark).
    destruct (leaf_returns spec specs w mark encodings)
      as (named & improved & w1 & E1 & Hh1 & Hk1); auto.
    { unfold spec. rewrite dget_dset_other; auto. }
    set (specs1 := if is_valid (Generator.data g, from_vegalite named)
                   then (specs ++ [improved])%list else specs) in *.
    destruct (IH specs1 w1) as (added & w' & E2 & Hh2 & Hlen & Hall).
    { now rewrite Hh1. }
    assert (Estep : branches g 1 base props p (enum :: enums) specs w
                    = branches g 1 base props p enums specs1 w1).
    { unfold branches at 1. cbn [foldM]. unfold bind at 1. unfold bind at 1.
      rewrite Emut. cbv beta iota. rewrite mutate_spec_unfold, Hheap, E1.
      reflexivity. }
    rewrite Estep, E2. unfold specs1 in *.
    destruct (is_valid (Generator.data g, from_vegalite named)) eqn:Ev.
    + exists (improved :: added), w'. rewrite <- app_assoc. simpl.
      split; [reflexivity|]. split; [congruence|]. split; [lia|].
      intros Hv. destruct (Hall Hv) as [Hl Hm]. split; [lia|].
      intros Hs. rewrite (Hm Hs). f_equal.
      rewrite Hk1 by auto. unfold spec. apply dget_dset_same.
    + exists added, w'. split; [reflexivity|]. split; [congruence|].
      split; [simpl; lia|].
      intros Hv. rewrite Hv in Ev. discriminate.
Qed.
End Single.

Section SingleProperty.
Context {PO : PropObjects} {OR : Oracle}.
Variables (ds : dict Model.distribution) (top enc : list string).
Variable schema : list (string * string).
Hypothesis WF : well_formed ds top enc.

Let g : Generator.t := Generator.init ds (Generator.mkDefinitions top enc) schema.

(** Generated encodings are typed when the configuration always gives a
    type. *)
Lemma built_typed encodings :
  types_certain ds enc -> NoDup (dkeys encodings) ->
  (forall c v, dget c encodings = Some v ->
     In c (channel_enums ds) /\ exists e, v = VDict e /\ built ds enc e) ->
  typed encodings.
Proof.
  intros (Hin & dt & Hdt & Hone & Hcodes) Hnd H c v Hcv.
  apply In_dget in Hcv; auto.
  destruct (H c v Hcv) as (_ & e & -> & Hsam & Hcert).
  assert (Hty : dget "type" e <> None) by (apply Hcert; [exact Hin | exists dt; auto]).
  destruct (dget "type" e) as [ty|] eqn:Et; [|congruence].
  destruct (Hsam "type" ty Et) as (_ & d & name & Hd & _ & Hname & ->).
  assert (d = dt) by congruence. subst d.
  apply in_map_iff in Hname. destruct Hname as (v0 & <- & Hv0).
  exists (String.substring 0 1 (Model.name v0)). split; [|now apply Hcodes].
  unfold type_code. rewrite Et. reflexivity.
Qed.

(** X17. Enumerating one top-level property. In a well-formed
    configuration whose encodings always get a type of the four categories
    and whose specs always have a mark (or the mark is the property
    enumerated), with draws from the unit interval and no more dimensions
    than channel values, [generate_interaction] on the one-element list
    [[p]] of a top-level property returns normally with at most one spec per
    declared value of [p]. If the oracle accepts every query, there is
    exactly one spec per declared value, in the declared order, and (unless
    [p] is ['scale'], which the improvements may overwrite) the i-th spec
    holds the i-th value under [p]. *)
Theorem generate_interaction_single (props : ref) (p : string)
    (d : Model.distribution) (n : nat) (w : world) :
  fair w ->
  n <= List.length (channel_enums ds) ->
  types_certain ds enc ->
  nth props (heap w) [] = [p] ->
  In p top ->
  dget p ds = Some d ->
  p = "mark" \/ (In "mark" top /\ certain ds "mark") ->
  exists specs w',
    Generator.generate_interaction g props n w = (Return specs, w')
    /\ List.length specs <= List.length (Model.values d)
    /\ ((forall q, is_valid (Generator.data g, q) = true) ->
        List.length specs = List.length (Model.values d)
        /\ (p <> "scale" ->
            map (dget p) specs
            = map (fun v => Some (Model.build_value_from_enum p (Model.name v)))
                  (Model.values d))).
Proof.
  intros Hf Hn Hty Hprops Hp Hd Hmark.
  destruct (generate_spec_built ds top enc WF n w Hf Hn)
    as (base & encodings & w1 & E & _ & Hget & Hnd & _ & Hcert & Hshape).
  pose proof (built_typed encodings Hty Hnd Hshape) as Htyped.
  assert (Hh : heap w1 = heap w).
  { destruct (framed_generate_spec (Model.init ds top enc) n w) as [Hh _].
    rewrite E in Hh. exact Hh. }
  rewrite generate_interaction_unfold.
  change (Generator.model g) with (Model.init ds top enc). rewrite E.
  rewrite Hh, Hprops. cbn [List.length].
  rewrite mutate_spec_unfold.
  cbn [list_copy snd heap]. rewrite Hh, Hprops.
  rewrite app_nth2 by lia. rewrite Nat.sub_diag. cbn [nth].
  change (Model.enums (Generator.model g))
    with (map (fun kd => (fst kd, map Model.name (Model.values (snd kd)))) ds).
  rewrite (dget_map (fun d => map Model.name (Model.values d))). rewrite Hd.
  cbn [option_map].
  assert (Hmark0 : exists mark0, p = "mark" \/ dget "mark" base = Some mark0).
  { destruct Hmark as [->|[Hin Hc]]; [exists (VStr ""); auto|].
    destruct (dget "mark" base) as [mk|] eqn:Em.
    - exists mk. auto.
    - exfalso. now apply (Hcert "mark" Hin Hc). }
  destruct Hmark0 as (mark0 & Hmark0).
  destruct (branches_single g base (List.length (heap w)) p mark0 encodings)
    with (enums := map Model.name (Model.values d)) (specs := @nil (dict value))
         (w := snd (write (List.length (heap w)) []
                      (mkWorld (rng w1) (curr_enums w1) (curr_probs w1)
                               (heap w ++ [[p]])%list)))
    as (added & w' & Eb & _ & Hlen & Hall); auto.
  - change (Model.top_level_props (Generator.model g)) with (nodup string_dec top).
    now apply nodup_In.
  - intros ->. now apply (wf_encoding_top _ _ _ WF).
  - cbn [write snd heap]. apply nth_update_same. rewrite length_app. simpl. lia.
  - exists added, w'. rewrite length_map in Hlen. split; [exact Eb|]. split; [exact Hlen|].
    intros Hv. destruct (Hall Hv) as [Hl Hm]. rewrite length_map in Hl.
    split; [exact Hl|]. intros Hs. rewrite (Hm Hs). now rewrite map_map.
Qed.
End SingleProperty.

Lemma example_types_certain : types_certain example_distributions ["type"].
Proof.
  split; [simpl; auto|].
  eexists. split; [reflexivity|]. split; [simpl; lra|].
  simpl. intros v [<-|[]]. simpl. auto.
Qed.

Lemma generate_interaction_single_witness :
  exists specs w',
    @Generator.generate_interaction example_objects accept_all
      (Generator.init example_distributions
         (Generator.mkDefinitions ["mark"; "orient"] ["type"]) [("a", "number")])
      0 2 (example_world 0 [["orient"]])
    = (Return specs, w')
    /\ List.length specs <= 2
    /\ ((forall q, @is_valid accept_all ([mkField "a" "number"], q) = true) ->
        List.length specs = 2
        /\ ("orient" <> "scale" ->
            map (dget "orient") specs
            = map (fun v => Some (@Model.build_value_from_enum example_objects
                                    "orient" (Model.name v)))
                  [Model.mkEnum "horizontal" (1 # 2); Model.mkEnum "vertical" (1 # 2)])).
Proof.
  apply (@generate_interaction_single example_objects accept_all example_distributions
           ["mark"; "orient"] ["type"] [("a", "number")] example_well_formed
           0 "orient"
           (Model.mkDist 1 [Model.mkEnum "horizontal" (1 # 2);
                            Model.mkEnum "vertical" (1 # 2)])
           2 (example_world 0 [["orient"]])).
  - apply fair_example_world.
  - simpl. lia.
  - apply example_types_certain.
  - reflexivity.
  - simpl. auto.
  - reflexivity.
  - right. split; [simpl; auto|]. eexists. split; [reflexivity|]. simpl. lra.
Defined.

(** ** The enumeration as a whole *)

Section Enumeration.
Context {PO : PropObjects} {OR : Oracle}.
Variable g : Generator.t.

Lemma generate_spec_heap n w base w1 :
  Model.generate_spec (Generator.model g) n w = (Return base, w1) ->
  heap w1 = heap w.
Proof.
  intros E. destruct (framed_generate_spec (Generator.model g) n w) as [Hh _].
  rewrite E in Hh. exact Hh.
Qed.

(** X18. The first property of the list decides before any spec is
    finalized. When the base spec could be generated and the first property
    has no entry in the enum table, [generate_interaction] raises
    [KeyError] with the name of that property; when its enum list is empty,
    the call returns the empty list: no spec is emitted, not even the base
    spec, whatever the remaining properties are. *)
Theorem generate_interaction_first_prop (props : ref) (n : nat) (w : world)
    (base : dict value) (w1 : world) (p : string) (rest : list string) :
  Model.generate_spec (Generator.model g) n w = (Return base, w1) ->
  nth props (heap w) [] = p :: rest ->
  (dget p (Model.enums (Generator.model g)) = None ->
   fst (Generator.generate_interaction g props n w) = Raise (KeyError p))
  /\ (dget p (Model.enums (Generator.model g)) = Some [] ->
      fst (Generator.generate_interaction g props n w) = Return []).
Proof.
  intros E Hprops. pose proof (generate_spec_heap n w base w1 E) as Hh.
  rewrite generate_interaction_unfold, E, mutate_spec_unfold.
  cbn [list_copy snd heap]. rewrite Hh, Hprops.
  rewrite app_nth2 by lia. rewrite Nat.sub_diag. cbn [nth].
  split; intros ->; reflexivity.
Qed.

(** The output list only grows. *)
Lemma mutate_spec_appends fuel : forall base props specs w specs' w',
  Generator.mutate_spec fuel g base props specs w = (Return specs', w') ->
  exists added, specs' = (specs ++ added)%list.
Proof.
  induction fuel as [|fuel IH]; intros base props specs w specs' w' E;
    [discriminate|].
  rewrite mutate_spec_unfold in E.
  destruct (nth props (heap w) []) as [|p rest].
  - unfold leaf, bind in E.
    destruct (on_spec base Generator.populate_field_names w) as [[[u named]|e] w1];
      [|discriminate].
    destruct (on_spec named (Model_improve (Generator.model g)) w1)
      as [[[u' improved]|e] w2]; [|discriminate].
    destruct (is_valid (Generator.data g, from_vegalite named));
      injection E as <- <-.
    + now exists [improved].
    + exists []. now rewrite List.app_nil_r.
  - destruct (dget p (Model.enums (Generator.model g))) as [enums|]; [|discriminate].
    revert E. generalize (snd (write props rest w)). clear w.
    revert specs. unfold branches.
    induction enums as [|enum enums IHe]; intros specs w E.
    + injection E as <- <-. exists []. now rewrite List.app_nil_r.
    + cbn [foldM] in E. unfold bind at 1 in E. unfold bind at 1 in E.
      destruct (on_spec (deepcopy base)
                  (Model.mutate_prop (Generator.model g) p enum) w)
        as [[[u spec]|e] w1]; [|discriminate].
      destruct (Generator.mutate_spec fuel g spec props specs w1)
        as [[specs1|e] w2] eqn:E1; [|discriminate].
      destruct (IH _ _ _ _ _ _ E1) as (added1 & ->).
      destruct (IHe _ _ E) as (added2 & ->).
      exists (added1 ++ added2)%list. now rewrite app_assoc.
Qed.

(** X19. The recursion never drops or reorders what was collected: when
    [__mutate_spec] returns, at any depth and for any list of remaining
    properties, its result is the list [specs] it was given followed by the
    specs it added. *)
Theorem mutate_spec_append_only (fuel : nat) (base : dict value) (props : ref)
    (specs : list (dict value)) (w : world) (specs' : list (dict value))
    (w' : world) :
  Generator.mutate_spec fuel g base props specs w = (Return specs', w') ->
  List.length specs <= List.length specs'
  /\ firstn (List.length specs) specs' = specs.
Proof.
  intros E. destruct (mutate_spec_appends fuel _ _ _ _ _ _ E) as (added & ->).
  split.
  - rewrite length_app. lia.
  - rewrite firstn_app, Nat.sub_diag, firstn_all. simpl. now rewrite List.app_nil_r.
Qed.
End Enumeration.

Lemma generate_interaction_first_prop_witness :
  (dget "shape" (Model.enums (Generator.model example_generator)) = None ->
   fst (@Generator.generate_interaction example_objects accept_all
          example_generator 0 1 (example_world 0 [["shape"; "mark"]]))
   = Raise (KeyError "shape"))
  /\ (dget "shape" (Model.enums (Generator.model example_generator)) = Some [] ->
      fst (@Generator.generate_interaction example_objects accept_all
             example_generator 0 1 (example_world 0 [["shape"; "mark"]]))
      = Return []).
Proof.
  eapply (@generate_interaction_first_prop example_objects accept_all
            example_generator 0 1 (example_world 0 [["shape"; "mark"]])
            _ _ "shape" ["mark"]).
  - vm_compute. reflexivity.
  - reflexivity.
Defined.

(** A leaf: the spec given in [specs] stays in front of the one added. *)
Lemma mutate_spec_append_only_witness :
  List.length [example_spec]
  <= List.length
       [example_spec;
        [("mark", VStr "bar");
         ("encoding",
          VDict [("x", VDict [("type", VStr "quantitative"); ("field", VStr "q1")])])]]
  /\ firstn (List.length [example_spec])
       [example_spec;
        [("mark", VStr "bar");
         ("encoding",
          VDict [("x", VDict [("type", VStr "quantitative"); ("field", VStr "q1")])])]]
     = [example_spec].
Proof.
  eapply (@mutate_spec_append_only example_objects accept_all example_generator
            1 example_spec 0 [example_spec] (example_world 0 [[]]) _ _).
  vm_compute. reflexivity.
Defined.

Section Exhausted.
Context {PO : PropObjects} {OR : Oracle}.
Variables (ds : dict Model.distribution) (top enc : list string).
Variable schema : list (string * string).
Hypothesis WF : well_formed ds top enc.

Let g : Generator.t := Generator.init ds (Generator.mkDefinitions top enc) schema.

(** X20. The sampler's error surfaces from the generator as it is. In a
    well-formed configuration that declares the channel property,
    [generate_interaction] with more dimensions than declared channel
    values raises [IndexError], whatever the list of properties is; the
    call ends before that list is copied, so the store of list objects is
    exactly as before. *)
Theorem generate_interaction_exhausted (props : ref) (n : nat) (w : world) :
  In "channel" (dkeys ds) ->
  List.length (channel_enums ds) < n ->
  exists w',
    Generator.generate_interaction g props n w = (Raise IndexError, w')
    /\ heap w' = heap w.
Proof.
  intros Hch Hn.
  destruct (dget "channel" ds) as [d|] eqn:Hd.
  2:{ apply dget_None_notin in Hd. tauto. }
  destruct (generate_spec_unfold ds top enc WF n w) as (spec & w1 & E & Hget & Hsame).
  destruct (dimensions_exhausted ds top enc WF n w1 (channel_enums ds) spec [])
    as (w' & E'); auto.
  { eapply same_pools_samplable; eauto. now apply readied_samplable. }
  { eapply same_pools_channel_pool; eauto. eapply readied_channel_pool; eauto. }
  exists w'. rewrite generate_interaction_unfold.
  change (Generator.model g) with (Model.init ds top enc).
  rewrite E, E'. split; [reflexivity|].
  destruct (framed_generate_spec (Model.init ds top enc) n w) as [Hh _].
  rewrite E, E' in Hh. exact Hh.
Qed.
End Exhausted.

Lemma generate_interaction_exhausted_witness :
  exists w',
    @Generator.generate_interaction example_objects accept_all
      (Generator.init example_distributions
         (Generator.mkDefinitions ["mark"; "orient"] ["type"]) [("a", "number")])
      0 3 (example_world 0 [["mark"]])
    = (Raise IndexError, w')
    /\ heap w' = heap (example_world 0 [["mark"]]).
Proof.
  apply (@generate_interaction_exhausted example_objects accept_all
           example_distributions ["mark"; "orient"] ["type"] [("a", "number")]
           example_well_formed 0 3 (example_world 0 [["mark"]])).
  - simpl. auto.
  - simpl. lia.
Defined.

Section ImproveTotal.
Context {PO : PropObjects}.
Variable m : Model.t.

(** X21. The improvement pass cannot fail on a finalized spec. On a spec
    that has a mark and whose encodings are all dicts with a type of the
    four categories, [improve] returns normally, whatever the draws are; it
    changes no key of the spec other than ['encoding'] and ['scale'] and
    leaves the shared lists alone. *)
Theorem improve_total (spec : dict value) (w : world) (mark : value)
    (encodings : dict value) :
  dget "mark" spec = Some mark ->
  dget "encoding" spec = Some (VDict encodings) ->
  NoDup (dkeys encodings) ->
  typed encodings ->
  exists spec' w',
    Model_improve m (spec, w) = (Return tt, (spec', w'))
    /\ heap w' = heap w
    /\ (forall k, k <> "encoding" -> k <> "scale" -> dget k spec' = dget k spec).
Proof. apply improve_returns. Qed.

(** X22. A property that is neither top-level nor encoding-level, and not
    ['channel'], is rejected: [mutate_prop] raises
    [ValueError('invalid prop')] whatever the spec holds (also when it has
    no encoding map), and the spec and the random generator are untouched. *)
Theorem mutate_prop_unknown (prop enum : string) (spec : dict value) (w : world) :
  ~ In prop (Model.top_level_props m) ->
  ~ In prop (Model.encoding_props m) ->
  prop <> "channel" ->
  Model.mutate_prop m prop enum (spec, w)
  = (Raise (ValueError "invalid prop"), (spec, w)).
Proof.
  intros Htop Henc Hch.
  assert (Et : mem prop (Model.top_level_props m) = false).
  { destruct (mem prop (Model.top_level_props m)) eqn:E; auto.
    apply mem_In in E. tauto. }
  assert (Ee : mem prop (Model.encoding_props m) = false).
  { destruct (mem prop (Model.encoding_props m)) eqn:E; auto.
    apply mem_In in E. tauto. }
  apply String.eqb_neq in Hch.
  unfold Model.mutate_prop, bind, get_spec. cbn [fst snd].
  rewrite Et, Hch. cbn [ret]. rewrite Ee. reflexivity.
Qed.
End ImproveTotal.

Lemma example_spec_typed : typed [("x", VDict [("type", VStr "quantitative")])].
Proof.
  intros c v [H|[]]. injection H as <- <-. exists "q". simpl. auto.
Qed.

Lemma improve_total_witness :
  exists spec' w',
    @Model_improve example_objects example_model (example_spec, example_world 1 [])
    = (Return tt, (spec', w'))
    /\ heap w' = heap (example_world 1 [])
    /\ (forall k, k <> "encoding" -> k <> "scale" ->
          dget k spec' = dget k example_spec).
Proof.
  apply (@improve_total example_objects example_model example_spec
           (example_world 1 []) (VStr "bar")
           [("x", VDict [("type", VStr "quantitative")])]).
  - reflexivity.
  - reflexivity.
  - repeat constructor. simpl. tauto.
  - apply example_spec_typed.
Defined.

Lemma mutate_prop_unknown_witness :
  @Model.mutate_prop example_objects example_model "shape" "circle"
    (example_spec, example_world 0 [])
  = (Raise (ValueError "invalid prop"), (example_spec, example_world 0 [])).
Proof.
  apply (@mutate_prop_unknown example_objects example_model "shape" "circle"
           example_spec (example_world 0 [])).
  - simpl. intuition discriminate.
  - simpl. intuition discriminate.
  - discriminate.
Defined.
